(** * film_contact_sheet_v2: grid layout, pagination and cell placement

    A shallow embedding of [film_contact_sheet_v2.py] and the properties of
    its layout logic.  Python integers are unbounded and are modelled by [Z];
    Python exceptions are modelled by an explicit result type. *)

From Stdlib Require Import QArith.
From Stdlib Require Import ZArith List Lia Bool String Ascii Floats.
From Stdlib Require Import Permutation.
Import ListNotations.

Local Open Scope Z_scope.

(** ** The Python runtime the program relies on *)

Module Py.

(** The exceptions the modelled fragment can raise. *)
Inductive exn : Type :=
| ValueError
| ZeroDivisionError
| OverflowError.

Inductive result (A : Type) : Type :=
| Ok (a : A)
| Raise (e : exn).

Arguments Ok {A} a.
Arguments Raise {A} e.

Definition bind {A B : Type} (r : result A) (k : A -> result B) : result B :=
  match r with
  | Ok a => k a
  | Raise e => Raise e
  end.

(** [x // y] and [x % y] on integers: floor division, the remainder takes
    the sign of the divisor, a zero divisor raises. *)
Definition floordiv (x y : Z) : result Z :=
  if y =? 0 then Raise ZeroDivisionError else Ok (x / y).

Definition mod_ (x y : Z) : result Z :=
  if y =? 0 then Raise ZeroDivisionError else Ok (x mod y).

(** Number of elements of [range(start, stop, step)] for a non-zero step. *)
Definition range_length (start stop step : Z) : Z :=
  if 0 <? step then
    if start <? stop then (stop - start - 1) / step + 1 else 0
  else
    if stop <? start then (start - stop - 1) / (- step) + 1 else 0.

(** [list(range(start, stop, step))]; a zero step raises [ValueError]. *)
Definition range (start stop step : Z) : result (list Z) :=
  if step =? 0 then Raise ValueError
  else Ok (map (fun i : nat => start + Z.of_nat i * step)
               (seq 0 (Z.to_nat (range_length start stop step)))).

(** Truth value of an optional integer argument: [None] and [0] are falsy. *)
Definition truthy (o : option Z) : bool :=
  match o with
  | Some v => negb (v =? 0)
  | None => false
  end.

(** The integer held by an optional argument that tested truthy. *)
Definition int_of (o : option Z) : Z :=
  match o with
  | Some v => v
  | None => 0
  end.

(** *** True division of integers

    [n / d] on two Python integers is the binary64 number nearest to the
    exact quotient, ties to even; it raises [OverflowError] when that
    number would not be finite.  The quotient is kept as a dyadic number
    [mant * 2 ^ expo], which is all [math.ceil] needs. *)
Record dyadic : Type := mkDyadic { mant : Z; expo : Z }.

(** Nearest integer to [a / b] for [b > 0], ties to even. *)
Definition round_half_even (a b : Z) : Z :=
  let q := a / b in
  match 2 * (a mod b) ?= b with
  | Lt => q
  | Gt => q + 1
  | Eq => if Z.even q then q else q + 1
  end.

(** The integer [k] with [2 ^ k <= a / b < 2 ^ (k + 1)], for [a, b > 0]. *)
Definition ilog2_ratio (a b : Z) : Z :=
  if b <=? a then Z.log2 (a / b)
  else - Z.log2_up ((b + a - 1) / a).

Definition truediv (n d : Z) : result dyadic :=
  if d =? 0 then Raise ZeroDivisionError
  else if n =? 0 then Ok {| mant := 0; expo := 0 |}
  else
    let a := Z.abs n in
    let b := Z.abs d in
    let e := Z.max (ilog2_ratio a b - 52) (-1074) in
    let m := if 0 <=? e then round_half_even a (b * 2 ^ e)
             else round_half_even (a * 2 ^ (- e)) b in
    if (0 <=? e) && (2 ^ 1024 <=? m * 2 ^ e) then Raise OverflowError
    else Ok {| mant := Z.sgn n * Z.sgn d * m; expo := e |}.

(** [math.ceil] of a finite binary64 number. *)
Definition ceil (x : dyadic) : Z :=
  if 0 <=? expo x then mant x * 2 ^ expo x
  else - ((- mant x) / 2 ^ (- expo x)).

(** *** Floats

    Python floats are binary64 numbers, modelled by Rocq's primitive
    floats. *)

(** The binary64 number nearest to an integer, ties to even; an infinity
    when the integer is out of range. *)
Definition nearest (z : Z) : spec_float :=
  binary_normalize prec emax z 0 false.

(** Conversion of an integer operand in mixed arithmetic: the nearest
    float, [OverflowError] if the integer is too large. *)
Definition float_of_int (z : Z) : result float :=
  match nearest z with
  | S754_infinity _ => Raise OverflowError
  | s => Ok (SF2Prim s)
  end.

(** [x / y] on floats raises on a zero divisor. *)
Definition fdiv (x y : float) : result float :=
  if PrimFloat.eqb y 0 then Raise ZeroDivisionError else Ok (x / y)%float.

(** Truncation toward zero of a binary64 number; infinities and NaN
    raise. *)
Definition trunc (x : spec_float) : result Z :=
  match x with
  | S754_zero _ => Ok 0
  | S754_finite s m e =>
      let a := if 0 <=? e then Zpos m * 2 ^ e else Zpos m / 2 ^ (- e) in
      Ok (if s then - a else a)
  | S754_infinity _ => Raise OverflowError
  | S754_nan => Raise ValueError
  end.

(** [int(x)] on a float. *)
Definition int_of_float (x : float) : result Z := trunc (Prim2SF x).

(** [min(a, b)] on floats: [b] only when [b < a]. *)
Definition fmin (a b : float) : float :=
  if PrimFloat.ltb b a then b else a.

(** A [for] loop whose body may raise, threading the loop state. *)
Fixpoint for_each {S A : Type} (body : S -> A -> result S) (l : list A) (s : S)
  : result S :=
  match l with
  | [] => Ok s
  | x :: l' => bind (body s x) (for_each body l')
  end.

End Py.

Import Py.

Notation "x <- c1 ;; c2" := (Py.bind c1 (fun x => c2))
  (at level 61, c1 at next level, right associativity).

(** ** Paginator *)

(** [paginate(n, per_page)]: the loop appends one pair per element of
    [range(0, n, per_page)]. *)
Definition paginate (n per_page : Z) : result (list (Z * Z)) :=
  r <- range 0 n per_page ;;
  Ok (fold_left (fun pages i => pages ++ [(i, Z.min (i + per_page) n)]) r []).

(** ** Cell mapper *)

Definition index_to_cell (idx rows cols : Z) (order : string) : result (Z * Z) :=
  if String.eqb order "row-left-right" then
    r <- floordiv idx cols ;;
    c <- mod_ idx cols ;;
    Ok (r, c)
  else if String.eqb order "film-bottom-up" then
    c <- floordiv idx rows ;;
    row_from_bottom <- mod_ idx rows ;;
    Ok ((rows - 1) - row_from_bottom, c)
  else
    r <- floordiv idx cols ;;
    c <- mod_ idx cols ;;
    Ok (r, c).

(** ** Images and orientation *)

(** An in-memory picture as far as the layout is concerned: its pixel
    dimensions and the quarter turns applied to it since decoding, in degrees
    counter-clockwise.  [turned] makes a rotated square picture differ from
    the unrotated one. *)
Record Image : Type := mkImage {
  width : Z;
  height : Z;
  turned : Z
}.

Definition size (img : Image) : Z * Z := (width img, height img).

(** [img.rotate(angle, expand=True)] for a quarter turn: the bounding box is
    transposed. *)
Definition rotate (angle : Z) (img : Image) : Image :=
  {| width := height img;
     height := width img;
     turned := (turned img + angle) mod 360 |}.

Definition unify_orientation (img : Image) (mode : string) : Image :=
  if String.eqb mode "none" then img
  else
    let '(w, h) := size img in
    let is_portrait := h >=? w in
    if String.eqb mode "portrait" && negb is_portrait then rotate 90 img
    else if String.eqb mode "landscape" && is_portrait then rotate (-90) img
    else img.

(** ** Image locator *)

Module Path.

(** A path inside the scanned directory, identified by its file name. *)
Definition t : Type := string.

Definition lower_char (c : ascii) : ascii :=
  let n := nat_of_ascii c in
  if (65 <=? n)%nat && (n <=? 90)%nat then ascii_of_nat (n + 32) else c.

Definition upper_char (c : ascii) : ascii :=
  let n := nat_of_ascii c in
  if (97 <=? n)%nat && (n <=? 122)%nat then ascii_of_nat (n - 32) else c.

Fixpoint map_string (f : ascii -> ascii) (s : string) : string :=
  match s with
  | EmptyString => EmptyString
  | String c s' => String (f c) (map_string f s')
  end.

Definition lower : string -> string := map_string lower_char.
Definition upper : string -> string := map_string upper_char.

(** [s.rfind('.')]: position of the last dot, if any. *)
Fixpoint rfind_dot (s : string) : option nat :=
  match s with
  | EmptyString => None
  | String c s' =>
      match rfind_dot s' with
      | Some i => Some (S i)
      | None => if Ascii.eqb c "." then Some O else None
      end
  end.

(** [PurePath.suffix]: the text from the last dot on, unless that dot is
    the first or the last character of the name. *)
Definition suffix (name : t) : string :=
  match rfind_dot name with
  | Some i =>
      if (0 <? i)%nat && (i <? String.length name - 1)%nat
      then substring i (String.length name - i) name
      else EmptyString
  | None => EmptyString
  end.

(** [sorted(...)] on paths of one directory: insertion into an ordered
    list by the code-point order of the names. *)
Fixpoint insert (p : t) (l : list t) : list t :=
  match l with
  | [] => [p]
  | q :: l' => if String.leb p q then p :: l else q :: insert p l'
  end.

Definition sorted (l : list t) : list t := fold_right insert [] l.

Definition mem (p : t) (l : list t) : bool := existsb (String.eqb p) l.

End Path.

(** What the program asks of the file system: the names matching a glob
    pattern, in the order the operating system lists them, and whether a
    path exists. *)
Record Directory : Type := mkDirectory {
  glob : string -> list Path.t;
  exists_ : Path.t -> bool
}.

(** The supported extensions.  [IMG_EXTS] is a Python [set]; its members are
    listed here, the order in which a [for] loop visits them is an argument of
    [find_images]. *)
Definition IMG_EXTS : list string :=
  [".jpg"; ".jpeg"; ".png"; ".tif"; ".tiff"; ".webp"]%string.

Definition find_images (iter_order : list string) (input_dir : Directory)
  : list Path.t :=
  let files :=
    fold_left
      (fun files ext =>
         (files ++ Path.sorted (glob input_dir ("*" ++ ext)))
               ++ Path.sorted (glob input_dir ("*" ++ Path.upper ext)))
      iter_order [] in
  let '(out, _) :=
    fold_left
      (fun '(out, seen) p =>
         if exists_ input_dir p
            && Path.mem (Path.lower (Path.suffix p)) IMG_EXTS
            && negb (Path.mem p seen)
         then (out ++ [p], p :: seen)
         else (out, seen))
      files ([], []) in
  out.

(** A directory on a case-sensitive file system, given by its listing:
    the pattern [*ext] selects the names that end in [ext]. *)
Definition ends_with (ext name : string) : bool :=
  (String.length ext <=? String.length name)%nat
  && String.eqb ext
       (substring (String.length name - String.length ext)
                  (String.length ext) name).

Definition listing (names : list Path.t) : Directory :=
  {| glob := fun pattern =>
       match pattern with
       | String "*" ext => filter (ends_with ext) names
       | _ => filter (String.eqb pattern) names
       end;
     exists_ := fun p => Path.mem p names |}.

(** ** Grid planner *)

(** The body of the search loop of [choose_grid_auto], for one value of
    [rows]; the loop state is [(best, best_area)] and [continue] leaves it
    unchanged. *)
Definition grid_candidate (n : Z) (usable_w usable_h gap_pt : float)
    (st : (Z * Z) * float) (rows : Z) : result ((Z * Z) * float) :=
  let '(best, best_area) := st in
  q <- truediv n rows ;;
  let cols := ceil q in
  if cols >? 30 then Ok st
  else
    cols_1 <- float_of_int (cols - 1) ;;
    cols_f <- float_of_int cols ;;
    cell_w <- fdiv (usable_w - gap_pt * cols_1) cols_f ;;
    rows_1 <- float_of_int (rows - 1) ;;
    rows_f <- float_of_int rows ;;
    cell_h <- fdiv (usable_h - gap_pt * rows_1) rows_f ;;
    if (cell_w <=? 0)%float || (cell_h <=? 0)%float then Ok st
    else
      let area := (cell_w * cell_h)%float in
      if (best_area <? area)%float then Ok ((rows, cols), area)
      else Ok st.

Definition choose_grid_auto (n : Z) (page_w_pt page_h_pt margin_pt gap_pt : float)
  : result (Z * Z) :=
  let usable_w := (page_w_pt - 2 * margin_pt)%float in
  let usable_h := (page_h_pt - 2 * margin_pt)%float in
  rng <- range 1 (Z.min 15 n + 1) 1 ;;
  st <- for_each (grid_candidate n usable_w usable_h gap_pt) rng
          ((1, n), (-1)%float) ;;
  Ok (fst st).

(** The grid selection of [main] (the [# Grid] block): [n] is
    [len(images)], [rows] and [cols] are [args.rows] and [args.cols]. *)
Definition main_grid (n : Z) (rows cols : option Z)
    (page_w_pt page_h_pt margin_pt gap_pt : float) : result (Z * Z) :=
  if truthy rows && truthy cols then
    Ok (int_of rows, int_of cols)
  else if truthy rows && negb (truthy cols) then
    q <- truediv n (int_of rows) ;;
    Ok (int_of rows, ceil q)
  else if truthy cols && negb (truthy rows) then
    q <- truediv n (int_of cols) ;;
    Ok (ceil q, int_of cols)
  else
    choose_grid_auto n page_w_pt page_h_pt margin_pt gap_pt.

(** [main] up to the page list: the grid, [per_page] and [paginate]. *)
Definition main_pages (n : Z) (rows cols : option Z)
    (page_w_pt page_h_pt margin_pt gap_pt : float)
  : result ((Z * Z) * Z * list (Z * Z)) :=
  g <- main_grid n rows cols page_w_pt page_h_pt margin_pt gap_pt ;;
  let per_page := fst g * snd g in
  pages <- paginate n per_page ;;
  Ok (g, per_page, pages).

(** ** Page renderer: the thumbnail size *)

(** The pixel box handed to [thumbnail] in [draw_page]. *)
Definition thumbnail_box (cell_w cell_h : float) (im : Image) : result (Z * Z) :=
  let '(iw, ih) := size im in
  iw_f <- float_of_int iw ;;
  sw <- fdiv cell_w iw_f ;;
  ih_f <- float_of_int ih ;;
  sh <- fdiv cell_h ih_f ;;
  let scale := fmin sw sh in
  a <- int_of_float (iw_f * scale) ;;
  let new_w := Z.max 1 a in
  b <- int_of_float (ih_f * scale) ;;
  let new_h := Z.max 1 b in
  Ok (new_w, new_h).

(** * Vocabulary of the specification *)

(** The mathematical [ceil(n / d)] of the specification. *)
Definition ceil_div (n d : Z) : Z := - ((- n) / d).

(** The largest length a Python list can have ([sys.maxsize]). *)
Definition maxsize : Z := 2 ^ 63 - 1.

(** ** Pages *)

(** [tiles a pages b]: the half-open ranges of [pages] are non-empty, each
    starts where the previous one ends, the first starts at [a] and the
    last ends at [b]. *)
Inductive tiles : Z -> list (Z * Z) -> Z -> Prop :=
| tiles_nil : forall a, tiles a [] a
| tiles_cons : forall a e b rest,
    a < e -> tiles e rest b -> tiles a ((a, e) :: rest) b.

(** The range of page number [i]. *)
Definition page (n per_page : Z) (i : nat) : Z * Z :=
  (Z.of_nat i * per_page, Z.min (Z.of_nat i * per_page + per_page) n).

(** ** Cells *)

(** [f] maps the indices [[0, rows * cols)] one-to-one onto the cells
    [{0..rows-1} x {0..cols-1}]. *)
Definition bijection_onto_grid (rows cols : Z) (f : Z -> result (Z * Z))
  : Prop :=
  (forall idx, 0 <= idx < rows * cols ->
     exists r c, f idx = Ok (r, c) /\ 0 <= r < rows /\ 0 <= c < cols)
  /\ (forall i j cell, 0 <= i < rows * cols -> 0 <= j < rows * cols ->
        f i = Ok cell -> f j = Ok cell -> i = j)
  /\ (forall r c, 0 <= r < rows -> 0 <= c < cols ->
        exists idx, 0 <= idx < rows * cols /\ f idx = Ok (r, c)).

(** ** Pictures and directories used as examples *)

(** A square picture of side [side], not turned yet. *)
Definition square (side : Z) : Image :=
  {| width := side; height := side; turned := 0 |}.

Definition two_files : Directory := listing ["a.png"; "b.jpg"]%string.

(** The sizes Pillow can hold: [xsize] and [ysize] are positive C ints. *)
Definition pil_image (im : Image) : Prop :=
  0 < width im < 2 ^ 31 /\ 0 < height im < 2 ^ 31.

(** The body of the de-duplication loop of [find_images]. *)
Definition dedup_step (input_dir : Directory)
  : list Path.t * list Path.t -> Path.t -> list Path.t * list Path.t :=
  fun '(out, seen) p =>
    if exists_ input_dir p
       && Path.mem (Path.lower (Path.suffix p)) IMG_EXTS
       && negb (Path.mem p seen)
    then (out ++ [p], p :: seen)
    else (out, seen).

(** ** Order of binary64 numbers *)

(** A rank whose lexicographic order is the order [SFcompare] computes on
    numbers: class (from minus infinity to plus infinity), then exponent,
    then mantissa, the last two negated for negative numbers. *)
Definition rank (x : spec_float) : Z * Z * Z :=
  match x with
  | S754_nan => (0, 0, 0)
  | S754_zero _ => (0, 0, 0)
  | S754_infinity s => (if s then -2 else 2, 0, 0)
  | S754_finite s m e =>
      if s then (-1, - e, - Zpos m) else (1, e, Zpos m)
  end.

Definition lex_lt (a b : Z * Z * Z) : Prop :=
  let '(c1, e1, m1) := a in
  let '(c2, e2, m2) := b in
  c1 < c2 \/ (c1 = c2 /\ (e1 < e2 \/ (e1 = e2 /\ m1 < m2))).

Definition is_nan (x : spec_float) : Prop := x = S754_nan.

(** [num x]: the float [x] is not NaN. *)
Definition num (x : float) : Prop := ~ is_nan (Prim2SF x).

Ltac order_cases x y :=
  destruct x as [[|]|[|]| |[|] ? ?], y as [[|]|[|]| |[|] ? ?];
  unfold SFltb, SFleb, SFeqb, is_nan, lex_lt; cbn;
  repeat match goal with
    | |- context [Z.compare ?a ?b] => destruct (Z.compare_spec a b)
    | |- context [Pos.compare_cont Eq ?a ?b] =>
        change (Pos.compare_cont Eq a b) with (Pos.compare a b);
        destruct (Pos.compare_spec a b)
    end; cbn.

Ltac ranks :=
  repeat match goal with
    | |- context [rank ?x] =>
        let c := fresh "c" in let e := fresh "e" in let m := fresh "m" in
        destruct (rank x) as [[c e] m]
    | H : context [rank ?x] |- _ =>
        let c := fresh "c" in let e := fresh "e" in let m := fresh "m" in
        destruct (rank x) as [[c e] m]
    end; unfold lex_lt in *.

(** ** Rounding to binary64 *)

(** The last step of [binary_round_aux]: a mantissa and an exponent become a
    zero, a finite number or an infinity. *)
Definition pack (s : bool) (m e : Z) : spec_float :=
  match m with
  | Z0 => S754_zero s
  | Zpos p => if e <=? emax - prec then S754_finite s p e else S754_infinity s
  | Zneg _ => S754_nan
  end.

(** The exponent of the binary64 numbers of magnitude [2 ^ k]. *)
Definition fexp64 (k : Z) : Z := Z.max (k - 53) (-1074).

(** The exponent at which [m * 2 ^ e] is rounded, and the mantissa it gets
    there. *)
Definition target_exp (m : positive) (e : Z) : Z :=
  fexp64 (Zpos (digits2_pos m) + e).

Definition rounded_mant (m : positive) (e : Z) : Z :=
  round_half_even (Zpos m) (2 ^ (target_exp m e - e)).

(** The integer part of [m * 2 ^ e] for [m >= 0]. *)
Definition floor_dy (m e : Z) : Z :=
  if 0 <=? e then m * 2 ^ e else m / 2 ^ (- e).

(** ** Cell geometry of the automatic grid *)

(** What [float_of_int] returns when it returns. *)
Definition to_float (z : Z) : float := SF2Prim (nearest z).

(** Width (or height) of a cell when [k] cells and [k - 1] gaps share the
    length [usable], as [choose_grid_auto] and [draw_page] compute it. *)
Definition cell_extent (usable gap_pt : float) (k : Z) : float :=
  ((usable - gap_pt * to_float (k - 1)) / to_float k)%float.

Definition usable (page_pt margin_pt : float) : float :=
  (page_pt - 2 * margin_pt)%float.

Definition cell_w (n : Z) (page_w_pt margin_pt gap_pt : float) (rows : Z)
  : float :=
  cell_extent (usable page_w_pt margin_pt) gap_pt (ceil_div n rows).

Definition cell_h (page_h_pt margin_pt gap_pt : float) (rows : Z) : float :=
  cell_extent (usable page_h_pt margin_pt) gap_pt rows.

Definition area (n : Z) (page_w_pt page_h_pt margin_pt gap_pt : float)
    (rows : Z) : float :=
  (cell_w n page_w_pt margin_pt gap_pt rows
   * cell_h page_h_pt margin_pt gap_pt rows)%float.

(** A candidate of the search: [rows] in range, at most 30 columns, and a
    cell of positive width and height. *)
Definition candidate (n : Z) (page_w_pt page_h_pt margin_pt gap_pt : float)
    (rows : Z) : Prop :=
  1 <= rows <= Z.min 15 n
  /\ ceil_div n rows <= 30
  /\ (0 <? cell_w n page_w_pt margin_pt gap_pt rows)%float = true
  /\ (0 <? cell_h page_h_pt margin_pt gap_pt rows)%float = true.

(** One turn of the search loop, with the exact ceiling for the column
    count. *)
Definition search_step (n : Z) (page_w_pt page_h_pt margin_pt gap_pt : float)
    (st : (Z * Z) * float) (rows : Z) : (Z * Z) * float :=
  if ceil_div n rows >? 30 then st
  else if (cell_w n page_w_pt margin_pt gap_pt rows <=? 0)%float
          || (cell_h page_h_pt margin_pt gap_pt rows <=? 0)%float then st
  else if (snd st <? area n page_w_pt page_h_pt margin_pt gap_pt rows)%float
       then ((rows, ceil_div n rows),
             area n page_w_pt page_h_pt margin_pt gap_pt rows)
       else st.

(** The loop invariant once the values below [r] have been tried: either
    nothing was accepted and none of them is a candidate, or the state
    holds a candidate [rb] that no tried candidate beats and that beats
    every candidate with fewer rows. *)
Definition searched (n : Z) (page_w_pt page_h_pt margin_pt gap_pt : float)
    (r : Z) (st : (Z * Z) * float) : Prop :=
  (st = ((1, n), (-1)%float)
   /\ forall r', r' < r ->
        ~ candidate n page_w_pt page_h_pt margin_pt gap_pt r')
  \/ (exists rb,
        st = ((rb, ceil_div n rb),
              area n page_w_pt page_h_pt margin_pt gap_pt rb)
        /\ rb < r
        /\ candidate n page_w_pt page_h_pt margin_pt gap_pt rb
        /\ (forall r', candidate n page_w_pt page_h_pt margin_pt gap_pt r' ->
              r' < r ->
              (area n page_w_pt page_h_pt margin_pt gap_pt rb
               <? area n page_w_pt page_h_pt margin_pt gap_pt r')%float
              = false)
        /\ (forall r', candidate n page_w_pt page_h_pt margin_pt gap_pt r' ->
              r' < rb ->
              (area n page_w_pt page_h_pt margin_pt gap_pt r'
               <? area n page_w_pt page_h_pt margin_pt gap_pt rb)%float
              = true)).

(** ** Explicit grid values *)

(** An explicit grid value of ordinary size: absent, or a non-negative
    integer below [2 ^ 1075]. *)
Definition ordinary (o : option Z) : Prop :=
  match o with
  | Some v => 0 <= v < 2 ^ 1075
  | None => True
  end.

(** ** Exact cell areas *)

(** The value of a finite binary64 number, as a rational. *)
Definition exact (x : float) : Q :=
  match Prim2SF x with
  | S754_finite s m e =>
      ((if s then (-1)%Z else 1%Z) * Zpos m # 1) * Qpower (2 # 1) e
  | _ => 0 # 1
  end.

(** Width (or height) of a cell without rounding: [k] cells and [k - 1]
    gaps share the length [usable]. *)
Definition exact_extent (usable gap_pt : float) (k : Z) : Q :=
  ((exact usable - exact gap_pt * (k - 1 # 1)) / (k # 1))%Q.

(** The cell area of the specification for [rows] rows: the product of the
    cell width and the cell height, without rounding. *)
Definition exact_area (n : Z) (page_w_pt page_h_pt margin_pt gap_pt : float)
    (rows : Z) : Q :=
  (exact_extent (usable page_w_pt margin_pt) gap_pt (ceil_div n rows)
   * exact_extent (usable page_h_pt margin_pt) gap_pt rows)%Q.

(** The automatic grid as the specification words it: the result is a
    candidate whose exact cell area no candidate exceeds, and among the
    candidates of that same area it is the first found, the one with the
    fewest rows. *)
Definition exact_first_maximum
    (n : Z) (page_w_pt page_h_pt margin_pt gap_pt : float) : Prop :=
  exists rows cols,
    choose_grid_auto n page_w_pt page_h_pt margin_pt gap_pt = Ok (rows, cols)
    /\ cols = ceil_div n rows
    /\ candidate n page_w_pt page_h_pt margin_pt gap_pt rows
    /\ (forall r', candidate n page_w_pt page_h_pt margin_pt gap_pt r' ->
          ~ (exact_area n page_w_pt page_h_pt margin_pt gap_pt rows
             < exact_area n page_w_pt page_h_pt margin_pt gap_pt r')%Q)
    /\ (forall r', candidate n page_w_pt page_h_pt margin_pt gap_pt r' ->
          (exact_area n page_w_pt page_h_pt margin_pt gap_pt r'
           == exact_area n page_w_pt page_h_pt margin_pt gap_pt rows)%Q ->
          rows <= r').

(** ** The page of [main] *)

(** One millimetre in points, as [reportlab.lib.units] defines it
    ([72 / 2.54 * 0.1], that is 2.834645669291339), and the A4 page of
    [reportlab.lib.pagesizes], 210 mm by 297 mm. *)
Definition mm : float := 0x1.6ad5ab56ad5acp+1.

Definition A4 : float * float := ((210 * mm)%float, (297 * mm)%float).

(** ** More of the Python runtime: slices and [enumerate] *)

(** A slice bound as Python normalises it for a sequence of length [len]:
    a negative bound counts from the end, and every bound is clamped. *)
Definition slice_bound (len i : Z) : Z :=
  if i <? 0 then Z.max (i + len) 0 else Z.min i len.

(** [l[start:stop]]. *)
Definition slice {A : Type} (l : list A) (start stop : Z) : list A :=
  let len := Z.of_nat (List.length l) in
  let a := slice_bound len start in
  let b := slice_bound len stop in
  firstn (Z.to_nat (b - a)) (skipn (Z.to_nat a) l).

(** [list(enumerate(l))]. *)
Definition enumerate {A : Type} (l : list A) : list (Z * A) :=
  combine (map Z.of_nat (seq 0 (List.length l))) l.

(** ** More of the page renderer *)

(** [normalize_exif]: the transposition Pillow derives from the EXIF tag,
    and the picture itself when that fails for any reason. *)
Definition normalize_exif (exif_transpose : Image -> result Image)
    (img : Image) : Image :=
  match exif_transpose img with
  | Ok transposed => transposed
  | Raise _ => img
  end.

(** [PurePath.stem]: the name without its suffix. *)
Definition stem (name : Path.t) : string :=
  match Path.rfind_dot name with
  | Some i =>
      if (0 <? i)%nat && (i <? String.length name - 1)%nat
      then substring 0 i name
      else name
  | None => name
  end.

(** The caption of [draw_page]: the text drawn under a cell, if any. *)
Definition caption (labels : string) (img_path : Path.t) : option string :=
  if negb (String.eqb labels "none") then
    let text :=
      if String.eqb labels "index" then stem img_path
      else if String.eqb labels "name" then img_path
      else EmptyString in
    match text with
    | EmptyString => None
    | _ => Some text
    end
  else None.

(** What [draw_page] hands to the canvas for one picture: the cell, the
    lower-left corner of the cell, the pixel box asked of [thumbnail] and the
    caption. *)
Record placement : Type := mkPlacement {
  shown : Path.t;
  cell : Z * Z;
  corner : float * float;
  box : Z * Z;
  label : option string
}.

(** The body of the loop of [draw_page] for one picture. *)
Definition draw_image (decode : Path.t -> result Image)
    (exif_transpose : Image -> result Image)
    (rows cols : Z) (gap_pt cell_w cell_h x0 y0 : float)
    (uniform_orient labels order : string)
    (drawn : list placement) (item : Z * Path.t) : result (list placement) :=
  let '(idx, img_path) := item in
  rc <- index_to_cell idx rows cols order ;;
  let '(r, cidx) := rc in
  cidx_f <- float_of_int cidx ;;
  let x := (x0 + cidx_f * (cell_w + gap_pt))%float in
  r_f <- float_of_int r ;;
  let y := (y0 - r_f * (cell_h + gap_pt))%float in
  im <- decode img_path ;;
  let im := normalize_exif exif_transpose im in
  let im := unify_orientation im uniform_orient in
  new_size <- thumbnail_box cell_w cell_h im ;;
  Ok (drawn ++ [ {| shown := img_path;
                    cell := (r, cidx);
                    corner := (x, y);
                    box := new_size;
                    label := caption labels img_path |} ]).

(** [draw_page], as the list of what it draws.  [decode] stands for
    [Image.open] and [exif_transpose] for [ImageOps.exif_transpose]. *)
Definition draw_page (decode : Path.t -> result Image)
    (exif_transpose : Image -> result Image)
    (images : list Path.t) (rows cols : Z)
    (margin_pt gap_pt page_w_pt page_h_pt : float)
    (uniform_orient labels order : string) : result (list placement) :=
  let usable_w := (page_w_pt - 2 * margin_pt)%float in
  let usable_h := (page_h_pt - 2 * margin_pt)%float in
  cols_1 <- float_of_int (cols - 1) ;;
  cols_f <- float_of_int cols ;;
  cell_w <- fdiv (usable_w - gap_pt * cols_1) cols_f ;;
  rows_1 <- float_of_int (rows - 1) ;;
  rows_f <- float_of_int rows ;;
  cell_h <- fdiv (usable_h - gap_pt * rows_1) rows_f ;;
  let x0 := margin_pt in
  let y0 := (page_h_pt - margin_pt - cell_h)%float in
  for_each
    (draw_image decode exif_transpose rows cols gap_pt cell_w cell_h x0 y0
       uniform_orient labels order)
    (enumerate images) [].

(** ** The whole run *)

(** How a run ends: normally, by [SystemExit] (raised by argparse inside
    [parse_args], or by [main] with one of its two messages), or by an
    exception nothing catches. *)
Inductive exit_reason : Type :=
| ArgparseExit
| FolderNotFound
| NoImages.

Inductive outcome (A : Type) : Type :=
| Done (a : A)
| SystemExit (why : exit_reason)
| Uncaught (e : exn).

Arguments Done {A} a.
Arguments SystemExit {A} why.
Arguments Uncaught {A} e.

(** The pages drawn one after the other. *)
Fixpoint draw_pages (draw : list Path.t -> result (list placement))
    (images : list Path.t) (pages : list (Z * Z))
  : result (list (list placement)) :=
  match pages with
  | [] => Ok []
  | (start, stop) :: rest =>
      sheet <- draw (slice images start stop) ;;
      sheets <- draw_pages draw images rest ;;
      Ok (sheet :: sheets)
  end.

(** [main] from its second statement on, once [parse_args()] has returned
    the arguments: [folder_ok] tells whether the input folder exists and is
    a directory, the page size and the lengths are in points already.  The
    result is the grid and what each page shows. *)
Definition main (iter_order : list string) (folder_ok : bool)
    (input_dir : Directory)
    (decode : Path.t -> result Image)
    (exif_transpose : Image -> result Image)
    (rows cols : option Z)
    (page_w_pt page_h_pt margin_pt gap_pt : float)
    (uniform_orient labels order : string)
  : outcome ((Z * Z) * list (list placement)) :=
  if negb folder_ok then SystemExit FolderNotFound
  else
    let images := find_images iter_order input_dir in
    match images with
    | [] => SystemExit NoImages
    | _ =>
        match
          (plan <- main_pages (Z.of_nat (List.length images)) rows cols
                     page_w_pt page_h_pt margin_pt gap_pt ;;
           let '(grid, _, pages) := plan in
           sheets <- draw_pages
                       (fun page_imgs =>
                          draw_page decode exif_transpose page_imgs
                            (fst grid) (snd grid) margin_pt gap_pt
                            page_w_pt page_h_pt uniform_orient labels order)
                       images pages ;;
           Ok (grid, sheets))
        with
        | Ok r => Done r
        | Raise e => Uncaught e
        end
    end.


(** ** Vocabulary for the locator and the renderer *)

(** The names the two glob patterns of one extension bring in. *)
Definition globbed (input_dir : Directory) (ext : string) (p : Path.t)
  : Prop :=
  In p (glob input_dir ("*" ++ ext))
  \/ In p (glob input_dir ("*" ++ Path.upper ext)).

(** The test of the de-duplication loop, apart from [p not in seen]. *)
Definition accepted (input_dir : Directory) (p : Path.t) : bool :=
  exists_ input_dir p && Path.mem (Path.lower (Path.suffix p)) IMG_EXTS.

(** What the loop of [draw_page] makes of the picture [snd item] at the
    index [fst item], for a given cell size and origin. *)
Definition drawn_as (decode : Path.t -> result Image)
    (exif_transpose : Image -> result Image)
    (rows cols : Z) (gap_pt cell_w cell_h x0 y0 : float)
    (uniform_orient labels order : string)
    (item : Z * Path.t) (pl : placement) : Prop :=
  shown pl = snd item
  /\ index_to_cell (fst item) rows cols order = Ok (cell pl)
  /\ label pl = caption labels (snd item)
  /\ (exists im,
        decode (snd item) = Ok im
        /\ thumbnail_box cell_w cell_h
             (unify_orientation (normalize_exif exif_transpose im)
                uniform_orient)
           = Ok (box pl))
  /\ (exists cidx_f r_f,
        float_of_int (snd (cell pl)) = Ok cidx_f
        /\ float_of_int (fst (cell pl)) = Ok r_f
        /\ corner pl = ((x0 + cidx_f * (cell_w + gap_pt))%float,
                        (y0 - r_f * (cell_h + gap_pt))%float)).

(** A cell of the grid. *)
Definition in_grid (rows cols : Z) (rc : Z * Z) : Prop :=
  0 <= fst rc < rows /\ 0 <= snd rc < cols.

(** * Properties *)

(** ** Integer ceiling *)

Lemma ceil_div_spec (n d : Z) :
  0 < d -> (ceil_div n d - 1) * d < n <= ceil_div n d * d.
Proof.
  intros Hd. unfold ceil_div.
  pose proof (Z.div_mod (- n) d ltac:(lia)) as E.
  pose proof (Z.mod_pos_bound (- n) d Hd) as B.
  nia.
Qed.

Lemma ceil_div_unique (n d c : Z) :
  0 < d -> (c - 1) * d < n <= c * d -> ceil_div n d = c.
Proof.
  intros Hd Hc. pose proof (ceil_div_spec n d Hd) as Hs. nia.
Qed.

Lemma ceil_div_pos (n d : Z) : 0 < d -> 0 < n -> 0 < ceil_div n d.
Proof.
  intros Hd Hn. pose proof (ceil_div_spec n d Hd). nia.
Qed.

(** ** Paginator *)

Section Pagination.

Lemma tiles_le a l b : tiles a l b -> a <= b.
Proof. induction 1; lia. Qed.

Lemma tiles_bounds a l b s e :
  tiles a l b -> In (s, e) l -> a <= s /\ s < e /\ e <= b.
Proof.
  induction 1 as [a | a e' b rest Hlt Ht IH]; intros Hin.
  - destruct Hin.
  - destruct Hin as [Heq | Hin].
    + inversion Heq; subst. apply tiles_le in Ht. lia.
    + specialize (IH Hin). lia.
Qed.

(** Every index of [[a, b)] lies in some range. *)
Lemma tiles_cover a l b k :
  tiles a l b -> a <= k < b -> exists s e, In (s, e) l /\ s <= k < e.
Proof.
  induction 1 as [a | a e b rest Hlt Ht IH]; intros Hk.
  - lia.
  - destruct (Z_lt_ge_dec k e) as [Hke | Hke].
    + exists a, e. split; [left; reflexivity | lia].
    + destruct IH as (s & e' & Hin & Hs); [lia |].
      exists s, e'. split; [right; exact Hin | exact Hs].
Qed.

(** Two ranges at different positions share no index. *)
Lemma tiles_disjoint a l b i j s1 e1 s2 e2 :
  tiles a l b -> (i < j)%nat ->
  nth_error l i = Some (s1, e1) -> nth_error l j = Some (s2, e2) ->
  e1 <= s2.
Proof.
  intros Ht. revert i j.
  induction Ht as [a | a e b rest Hlt Ht IH]; intros i j Hij Hi Hj.
  - destruct i; discriminate.
  - destruct j as [| j]; [lia |].
    destruct i as [| i]; simpl in Hi, Hj.
    + inversion Hi; subst.
      apply nth_error_In in Hj.
      pose proof (tiles_bounds _ _ _ _ _ Ht Hj). lia.
    + apply (IH i j); [lia | assumption | assumption].
Qed.

Lemma append_loop {A B : Type} (f : A -> B) (l : list A) (acc : list B) :
  fold_left (fun pages i => pages ++ [f i]) l acc = acc ++ map f l.
Proof.
  revert acc. induction l as [| x l IH]; intros acc; simpl.
  - now rewrite app_nil_r.
  - rewrite IH, <- app_assoc. reflexivity.
Qed.

Variables n per_page : Z.
Hypothesis n_pos : 1 <= n.
Hypothesis per_page_pos : 1 <= per_page.

Lemma range_length_pages : range_length 0 n per_page = ceil_div n per_page.
Proof.
  unfold range_length.
  destruct (Z.ltb_spec 0 per_page); [| lia].
  destruct (Z.ltb_spec 0 n); [| lia].
  symmetry. apply ceil_div_unique; [lia |].
  pose proof (Z.div_mod (n - 0 - 1) per_page ltac:(lia)).
  pose proof (Z.mod_pos_bound (n - 0 - 1) per_page ltac:(lia)).
  nia.
Qed.

Lemma paginate_pages :
  paginate n per_page
  = Ok (map (page n per_page) (seq 0 (Z.to_nat (ceil_div n per_page)))).
Proof.
  unfold paginate, range.
  destruct (Z.eqb_spec per_page 0); [lia |].
  cbn [bind]. rewrite append_loop, range_length_pages, map_map.
  reflexivity.
Qed.

Lemma tiles_pages (m k : nat) :
  Z.of_nat (k + m) * per_page < n ->
  tiles (Z.of_nat k * per_page) (map (page n per_page) (seq k (S m)))
        (Z.min (Z.of_nat (k + S m) * per_page) n).
Proof.
  revert k. induction m as [| m IH]; intros k Hk.
  - simpl. unfold page.
    replace (Z.of_nat (k + 1) * per_page)
      with (Z.of_nat k * per_page + per_page) by lia.
    apply tiles_cons; [lia | constructor].
  - change (seq k (S (S m))) with (k :: seq (S k) (S m)).
    cbn [map]. unfold page at 1.
    rewrite Z.min_l by nia.
    apply tiles_cons; [lia |].
    replace (Z.of_nat k * per_page + per_page)
      with (Z.of_nat (S k) * per_page) by lia.
    replace (k + S (S m))%nat with (S k + S m)%nat by lia.
    apply IH. replace (S k + m)%nat with (k + S m)%nat by lia.
    exact Hk.
Qed.

End Pagination.

(** C1. For [n >= 1] and [per_page >= 1], [paginate] returns exactly
    [ceil(n / per_page)] half-open ranges; they are in increasing order,
    contiguous and non-overlapping and cover [[0, n)] exactly ([tiles]); the
    range at position [i] starts at [i * per_page] and has length [per_page],
    except the last one, which holds the remaining
    [n - (ceil(n / per_page) - 1) * per_page] items, between [1] and
    [per_page] of them. *)
Theorem paginate_partition (n per_page : Z) :
  1 <= n -> 1 <= per_page ->
  exists pages,
    paginate n per_page = Ok pages
    /\ Z.of_nat (List.length pages) = ceil_div n per_page
    /\ tiles 0 pages n
    /\ (forall i s e, nth_error pages i = Some (s, e) ->
          s = Z.of_nat i * per_page
          /\ e - s = if Z.of_nat i <? ceil_div n per_page - 1
                     then per_page
                     else n - (ceil_div n per_page - 1) * per_page)
    /\ 1 <= n - (ceil_div n per_page - 1) * per_page <= per_page.
Proof.
  intros Hn Hp.
  pose proof (ceil_div_spec n per_page ltac:(lia)) as Hc.
  pose proof (ceil_div_pos n per_page ltac:(lia) ltac:(lia)) as Hc0.
  set (c := ceil_div n per_page) in *.
  exists (map (page n per_page) (seq 0 (Z.to_nat c))).
  split; [apply paginate_pages; assumption |].
  split; [rewrite length_map, length_seq; lia |].
  split.
  - pose proof (tiles_pages n per_page Hp (Z.to_nat (c - 1)) 0) as Ht.
    replace (S (Z.to_nat (c - 1))) with (Z.to_nat c) in Ht by lia.
    cbn [Nat.add] in Ht. rewrite !Z2Nat.id in Ht by lia.
    rewrite Z.min_r in Ht by lia. apply Ht. lia.
  - split; [| lia].
    intros i s e Hi.
    rewrite nth_error_map in Hi.
    destruct (nth_error (seq 0 (Z.to_nat c)) i) as [j |] eqn:Hj; [| discriminate].
    assert (Hlen : (i < Z.to_nat c)%nat).
    { pose proof (proj1 (nth_error_Some (seq 0 (Z.to_nat c)) i)) as Hs.
      rewrite Hj in Hs. specialize (Hs ltac:(discriminate)).
      now rewrite length_seq in Hs. }
    rewrite nth_error_seq in Hj.
    destruct (Nat.ltb_spec i (Z.to_nat c)); [| lia].
    inversion Hj; subst j. simpl in Hi. inversion Hi; subst s e.
    split; [reflexivity |].
    destruct (Z.ltb_spec (Z.of_nat i) (c - 1)).
    + rewrite Z.min_l by nia. lia.
    + assert (Z.of_nat i = c - 1) by lia.
      rewrite Z.min_r by nia. lia.
Qed.

(** ** Cell mapper *)

Section CellMapper.

Variables rows cols : Z.

Hypothesis rows_pos : 1 <= rows.
Hypothesis cols_pos : 1 <= cols.

Lemma reading_order_eq (order : string) (idx : Z) :
  order <> "film-bottom-up"%string ->
  index_to_cell idx rows cols order = Ok (idx / cols, idx mod cols).
Proof.
  intros Hne. unfold index_to_cell, floordiv, mod_.
  destruct (Z.eqb_spec cols 0) as [E | _]; [lia |].
  destruct (String.eqb_spec order "film-bottom-up") as [E | _];
    [contradiction |].
  destruct (String.eqb order "row-left-right"); reflexivity.
Qed.

Lemma film_order_eq (idx : Z) :
  index_to_cell idx rows cols "film-bottom-up"
  = Ok ((rows - 1) - idx mod rows, idx / rows).
Proof.
  unfold index_to_cell, floordiv, mod_. cbn [String.eqb Ascii.eqb Bool.eqb].
  destruct (Z.eqb_spec rows 0) as [E | _]; [lia |]. reflexivity.
Qed.

(** Quotient and remainder by [d] enumerate a [q_max] by [d] rectangle. *)
Lemma divmod_in_range (d q_max idx : Z) :
  1 <= d -> 0 <= idx < q_max * d ->
  0 <= idx / d < q_max /\ 0 <= idx mod d < d.
Proof.
  intros Hd Hidx.
  pose proof (Z.div_mod idx d ltac:(lia)).
  pose proof (Z.mod_pos_bound idx d ltac:(lia)).
  split; [| lia]. split; [apply Z.div_pos; lia |].
  apply Z.div_lt_upper_bound; nia.
Qed.

Lemma divmod_inj (d i j : Z) :
  1 <= d -> i / d = j / d -> i mod d = j mod d -> i = j.
Proof.
  intros Hd Hq Hr.
  rewrite (Z.div_mod i d), (Z.div_mod j d) by lia. congruence.
Qed.

Lemma divmod_of_cell (d q r : Z) :
  1 <= d -> 0 <= r < d -> (q * d + r) / d = q /\ (q * d + r) mod d = r.
Proof.
  intros Hd Hr. split.
  - rewrite Z.add_comm, Z.div_add by lia. rewrite Z.div_small by lia. lia.
  - rewrite Z.add_comm, Z.mod_add by lia. apply Z.mod_small; lia.
Qed.

Lemma reading_order_bijection (order : string) :
  order <> "film-bottom-up"%string ->
  bijection_onto_grid rows cols
    (fun idx => index_to_cell idx rows cols order).
Proof.
  intros Hne. repeat split.
  - intros idx Hidx. exists (idx / cols), (idx mod cols).
    split; [apply reading_order_eq; assumption |].
    apply divmod_in_range; lia.
  - intros i j cell _ _ Hi Hj.
    rewrite reading_order_eq in Hi, Hj by assumption.
    rewrite <- Hj in Hi. inversion Hi.
    apply (divmod_inj cols); [lia | assumption | assumption].
  - intros r c Hr Hc. exists (r * cols + c). split; [nia |].
    rewrite reading_order_eq by assumption.
    destruct (divmod_of_cell cols r c ltac:(lia) Hc) as [-> ->].
    reflexivity.
Qed.

Lemma film_order_bijection :
  bijection_onto_grid rows cols
    (fun idx => index_to_cell idx rows cols "film-bottom-up").
Proof.
  repeat split.
  - intros idx Hidx. exists ((rows - 1) - idx mod rows), (idx / rows).
    split; [apply film_order_eq |].
    destruct (divmod_in_range rows cols idx ltac:(lia) ltac:(lia)). lia.
  - intros i j cell _ _ Hi Hj.
    rewrite film_order_eq in Hi, Hj.
    rewrite <- Hj in Hi. inversion Hi.
    apply (divmod_inj rows); [lia | assumption | lia].
  - intros r c Hr Hc. exists (c * rows + (rows - 1 - r)). split; [nia |].
    rewrite film_order_eq.
    destruct (divmod_of_cell rows c (rows - 1 - r) ltac:(lia) ltac:(lia))
      as [-> ->].
    f_equal. f_equal. lia.
Qed.

(** Reading order is row-major: a smaller index lies in an earlier row, or
    in the same row further left. *)
Lemma reading_order_row_major (i j : Z) :
  i < j <->
  (i / cols < j / cols \/ (i / cols = j / cols /\ i mod cols < j mod cols)).
Proof.
  pose proof (Z.div_mod i cols ltac:(lia)).
  pose proof (Z.div_mod j cols ltac:(lia)).
  pose proof (Z.mod_pos_bound i cols ltac:(lia)).
  pose proof (Z.mod_pos_bound j cols ltac:(lia)).
  split.
  - intros Hij.
    destruct (Z.lt_trichotomy (i / cols) (j / cols)) as [Hlt | [Heq | Hgt]].
    + left; exact Hlt.
    + right. split; [exact Heq |]. nia.
    + exfalso. nia.
  - intros [Hlt | [Heq Hlt]]; nia.
Qed.

End CellMapper.

(** C2. For [rows >= 1] and [cols >= 1], the order "film-bottom-up" maps an
    index to column [index // rows] and row [(rows - 1) - index % rows]; this
    is a bijection from [[0, rows * cols)] onto the grid; and for a 3 x 2 grid
    the indices 0..5 go to (2,0), (1,0), (0,0), (2,1), (1,1), (0,1). *)
Theorem film_bottom_up_bijection (rows cols : Z) :
  1 <= rows -> 1 <= cols ->
  (forall idx,
      index_to_cell idx rows cols "film-bottom-up"
      = Ok ((rows - 1) - idx mod rows, idx / rows))
  /\ bijection_onto_grid rows cols
       (fun idx => index_to_cell idx rows cols "film-bottom-up")
  /\ map (fun idx => index_to_cell idx 3 2 "film-bottom-up") [0; 1; 2; 3; 4; 5]
     = [Ok (2, 0); Ok (1, 0); Ok (0, 0); Ok (2, 1); Ok (1, 1); Ok (0, 1)].
Proof.
  intros Hr Hc. split; [| split].
  - intros idx. apply film_order_eq. exact Hr.
  - apply film_order_bijection; assumption.
  - reflexivity.
Qed.

(** C6. For [rows >= 1] and [cols >= 1], the order "row-left-right" maps an
    index to row [index // cols] and column [index % cols], a bijection from
    [[0, rows * cols)] onto the grid in row-major order; every order string
    other than "row-left-right" and "film-bottom-up" yields the same mapping
    and no error. *)
Theorem row_left_right_bijection (rows cols : Z) :
  1 <= rows -> 1 <= cols ->
  (forall idx,
      index_to_cell idx rows cols "row-left-right"
      = Ok (idx / cols, idx mod cols))
  /\ bijection_onto_grid rows cols
       (fun idx => index_to_cell idx rows cols "row-left-right")
  /\ (forall i j ri ci rj cj,
        index_to_cell i rows cols "row-left-right" = Ok (ri, ci) ->
        index_to_cell j rows cols "row-left-right" = Ok (rj, cj) ->
        (i < j <-> ri < rj \/ (ri = rj /\ ci < cj)))
  /\ (forall order idx,
        order <> "row-left-right"%string -> order <> "film-bottom-up"%string ->
        index_to_cell idx rows cols order
        = index_to_cell idx rows cols "row-left-right").
Proof.
  intros Hr Hc.
  assert (Hrl : "row-left-right"%string <> "film-bottom-up"%string)
    by discriminate.
  split; [| split; [| split]].
  - intros idx. apply reading_order_eq; assumption.
  - apply reading_order_bijection; assumption.
  - intros i j ri ci rj cj Hi Hj.
    rewrite reading_order_eq in Hi, Hj by assumption.
    inversion Hi; inversion Hj; subst.
    apply reading_order_row_major. exact Hc.
  - intros order idx _ Hne.
    rewrite !reading_order_eq by assumption. reflexivity.
Qed.

(** ** Orientation *)

Lemma unify_orientation_none (img : Image) :
  unify_orientation img "none" = img.
Proof. reflexivity. Qed.

Lemma unify_orientation_portrait (img : Image) :
  unify_orientation img "portrait"
  = if height img <? width img then rotate 90 img else img.
Proof.
  unfold unify_orientation. cbn [String.eqb Ascii.eqb Bool.eqb size andb].
  rewrite Z.geb_leb.
  destruct (Z.leb_spec (width img) (height img)),
           (Z.ltb_spec (height img) (width img)); try lia; reflexivity.
Qed.

Lemma unify_orientation_landscape (img : Image) :
  unify_orientation img "landscape"
  = if width img <=? height img then rotate (-90) img else img.
Proof.
  unfold unify_orientation. cbn [String.eqb Ascii.eqb Bool.eqb size andb].
  rewrite Z.geb_leb.
  destruct (Z.leb_spec (width img) (height img)); reflexivity.
Qed.

Lemma rotate_quarter_changes (img : Image) :
  rotate 90 img <> img /\ rotate (-90) img <> img.
Proof.
  split; intros Heq; apply (f_equal turned) in Heq; simpl in Heq.
  - pose proof (Z.div_mod (turned img + 90) 360 ltac:(lia)).
    pose proof (Z.mod_pos_bound (turned img + 90) 360 ltac:(lia)). lia.
  - pose proof (Z.div_mod (turned img + -90) 360 ltac:(lia)).
    pose proof (Z.mod_pos_bound (turned img + -90) 360 ltac:(lia)). lia.
Qed.

(** What the code does, for the three modes: "none" never rotates, "portrait"
    rotates exactly the pictures that are strictly wider than tall,
    "landscape" rotates exactly the pictures with [height >= width]. *)
Lemma unify_orientation_rotates (img : Image) :
  unify_orientation img "none" = img
  /\ (unify_orientation img "portrait" <> img <-> height img < width img)
  /\ (unify_orientation img "landscape" <> img <-> width img <= height img).
Proof.
  destruct (rotate_quarter_changes img) as [H90 Hm90].
  rewrite unify_orientation_portrait, unify_orientation_landscape.
  split; [reflexivity | split].
  - destruct (Z.ltb_spec (height img) (width img)); split; intros; try lia;
      try assumption; congruence.
  - destruct (Z.leb_spec (width img) (height img)); split; intros; try lia;
      try assumption; congruence.
Qed.

(** C8. A square picture is not strictly taller than wide, yet mode
    "landscape" turns it by -90 degrees, while mode "portrait" and mode
    "none" leave the same picture alone. *)
Theorem unify_orientation_landscape_square (side : Z) :
  ~ (width (square side) < height (square side))
  /\ unify_orientation (square side) "landscape" = rotate (-90) (square side)
  /\ unify_orientation (square side) "landscape" <> square side
  /\ unify_orientation (square side) "portrait" = square side
  /\ unify_orientation (square side) "none" = square side.
Proof.
  assert (Hl : unify_orientation (square side) "landscape"
               = rotate (-90) (square side)).
  { rewrite unify_orientation_landscape. cbn [square width height].
    rewrite Z.leb_refl. reflexivity. }
  split; [cbn [square width height]; lia |].
  split; [exact Hl |].
  split; [rewrite Hl; apply rotate_quarter_changes |].
  split; [| reflexivity].
  rewrite unify_orientation_portrait. cbn [square width height].
  rewrite Z.ltb_irrefl. reflexivity.
Qed.

(** ** Image locator *)

Section Locator.

Variable input_dir : Directory.

Lemma mem_In (p : Path.t) (l : list Path.t) :
  Path.mem p l = true <-> In p l.
Proof.
  unfold Path.mem. rewrite existsb_exists. split.
  - intros (q & Hq & Heq). apply String.eqb_eq in Heq. now subst.
  - intros Hin. exists p. split; [assumption | apply String.eqb_refl].
Qed.

Lemma dedup_invariant (files : list Path.t) (out seen : list Path.t) :
  NoDup out -> (forall p, In p seen <-> In p out) ->
  NoDup (fst (fold_left (dedup_step input_dir) files (out, seen))).
Proof.
  revert out seen. induction files as [| p files IH]; intros out seen Hnd Hs.
  - exact Hnd.
  - cbn [fold_left].
    replace (dedup_step input_dir (out, seen) p)
      with (if exists_ input_dir p
               && Path.mem (Path.lower (Path.suffix p)) IMG_EXTS
               && negb (Path.mem p seen)
            then (out ++ [p], p :: seen) else (out, seen))
      by reflexivity.
    destruct (exists_ input_dir p
              && Path.mem (Path.lower (Path.suffix p)) IMG_EXTS
              && negb (Path.mem p seen)) eqn:E.
    + apply andb_true_iff in E. destruct E as [_ E].
      apply negb_true_iff in E.
      assert (Hnot : ~ In p out).
      { intros Hin. apply Hs in Hin. apply mem_In in Hin. congruence. }
      apply IH.
      * apply NoDup_app; [assumption | repeat constructor; intros [] | ].
        intros x Hx [Hx' | []]. subst. contradiction.
      * intros q. rewrite in_app_iff. simpl. rewrite Hs. tauto.
    + apply IH; assumption.
Qed.

(** Whatever the iteration order, no path is returned twice. *)
Lemma find_images_NoDup (iter_order : list string) :
  NoDup (find_images iter_order input_dir).
Proof.
  unfold find_images.
  match goal with
  | |- NoDup (let '(o, _) := fold_left _ ?l _ in o) =>
      change (NoDup (fst (fold_left (dedup_step input_dir) l ([], []))))
  end.
  apply dedup_invariant; [constructor | tauto].
Qed.

End Locator.

(** C9. With the files a.png and b.jpg in the directory, two iteration
    orders of the extension set [IMG_EXTS] give the result in two different
    orders. *)
Theorem find_images_order_dependent :
  Permutation.Permutation (rev IMG_EXTS) IMG_EXTS
  /\ find_images IMG_EXTS two_files = ["b.jpg"; "a.png"]%string
  /\ find_images (rev IMG_EXTS) two_files = ["a.png"; "b.jpg"]%string.
Proof.
  split; [apply Permutation.Permutation_sym, Permutation.Permutation_rev |].
  split; reflexivity.
Qed.

(** ** True division followed by [math.ceil] *)

Section TrueDivision.

Lemma ilog2_ratio_spec (a b : Z) :
  0 < a -> 0 < b ->
  let k := ilog2_ratio a b in
  (0 <= k -> 2 ^ k * b <= a < 2 ^ (k + 1) * b)
  /\ (k < 0 -> a * 2 ^ (- k - 1) < b <= a * 2 ^ (- k)).
Proof.
  intros Ha Hb. unfold ilog2_ratio.
  destruct (Z.leb_spec b a) as [Hle | Hlt]; cbv zeta.
  - assert (Hq : 0 < a / b) by (apply Z.div_str_pos; lia).
    pose proof (Z.log2_spec (a / b) Hq) as [L U].
    pose proof (Z.log2_nonneg (a / b)) as Hk.
    pose proof (Z.div_mod a b ltac:(lia)) as E.
    pose proof (Z.mod_pos_bound a b Hb) as B.
    split; [intros _ | lia].
    replace (Z.log2 (a / b) + 1) with (Z.succ (Z.log2 (a / b))) by lia.
    nia.
  - set (c := (b + a - 1) / a).
    pose proof (Z.div_mod (b + a - 1) a ltac:(lia)) as E.
    pose proof (Z.mod_pos_bound (b + a - 1) a Ha) as B.
    fold c in E.
    assert (Hc : 1 < c) by nia.
    pose proof (Z.log2_up_spec c Hc) as [L U].
    assert (Hj : 0 < Z.log2_up c) by (apply Z.log2_up_pos; lia).
    split; [lia | intros _].
    replace (- - Z.log2_up c - 1) with (Z.pred (Z.log2_up c)) by lia.
    replace (- - Z.log2_up c) with (Z.log2_up c) by lia.
    nia.
Qed.

(** The rounded quotient is within one half of the exact quotient. *)
Lemma round_half_even_near (a b : Z) :
  0 < b ->
  2 * b * round_half_even a b - b <= 2 * a <= 2 * b * round_half_even a b + b.
Proof.
  intros Hb. unfold round_half_even.
  pose proof (Z.div_mod a b ltac:(lia)) as E.
  pose proof (Z.mod_pos_bound a b Hb) as B.
  destruct (Z.compare_spec (2 * (a mod b)) b) as [H | H | H];
    [destruct (Z.even (a / b)) |..]; nia.
Qed.

Lemma round_half_even_le (a b c : Z) :
  0 < b -> a <= c * b -> round_half_even a b <= c.
Proof.
  intros Hb Hc. pose proof (round_half_even_near a b Hb). nia.
Qed.

Lemma round_half_even_ge (a b c : Z) :
  0 < b -> c * b <= a -> c <= round_half_even a b.
Proof.
  intros Hb Hc. pose proof (round_half_even_near a b Hb). nia.
Qed.

(** Strictly more than one half above [c] rounds strictly above [c]. *)
Lemma round_half_even_gt (a b c : Z) :
  0 < b -> 2 * c * b + b < 2 * a -> c < round_half_even a b.
Proof.
  intros Hb Hc. pose proof (round_half_even_near a b Hb). nia.
Qed.

Lemma ceil_div_le (n d c : Z) : 0 < d -> n <= c * d -> ceil_div n d <= c.
Proof. intros Hd Hc. pose proof (ceil_div_spec n d Hd). nia. Qed.

Lemma ceil_div_gt (n d c : Z) : 0 < d -> c * d < n -> c < ceil_div n d.
Proof. intros Hd Hc. pose proof (ceil_div_spec n d Hd). nia. Qed.

(** For operands of ordinary size the float detour is harmless: the
    ceiling of the rounded quotient is the ceiling of the exact one. *)
Lemma truediv_ceil_exact (n d : Z) :
  0 < n < 2 ^ 53 -> 0 < d < 2 ^ 1075 ->
  exists q, truediv n d = Ok q /\ ceil q = ceil_div n d.
Proof.
  intros Hn Hd. unfold truediv.
  destruct (Z.eqb_spec d 0) as [E | _]; [lia |].
  destruct (Z.eqb_spec n 0) as [E | _]; [lia |].
  rewrite (Z.abs_eq n), (Z.abs_eq d) by lia.
  rewrite (Z.sgn_pos n), (Z.sgn_pos d) by lia.
  pose proof (ilog2_ratio_spec n d ltac:(lia) ltac:(lia)) as Hk.
  cbv zeta in Hk. set (k := ilog2_ratio n d) in *.
  destruct Hk as [Hk0 Hk1].
  pose proof (ceil_div_spec n d ltac:(lia)) as Hc.
  set (c := ceil_div n d) in *.
  set (e := Z.max (k - 52) (-1074)).
  assert (Hk52 : k <= 52).
  { destruct (Z_lt_ge_dec 52 k) as [Hgt | ]; [| lia]. exfalso.
    specialize (Hk0 ltac:(lia)).
    assert (2 ^ 53 <= 2 ^ k) by (apply Z.pow_le_mono_r; lia). nia. }
  destruct (Z.leb_spec 0 e) as [He | He].
  - (* the quotient is an integer of at most 53 bits *)
    assert (k = 52) by lia. assert (e = 0) by lia.
    specialize (Hk0 ltac:(lia)). subst k.
    assert (d = 1).
    { rewrite H in Hk0. change (2 ^ 52) with 4503599627370496 in Hk0.
      change (2 ^ 53) with 9007199254740992 in Hn. lia. }
    subst d. rewrite H0. change (2 ^ 0) with 1.
    replace (1 * 1) with 1 by lia.
    assert (Hm : round_half_even n 1 = n).
    { apply Z.le_antisymm;
        [apply round_half_even_le | apply round_half_even_ge]; lia. }
    rewrite Hm.
    assert (n * 1 < 2 ^ 1024).
    { assert (2 ^ 53 < 2 ^ 1024) by (apply Z.pow_lt_mono_r; lia). lia. }
    destruct (Z.leb_spec (2 ^ 1024) (n * 1)); [lia |].
    cbn [andb]. eexists. split; [reflexivity |].
    unfold ceil. cbn [expo mant]. cbn [Z.leb Z.compare].
    change (2 ^ 0) with 1. subst c. symmetry.
    apply ceil_div_unique; lia.
  - cbn [andb]. eexists. split; [reflexivity |].
    unfold ceil. cbn [expo mant].
    destruct (Z.leb_spec 0 e); [lia |].
    set (j := - e) in *. assert (Hj : 1 <= j <= 1074) by lia.
    set (m := round_half_even (n * 2 ^ j) d).
    replace (1 * 1 * m) with m by lia.
    change (- (- m / 2 ^ j)) with (ceil_div m (2 ^ j)).
    assert (Hp : 0 < 2 ^ j) by (apply Z.pow_pos_nonneg; lia).
    assert (Hd2 : d < 2 * 2 ^ j).
    { replace (2 * 2 ^ j) with (2 ^ (j + 1))
        by (rewrite Z.pow_add_r by lia; lia).
      destruct (Z.eq_dec j 1074) as [-> | Hne]; [exact (proj2 Hd) |].
      assert (Hj52 : j = 52 - k) by lia.
      destruct (Z_lt_ge_dec k 0) as [Hneg | Hpos].
      + specialize (Hk1 Hneg).
        assert (2 ^ (j + 1) = 2 ^ 53 * 2 ^ (- k))
          by (rewrite <- Z.pow_add_r by lia; f_equal; lia).
        assert (0 < 2 ^ (- k)) by (apply Z.pow_pos_nonneg; lia). nia.
      + specialize (Hk0 ltac:(lia)).
        assert (2 ^ 53 = 2 ^ (j + 1) * 2 ^ k)
          by (rewrite <- Z.pow_add_r by lia; f_equal; lia).
        assert (0 < 2 ^ k) by (apply Z.pow_pos_nonneg; lia).
        assert (0 < 2 ^ (j + 1)) by (apply Z.pow_pos_nonneg; lia). nia. }
    apply ceil_div_unique; [lia |]. split.
    + apply round_half_even_gt; [lia |]. nia.
    + apply round_half_even_le; [lia |]. nia.
Qed.

(** Past 53 bits the quotient by a small divisor may be rounded, but it
    stays huge and finite. *)
Lemma truediv_ceil_large (n d : Z) :
  2 ^ 53 <= n < 2 ^ 1023 -> 1 <= d <= 15 ->
  exists q, truediv n d = Ok q /\ 30 < ceil q.
Proof.
  intros Hn Hd. unfold truediv.
  assert (H53 : 2 ^ 53 = 9007199254740992) by reflexivity.
  destruct (Z.eqb_spec d 0) as [E | _]; [lia |].
  destruct (Z.eqb_spec n 0) as [E | _]; [lia |].
  rewrite (Z.abs_eq n), (Z.abs_eq d) by lia.
  rewrite (Z.sgn_pos n), (Z.sgn_pos d) by lia.
  pose proof (ilog2_ratio_spec n d ltac:(lia) ltac:(lia)) as Hk.
  cbv zeta in Hk. set (k := ilog2_ratio n d) in *.
  destruct Hk as [Hk0 Hk1].
  assert (Hkpos : 0 <= k).
  { destruct (Z_lt_ge_dec k 0) as [Hneg | ]; [| lia]. exfalso.
    specialize (Hk1 Hneg).
    assert (0 < 2 ^ (- k - 1)) by (apply Z.pow_pos_nonneg; lia). nia. }
  specialize (Hk0 Hkpos). clear Hk1.
  assert (Hk49 : 49 <= k).
  { destruct (Z_lt_ge_dec k 49) as [Hlt | ]; [| lia]. exfalso.
    assert (2 ^ (k + 1) <= 2 ^ 49) by (apply Z.pow_le_mono_r; lia).
    change (2 ^ 49) with 562949953421312 in *. nia. }
  assert (Hk1022 : k <= 1022).
  { destruct (Z_lt_ge_dec 1022 k) as [Hgt | ]; [| lia]. exfalso.
    assert (2 ^ 1023 <= 2 ^ k) by (apply Z.pow_le_mono_r; lia). nia. }
  set (e := Z.max (k - 52) (-1074)).
  assert (He : e = k - 52) by lia.
  assert (H52 : 2 ^ 52 = 4503599627370496) by reflexivity.
  destruct (Z.leb_spec 0 e) as [Hpos | Hneg].
  - assert (Hpe : 0 < 2 ^ e) by (apply Z.pow_pos_nonneg; lia).
    assert (Hke : 2 ^ k = 2 ^ 52 * 2 ^ e)
      by (rewrite <- Z.pow_add_r by lia; f_equal; lia).
    assert (Hke1 : 2 ^ (k + 1) = 2 ^ 53 * 2 ^ e)
      by (rewrite <- Z.pow_add_r by lia; f_equal; lia).
    set (m := round_half_even n (d * 2 ^ e)).
    assert (Hm1 : 2 ^ 52 <= m) by (apply round_half_even_ge; nia).
    assert (Hm2 : m <= 2 ^ 53) by (apply round_half_even_le; nia).
    assert (Hfin : m * 2 ^ e < 2 ^ 1024).
    { assert (2 ^ (k + 1) < 2 ^ 1024) by (apply Z.pow_lt_mono_r; lia).
      nia. }
    destruct (Z.leb_spec (2 ^ 1024) (m * 2 ^ e)); [lia |].
    cbn [andb]. eexists. split; [reflexivity |].
    unfold ceil. cbn [expo mant].
    destruct (Z.leb_spec 0 e); [| lia]. nia.
  - cbn [andb]. eexists. split; [reflexivity |].
    unfold ceil. cbn [expo mant].
    destruct (Z.leb_spec 0 e); [lia |].
    set (j := - e) in *. assert (Hj : 1 <= j <= 3) by lia.
    set (m := round_half_even (n * 2 ^ j) d).
    replace (1 * 1 * m) with m by lia.
    change (- (- m / 2 ^ j)) with (ceil_div m (2 ^ j)).
    assert (Hp : 0 < 2 ^ j <= 8).
    { split; [apply Z.pow_pos_nonneg; lia |].
      change 8 with (2 ^ 3). apply Z.pow_le_mono_r; lia. }
    assert (Hkj : 2 ^ 52 = 2 ^ k * 2 ^ j)
      by (rewrite <- Z.pow_add_r by lia; f_equal; lia).
    assert (Hm1 : 2 ^ 52 <= m) by (apply round_half_even_ge; nia).
    apply ceil_div_gt; nia.
Qed.

End TrueDivision.

(** ** Order of binary64 numbers *)

Section FloatOrder.

Lemma SFltb_rank (x y : spec_float) :
  SFltb x y = true <-> ~ is_nan x /\ ~ is_nan y /\ lex_lt (rank x) (rank y).
Proof.
  order_cases x y;
    (split; [intros Hq; try discriminate Hq;
             repeat split; try discriminate; lia
            | intros (Hx & Hy & Hq); try reflexivity;
              try (exfalso; apply Hx; reflexivity);
              try (exfalso; apply Hy; reflexivity);
              exfalso; lia]).
Qed.

Lemma SFleb_rank (x y : spec_float) :
  SFleb x y = true <->
  ~ is_nan x /\ ~ is_nan y /\ ~ lex_lt (rank y) (rank x).
Proof.
  order_cases x y;
    (split; [intros Hq; try discriminate Hq;
             repeat split; try discriminate; lia
            | intros (Hx & Hy & Hq); try reflexivity;
              try (exfalso; apply Hx; reflexivity);
              try (exfalso; apply Hy; reflexivity);
              exfalso; lia]).
Qed.

Lemma ltb_rank (x y : float) :
  PrimFloat.ltb x y = true <->
  num x /\ num y /\ lex_lt (rank (Prim2SF x)) (rank (Prim2SF y)).
Proof. rewrite ltb_spec. apply SFltb_rank. Qed.

Lemma leb_rank (x y : float) :
  PrimFloat.leb x y = true <->
  num x /\ num y /\ ~ lex_lt (rank (Prim2SF y)) (rank (Prim2SF x)).
Proof. rewrite leb_spec. apply SFleb_rank. Qed.

Lemma ltb_num (x y : float) : PrimFloat.ltb x y = true -> num x /\ num y.
Proof. intros H. apply ltb_rank in H. tauto. Qed.

Lemma ltb_trans (x y z : float) :
  PrimFloat.ltb x y = true -> PrimFloat.ltb y z = true ->
  PrimFloat.ltb x z = true.
Proof.
  rewrite !ltb_rank. intros (Hx & Hy & H1) (_ & Hz & H2).
  repeat split; try assumption. ranks. lia.
Qed.

Lemma leb_ltb_trans (x y z : float) :
  PrimFloat.leb x y = true -> PrimFloat.ltb y z = true ->
  PrimFloat.ltb x z = true.
Proof.
  rewrite leb_rank, !ltb_rank. intros (Hx & Hy & H1) (_ & Hz & H2).
  repeat split; try assumption. ranks. lia.
Qed.

Lemma ltb_irrefl (x : float) : PrimFloat.ltb x x = false.
Proof.
  destruct (PrimFloat.ltb x x) eqn:E; [| reflexivity].
  apply ltb_rank in E. destruct E as (_ & _ & E). ranks. lia.
Qed.

Lemma ltb_false_leb (x y : float) :
  num x -> num y -> PrimFloat.ltb x y = false -> PrimFloat.leb y x = true.
Proof.
  intros Hx Hy H. apply leb_rank. repeat split; try assumption.
  intros Hlt. assert (PrimFloat.ltb x y = true) by (apply ltb_rank; tauto).
  congruence.
Qed.

Lemma leb_false_ltb (x y : float) :
  num x -> num y -> PrimFloat.leb x y = false -> PrimFloat.ltb y x = true.
Proof.
  intros Hx Hy H. apply ltb_rank. repeat split; try assumption.
  assert (Hd : lex_lt (rank (Prim2SF y)) (rank (Prim2SF x))
               \/ ~ lex_lt (rank (Prim2SF y)) (rank (Prim2SF x)))
    by (ranks; lia).
  destruct Hd as [Hd | Hd]; [exact Hd | exfalso].
  assert (PrimFloat.leb x y = true) by (apply leb_rank; tauto).
  congruence.
Qed.

Lemma ltb_leb_false (x y : float) :
  PrimFloat.ltb x y = true -> PrimFloat.leb y x = false.
Proof.
  intros H. apply ltb_rank in H. destruct H as (Hx & Hy & H).
  destruct (PrimFloat.leb y x) eqn:E; [| reflexivity].
  apply leb_rank in E. tauto.
Qed.

(** *** Products *)

Lemma mul_num (a b : float) : num (a * b)%float -> num a /\ num b.
Proof.
  unfold num, is_nan. rewrite mul_spec. unfold SF64mul.
  destruct (Prim2SF a), (Prim2SF b); cbn; intros H;
    split; solve [discriminate | exact H | exfalso; apply H; reflexivity].
Qed.

Lemma shr_1_nonneg (mrs : shr_record) :
  0 <= shr_m mrs -> 0 <= shr_m (shr_1 mrs).
Proof.
  destruct mrs as [m r s]. cbn [shr_m]. intros H.
  destruct m as [| [p | p |] | p]; cbn; lia.
Qed.

Lemma iter_shr_1_nonneg (p : positive) (mrs : shr_record) :
  0 <= shr_m mrs -> 0 <= shr_m (iter_pos shr_1 p mrs).
Proof.
  revert mrs. induction p as [p IH | p IH |]; intros mrs H; cbn.
  - apply IH, IH, shr_1_nonneg, H.
  - apply IH, IH, H.
  - apply shr_1_nonneg, H.
Qed.

Lemma shr_fexp_nonneg (m e : Z) (l : location) :
  0 <= m -> 0 <= shr_m (fst (shr_fexp prec emax m e l)).
Proof.
  intros H. unfold shr_fexp, shr.
  assert (H0 : 0 <= shr_m (shr_record_of_loc m l))
    by (destruct l as [| []]; exact H).
  destruct (fexp prec emax (Zdigits2 m + e) - e); cbn [fst];
    [exact H0 | apply iter_shr_1_nonneg, H0 | exact H0].
Qed.

(** Rounding a non-negative mantissa yields a zero, a finite number or an
    infinity of the requested sign, never NaN. *)
Lemma binary_round_aux_sign (s : bool) (m e : Z) (l : location) :
  0 <= m ->
  match binary_round_aux prec emax s m e l with
  | S754_zero s' | S754_infinity s' | S754_finite s' _ _ => s' = s
  | S754_nan => False
  end.
Proof.
  intros H. unfold binary_round_aux.
  pose proof (shr_fexp_nonneg m e l H) as H1.
  destruct (shr_fexp prec emax m e l) as [mrs' e'].
  cbn [fst] in H1.
  assert (H2 : 0 <= round_nearest_even (shr_m mrs') (loc_of_shr_record mrs')).
  { unfold round_nearest_even.
    destruct (loc_of_shr_record mrs') as [| []];
      [| destruct (Z.even (shr_m mrs')) |..]; lia. }
  pose proof (shr_fexp_nonneg _ e' loc_Exact H2) as H3.
  destruct (shr_fexp prec emax _ e' loc_Exact) as [mrs'' e''].
  cbn [fst] in H3.
  destruct (shr_m mrs'') as [| p | p]; [reflexivity | | lia].
  destruct (e'' <=? emax - prec); reflexivity.
Qed.

Lemma mul_pos (a b : float) :
  PrimFloat.ltb 0 a = true -> PrimFloat.ltb 0 b = true ->
  PrimFloat.ltb (-1) (a * b) = true.
Proof.
  rewrite !ltb_spec, mul_spec. unfold SF64mul.
  change (Prim2SF 0) with (S754_zero false).
  change (Prim2SF (-1)) with (S754_finite true 4503599627370496 (-52)).
  destruct (Prim2SF a) as [sa | [|] | | [|] ma ea]; try discriminate;
    destruct (Prim2SF b) as [sb | [|] | | [|] mb eb]; try discriminate;
    intros _ _; try reflexivity.
  cbn [SFmul xorb].
  pose proof (binary_round_aux_sign false (Zpos (ma * mb)) (ea + eb)
                loc_Exact ltac:(lia)) as Hs.
  destruct (binary_round_aux prec emax false (Zpos (ma * mb)) (ea + eb)
              loc_Exact); try contradiction; subst; reflexivity.
Qed.

End FloatOrder.

(** ** Grid planner *)

Lemma small_int_cases (z : Z) :
  0 <= z <= 30 -> In z (map Z.of_nat (seq 0 31)).
Proof.
  intros Hz. apply in_map_iff. exists (Z.to_nat z).
  split; [lia | apply in_seq; lia].
Qed.

Lemma float_of_int_small (z : Z) :
  0 <= z <= 30 -> float_of_int z = Ok (to_float z).
Proof.
  intros Hz. apply small_int_cases in Hz. cbn in Hz.
  repeat (destruct Hz as [<- | Hz]; [vm_compute; reflexivity |]).
  destruct Hz.
Qed.

Lemma to_float_nonzero (z : Z) :
  1 <= z <= 30 -> PrimFloat.eqb (to_float z) 0 = false.
Proof.
  intros Hz. assert (Hz' : 0 <= z <= 30) by lia.
  apply small_int_cases in Hz'. cbn in Hz'.
  destruct Hz' as [<- | Hz']; [lia |].
  repeat (destruct Hz' as [<- | Hz']; [vm_compute; reflexivity |]).
  destruct Hz'.
Qed.

Lemma for_each_pure {S A : Type} (body : S -> A -> result S)
    (step : S -> A -> S) (P : A -> Prop) (l : list A) (s : S) :
  (forall s x, P x -> body s x = Ok (step s x)) ->
  Forall P l ->
  for_each body l s = Ok (fold_left step l s).
Proof.
  intros Hbody Hl. revert s.
  induction Hl as [| x l Hx Hl IH]; intros s; cbn.
  - reflexivity.
  - rewrite (Hbody s x Hx). cbn. apply IH.
Qed.

Section GridPlanner.

Variable n : Z.
Variables page_w_pt page_h_pt margin_pt gap_pt : float.

Local Abbreviation cell_w := (cell_w n page_w_pt margin_pt gap_pt).
Local Abbreviation cell_h := (cell_h page_h_pt margin_pt gap_pt).
Local Abbreviation area := (area n page_w_pt page_h_pt margin_pt gap_pt).
Local Abbreviation candidate :=
  (candidate n page_w_pt page_h_pt margin_pt gap_pt).
Local Abbreviation search_step :=
  (search_step n page_w_pt page_h_pt margin_pt gap_pt).
Local Abbreviation searched :=
  (searched n page_w_pt page_h_pt margin_pt gap_pt).

Hypothesis n_range : 1 <= n < 2 ^ 1023.

Lemma grid_candidate_step (st : (Z * Z) * float) (rows : Z) :
  1 <= rows <= 15 ->
  grid_candidate n (usable page_w_pt margin_pt) (usable page_h_pt margin_pt)
    gap_pt st rows
  = Ok (search_step st rows).
Proof.
  intros Hrows. destruct st as [best best_area].
  unfold grid_candidate, search_step.
  assert (H53 : 2 ^ 53 = 9007199254740992) by reflexivity.
  destruct (Z_lt_ge_dec n (2 ^ 53)) as [Hsmall | Hlarge].
  - destruct (truediv_ceil_exact n rows) as (q & Hq & Hceil).
    { lia. }
    { assert (2 ^ 4 < 2 ^ 1075) by (apply Z.pow_lt_mono_r; lia).
      change (2 ^ 4) with 16 in *. lia. }
    rewrite Hq. cbn [bind snd]. rewrite Hceil.
    pose proof (ceil_div_pos n rows ltac:(lia) ltac:(lia)) as Hc.
    destruct (Z.gtb_spec (ceil_div n rows) 30) as [Hgt | Hle];
      [reflexivity |].
    rewrite !float_of_int_small by lia. cbn [bind].
    unfold fdiv. rewrite !to_float_nonzero by lia. cbn [bind].
    fold (cell_extent (usable page_w_pt margin_pt) gap_pt (ceil_div n rows)).
    fold (cell_extent (usable page_h_pt margin_pt) gap_pt rows).
    fold (cell_w rows). fold (cell_h rows). fold (area rows).
    destruct ((cell_w rows <=? 0)%float || (cell_h rows <=? 0)%float);
      [reflexivity |].
    destruct (best_area <? area rows)%float; reflexivity.
  - destruct (truediv_ceil_large n rows) as (q & Hq & Hceil); [lia | lia |].
    rewrite Hq. cbn [bind].
    assert (Hc : 30 < ceil_div n rows) by (apply ceil_div_gt; lia).
    destruct (Z.gtb_spec (ceil_div n rows) 30); [| lia].
    destruct (Z.gtb_spec (ceil q) 30); [| lia]. reflexivity.
Qed.

Lemma candidate_area (r : Z) :
  candidate r -> ((-1) <? area r)%float = true.
Proof. intros (_ & _ & Hw & Hh). apply mul_pos; assumption. Qed.

Lemma searched_skip (r : Z) (st : (Z * Z) * float) :
  searched r st -> ~ candidate r -> searched (r + 1) st.
Proof.
  intros [[Hst Hnone] | (rb & Hst & Hrb & Hcand & Hmax & Hfirst)] Hnot.
  - left. split; [exact Hst |]. intros r' Hr'.
    destruct (Z.eq_dec r' r) as [-> | Hne]; [exact Hnot | apply Hnone; lia].
  - right. exists rb.
    split; [exact Hst | split; [lia | split; [exact Hcand | split]]];
      [| exact Hfirst].
    intros r' Hc Hr'.
    destruct (Z.eq_dec r' r) as [-> | Hne]; [contradiction | apply Hmax];
      [assumption | lia].
Qed.

Lemma searched_step (r : Z) (st : (Z * Z) * float) :
  1 <= r <= Z.min 15 n -> searched r st -> searched (r + 1) (search_step st r).
Proof.
  intros Hr Hinv. unfold search_step.
  destruct (Z.gtb_spec (ceil_div n r) 30) as [Hgt | Hle].
  { apply searched_skip; [exact Hinv |]. intros (_ & Hc & _). lia. }
  destruct ((cell_w r <=? 0)%float || (cell_h r <=? 0)%float) eqn:Hguard.
  { apply searched_skip; [exact Hinv |]. intros (_ & _ & Hw & Hh).
    apply ltb_leb_false in Hw, Hh.
    rewrite Hw, Hh in Hguard. discriminate. }
  apply orb_false_iff in Hguard. destruct Hguard as [Hw Hh].
  destruct (snd st <? area r)%float eqn:Hbetter.
  - (* a strictly larger area: [r] becomes the best *)
    right. exists r.
    assert (Hcand : candidate r).
    { destruct (ltb_num _ _ Hbetter) as [_ Hnum].
      apply mul_num in Hnum. destruct Hnum as [Hnw Hnh].
      assert (Hz : num 0) by (intros E; discriminate E).
      split; [lia | split; [lia | split]];
        apply leb_false_ltb; assumption. }
    split; [reflexivity | split; [lia | split; [exact Hcand | split]]].
    + intros r' Hc Hr'.
      destruct (Z.eq_dec r' r) as [-> | Hne];
        [apply ltb_irrefl |].
      destruct Hinv as [[Hst Hnone] | (rb & Hst & Hrb & Hcb & Hmax & _)].
      * exfalso. apply (Hnone r'); [lia | exact Hc].
      * subst st. cbn [snd] in Hbetter.
        destruct (area r <? area r')%float eqn:E; [exfalso | reflexivity].
        pose proof (ltb_trans _ _ _ Hbetter E) as Ht.
        rewrite (Hmax r' Hc ltac:(lia)) in Ht. discriminate.
    + intros r' Hc Hr'.
      destruct Hinv as [[Hst Hnone] | (rb & Hst & Hrb & Hcb & Hmax & _)].
      * exfalso. apply (Hnone r'); [lia | exact Hc].
      * subst st. cbn [snd] in Hbetter.
        apply (leb_ltb_trans _ (area rb)); [| exact Hbetter].
        apply ltb_false_leb.
        -- apply (ltb_num _ _ Hbetter).
        -- apply (ltb_num _ _ (candidate_area r' Hc)).
        -- apply Hmax; [exact Hc | lia].
  - (* not larger: the state is kept *)
    destruct Hinv as [[Hst Hnone] | (rb & Hst & Hrb & Hcb & Hmax & Hfirst)].
    + left. split; [exact Hst |]. intros r' Hr'.
      destruct (Z.eq_dec r' r) as [-> | Hne]; [| apply Hnone; lia].
      intros Hc. apply candidate_area in Hc.
      subst st. cbn [snd] in Hbetter. congruence.
    + right. exists rb.
      split; [exact Hst | split; [lia | split; [exact Hcb | split]]];
        [| exact Hfirst].
      intros r' Hc Hr'.
      destruct (Z.eq_dec r' r) as [-> | Hne]; [| apply Hmax; [assumption | lia]].
      subst st. exact Hbetter.
Qed.

Lemma searched_loop (len a : nat) (st : (Z * Z) * float) :
  1 + Z.of_nat a + Z.of_nat len <= Z.min 15 n + 1 ->
  searched (1 + Z.of_nat a) st ->
  searched (1 + Z.of_nat a + Z.of_nat len)
    (fold_left search_step
       (map (fun i : nat => 1 + Z.of_nat i * 1) (seq a len)) st).
Proof.
  revert a st. induction len as [| len IH]; intros a st Hlen Hinv.
  - cbn [seq map fold_left].
    replace (1 + Z.of_nat a + Z.of_nat 0) with (1 + Z.of_nat a) by lia.
    exact Hinv.
  - cbn [seq map fold_left].
    replace (1 + Z.of_nat a + Z.of_nat (S len))
      with (1 + Z.of_nat (S a) + Z.of_nat len) by lia.
    apply IH; [lia |].
    replace (1 + Z.of_nat (S a)) with (1 + Z.of_nat a * 1 + 1) by lia.
    apply searched_step; [lia |].
    replace (1 + Z.of_nat a * 1) with (1 + Z.of_nat a) by lia.
    exact Hinv.
Qed.

Lemma choose_grid_auto_searched :
  exists st,
    choose_grid_auto n page_w_pt page_h_pt margin_pt gap_pt = Ok (fst st)
    /\ searched (Z.min 15 n + 1) st.
Proof.
  set (R := Z.min 15 n).
  set (l := map (fun i : nat => 1 + Z.of_nat i * 1) (seq 0 (Z.to_nat R))).
  exists (fold_left search_step l ((1, n), (-1)%float)).
  split.
  - unfold choose_grid_auto, range.
    change (1 =? 0) with false. cbv iota.
    assert (Hlen : range_length 1 (Z.min 15 n + 1) 1 = R).
    { unfold range_length. change (0 <? 1) with true. cbv iota.
      destruct (Z.ltb_spec 1 (Z.min 15 n + 1)); [| lia].
      rewrite Z.div_1_r. lia. }
    rewrite Hlen. fold l. cbn [bind].
    fold (usable page_w_pt margin_pt). fold (usable page_h_pt margin_pt).
    rewrite (for_each_pure _ search_step (fun r => 1 <= r <= 15)).
    + reflexivity.
    + intros s x Hx. apply grid_candidate_step. exact Hx.
    + apply Forall_forall. intros x Hx. unfold l in Hx.
      apply in_map_iff in Hx. destruct Hx as (i & <- & Hi).
      apply in_seq in Hi. lia.
  - pose proof (searched_loop (Z.to_nat R) 0 ((1, n), (-1)%float)) as H.
    cbn [Z.of_nat] in H. replace (1 + 0 + Z.of_nat (Z.to_nat R)) with (R + 1) in H by lia.
    apply H; [lia |].
    left. split; [reflexivity |]. intros r' Hr' (Hc & _). lia.
Qed.

End GridPlanner.

(** C3, amended.  When at least one [rows] in [[1, min(15, n)]] with
    [cols = ceil(n / rows) <= 30] yields a cell of positive width and height,
    [choose_grid_auto] returns such a pair; the areas compared are the
    binary64 products the code computes: no candidate has a strictly larger
    computed area, and every candidate with fewer rows has a strictly
    smaller one (equal computed areas go to the first found). *)
Theorem choose_grid_auto_maximal
    (n : Z) (page_w_pt page_h_pt margin_pt gap_pt : float) :
  1 <= n ->
  (exists r0, candidate n page_w_pt page_h_pt margin_pt gap_pt r0) ->
  exists rows cols,
    choose_grid_auto n page_w_pt page_h_pt margin_pt gap_pt = Ok (rows, cols)
    /\ cols = ceil_div n rows
    /\ candidate n page_w_pt page_h_pt margin_pt gap_pt rows
    /\ (forall r', candidate n page_w_pt page_h_pt margin_pt gap_pt r' ->
          (area n page_w_pt page_h_pt margin_pt gap_pt rows
           <? area n page_w_pt page_h_pt margin_pt gap_pt r')%float = false)
    /\ (forall r', candidate n page_w_pt page_h_pt margin_pt gap_pt r' ->
          r' < rows ->
          (area n page_w_pt page_h_pt margin_pt gap_pt r'
           <? area n page_w_pt page_h_pt margin_pt gap_pt rows)%float = true).
Proof.
  intros Hn (r0 & Hr0).
  assert (Hrange : 1 <= n < 2 ^ 1023).
  { split; [exact Hn |]. destruct Hr0 as (Hr & Hc & _).
    pose proof (ceil_div_spec n r0 ltac:(lia)).
    assert (2 ^ 9 < 2 ^ 1023) by (apply Z.pow_lt_mono_r; lia).
    change (2 ^ 9) with 512 in *. nia. }
  destruct (choose_grid_auto_searched n page_w_pt page_h_pt margin_pt gap_pt
              Hrange) as (st & Hrun & Hinv).
  destruct Hinv as [[_ Hnone] | (rb & -> & Hrb & Hcb & Hmax & Hfirst)].
  - exfalso. apply (Hnone r0); [| exact Hr0]. destruct Hr0 as (Hr & _). lia.
  - exists rb, (ceil_div n rb). cbn [fst] in Hrun.
    split; [exact Hrun | split; [reflexivity | split; [exact Hcb | split]]];
      [| exact Hfirst].
    intros r' Hc. apply Hmax; [exact Hc |]. destruct Hc as (Hr & _). lia.
Qed.

(** C3, as stated, fails.  Seven pictures on the A4 page of [main] with
    the default margin of 10 mm and [--gap-mm 0]: one row of seven and seven
    rows of one have the same exact cell area, yet the code returns
    [(7, 1)], because the two rounded products differ in their last bit. *)
Lemma choose_grid_auto_exact_tie :
  choose_grid_auto 7 (fst A4) (snd A4) (10 * mm) (0 * mm) = Ok (7, 1)
  /\ candidate 7 (fst A4) (snd A4) (10 * mm) (0 * mm) 1
  /\ (exact_area 7 (fst A4) (snd A4) (10 * mm) (0 * mm) 1
      == exact_area 7 (fst A4) (snd A4) (10 * mm) (0 * mm) 7)%Q
  /\ (area 7 (fst A4) (snd A4) (10 * mm) (0 * mm) 1
      <? area 7 (fst A4) (snd A4) (10 * mm) (0 * mm) 7)%float = true
  /\ ~ exact_first_maximum 7 (fst A4) (snd A4) (10 * mm) (0 * mm).
Proof.
  assert (Hcode : choose_grid_auto 7 (fst A4) (snd A4) (10 * mm) (0 * mm)
                  = Ok (7, 1)) by (vm_compute; reflexivity).
  assert (Hcand : candidate 7 (fst A4) (snd A4) (10 * mm) (0 * mm) 1).
  { unfold candidate.
    split; [vm_compute; split; discriminate |].
    split; [vm_compute; discriminate |].
    split; vm_compute; reflexivity. }
  assert (Htie : (exact_area 7 (fst A4) (snd A4) (10 * mm) (0 * mm) 1
                  == exact_area 7 (fst A4) (snd A4) (10 * mm) (0 * mm) 7)%Q)
    by (vm_compute; reflexivity).
  split; [exact Hcode |]. split; [exact Hcand |]. split; [exact Htie |].
  split; [vm_compute; reflexivity |].
  intros (rows & cols & Hrun & _ & _ & _ & Hfirst).
  rewrite Hcode in Hrun. injection Hrun as <- <-.
  specialize (Hfirst 1 Hcand Htie). lia.
Qed.

(** C4. When no [rows] in [[1, min(15, n)]] with at most 30 columns yields a
    cell of positive width and height, [choose_grid_auto] raises nothing and
    returns the fallback [(1, n)] as it is: for [n <= 30] the fallback is
    itself one of the rejected pairs.  [n] is the length of the image list. *)
Theorem choose_grid_auto_fallback
    (n : Z) (page_w_pt page_h_pt margin_pt gap_pt : float) :
  1 <= n <= maxsize ->
  (forall r, ~ candidate n page_w_pt page_h_pt margin_pt gap_pt r) ->
  choose_grid_auto n page_w_pt page_h_pt margin_pt gap_pt = Ok (1, n).
Proof.
  intros Hn Hnone.
  assert (Hrange : 1 <= n < 2 ^ 1023).
  { assert (2 ^ 63 < 2 ^ 1023) by (apply Z.pow_lt_mono_r; lia).
    unfold maxsize in Hn. lia. }
  destruct (choose_grid_auto_searched n page_w_pt page_h_pt margin_pt gap_pt
              Hrange) as (st & Hrun & Hinv).
  destruct Hinv as [[-> _] | (rb & _ & _ & Hcb & _)].
  - exact Hrun.
  - exfalso. exact (Hnone rb Hcb).
Qed.

(** ** Rounding to binary64 *)

Section Rounding.

(** *** Bit length *)

Lemma digits2_pos_bounds (p : positive) :
2 ^ (Zpos (digits2_pos p) - 1) <= Zpos p < 2 ^ Zpos (digits2_pos p).
Proof.
induction p as [p IH | p IH |]; cbn [digits2_pos].
- rewrite Pos2Z.inj_succ.
  replace (Z.succ (Zpos (digits2_pos p)) - 1)
    with (Z.succ (Zpos (digits2_pos p) - 1)) by lia.
  rewrite !Z.pow_succ_r by lia. lia.
- rewrite Pos2Z.inj_succ.
  replace (Z.succ (Zpos (digits2_pos p)) - 1)
    with (Z.succ (Zpos (digits2_pos p) - 1)) by lia.
  rewrite !Z.pow_succ_r by lia. lia.
- cbn. lia.
Qed.

(** *** Shifting with round and sticky bits *)

Lemma shr_1_spec (m : Z) (r s : bool) :
0 <= m ->
shr_1 {| shr_m := m; shr_r := r; shr_s := s |}
= {| shr_m := m / 2; shr_r := Z.odd m; shr_s := r || s |}.
Proof.
intros Hm. rewrite <- Z.div2_div.
destruct m as [| [p | p |] | p]; try lia; reflexivity.
Qed.

Lemma iter_pos_iter {A : Type} (f : A -> A) (p : positive) (x : A) :
iter_pos f p x = Pos.iter f x p.
Proof.
revert x. induction p as [p IH | p IH |]; intros x; cbn.
- rewrite !IH, !Pos.iter_swap. reflexivity.
- rewrite !IH. reflexivity.
- reflexivity.
Qed.

(** After [k >= 1] shifts of an exact record the mantissa is the quotient
  by [2 ^ k], the round bit is the last bit dropped and the sticky bit
  tells whether anything below it was set. *)
Lemma iter_shr_1_spec (m : Z) (k : positive) :
0 <= m ->
iter_pos shr_1 k {| shr_m := m; shr_r := false; shr_s := false |}
= {| shr_m := m / 2 ^ Zpos k;
     shr_r := Z.odd (m / 2 ^ (Zpos k - 1));
     shr_s := negb (m mod 2 ^ (Zpos k - 1) =? 0) |}.
Proof.
intros Hm. rewrite iter_pos_iter.
induction k as [| k IH] using Pos.peano_ind.
- cbn [Pos.iter]. rewrite shr_1_spec by exact Hm.
  change (2 ^ (1 - 1)) with 1. rewrite Z.div_1_r, Z.mod_1_r.
  reflexivity.
- rewrite Pos.iter_succ, IH.
  assert (Hq : 0 <= m / 2 ^ Zpos k)
    by (apply Z.div_pos; [lia | apply Z.pow_pos_nonneg; lia]).
  rewrite shr_1_spec by exact Hq.
  rewrite Pos2Z.inj_succ.
  replace (Z.succ (Zpos k) - 1) with (Zpos k) by lia.
  assert (Hp : 0 < 2 ^ (Zpos k - 1)) by (apply Z.pow_pos_nonneg; lia).
  assert (Hpk : 2 ^ Zpos k = 2 ^ (Zpos k - 1) * 2).
  { replace (Zpos k) with (Z.succ (Zpos k - 1)) at 1 by lia.
    rewrite Z.pow_succ_r by lia. lia. }
  f_equal.
  + rewrite Z.pow_succ_r by lia. rewrite Z.mul_comm.
    rewrite Z.div_div by lia. reflexivity. 
  + (* sticky: something below bit [k] is set *)
    rewrite Hpk at 1.
    rewrite Z.rem_mul_r by lia.
    set (h := m / 2 ^ (Zpos k - 1)).
    set (l := m mod 2 ^ (Zpos k - 1)).
    pose proof (Z.mod_pos_bound m (2 ^ (Zpos k - 1)) Hp) as Hl. fold l in Hl.
    rewrite Zodd_mod.
    pose proof (Z.mod_pos_bound h 2 ltac:(lia)) as Hh.
    destruct (Z.eqb_spec (h mod 2) 1) as [E1 | E1];
      destruct (Z.eqb_spec l 0) as [E2 | E2];
      destruct (Z.eqb_spec (l + 2 ^ (Zpos k - 1) * (h mod 2)) 0) as [E3 | E3];
      cbn; try reflexivity; exfalso; nia.
Qed.

Lemma round_shifted (m : Z) (k : positive) :
0 <= m ->
let mrs :=
  iter_pos shr_1 k {| shr_m := m; shr_r := false; shr_s := false |} in
round_nearest_even (shr_m mrs) (loc_of_shr_record mrs)
= round_half_even m (2 ^ Zpos k).
Proof.
intros Hm. cbv zeta. rewrite iter_shr_1_spec by exact Hm.
cbn [shr_m loc_of_shr_record].
assert (Hp : 0 < 2 ^ (Zpos k - 1)) by (apply Z.pow_pos_nonneg; lia).
assert (Hpk : 2 ^ Zpos k = 2 ^ (Zpos k - 1) * 2).
{ replace (Zpos k) with (Z.succ (Zpos k - 1)) at 1 by lia.
  rewrite Z.pow_succ_r by lia. lia. }
unfold round_half_even. rewrite Hpk.
rewrite Z.rem_mul_r by lia. rewrite <- Z.div_div by lia.
set (h := m / 2 ^ (Zpos k - 1)).
set (l := m mod 2 ^ (Zpos k - 1)).
pose proof (Z.mod_pos_bound m (2 ^ (Zpos k - 1)) Hp) as Hl. fold l in Hl.
rewrite Zodd_mod.
pose proof (Z.mod_pos_bound h 2 ltac:(lia)) as Hh.
destruct (Z.eqb_spec (h mod 2) 1) as [E1 | E1];
  destruct (Z.eqb_spec l 0) as [E2 | E2]; cbn [negb];
  destruct (Z.compare_spec (2 * (l + 2 ^ (Zpos k - 1) * (h mod 2)))
              (2 ^ (Zpos k - 1) * 2)) as [E3 | E3 | E3];
  cbn [round_nearest_even]; try reflexivity; exfalso; nia.
Qed.

(** *** The rounding step of every arithmetic operation *)

Lemma fexp_fexp64 (k : Z) : fexp prec emax k = fexp64 k.
Proof. reflexivity. Qed.

(** [binary_round_aux] on an exact positive mantissa [m] whose exponent [e]
  is not above the target exponent: the mantissa becomes the nearest
  multiple of the target unit, ties to even, and is renormalised when the
  rounding carries into a 54th bit. *)
Lemma binary_round_aux_exact (s : bool) (m : positive) (e : Z) :
let E := fexp64 (Zpos (digits2_pos m) + e) in
let a := round_half_even (Zpos m) (2 ^ (E - e)) in
e <= E ->
0 <= a <= 2 ^ 53
/\ binary_round_aux prec emax s (Zpos m) e loc_Exact
   = if a =? 2 ^ 53 then pack s (2 ^ 52) (E + 1) else pack s a E.
Proof.
intros E a HeE.
pose proof (digits2_pos_bounds m) as Hd.
assert (HE : E = fexp64 (Zpos (digits2_pos m) + e)) by reflexivity.
assert (Ha : a = round_half_even (Zpos m) (2 ^ (E - e))) by reflexivity.
clearbody a E.
set (d := Zpos (digits2_pos m)) in *.
assert (Hsh : d - 53 <= E - e) by (unfold fexp64 in HE; lia).
assert (Hmin : -1074 <= E) by (unfold fexp64 in HE; lia).
assert (Hpow : 0 < 2 ^ (E - e)) by (apply Z.pow_pos_nonneg; lia).
assert (Hrange : 0 <= a <= 2 ^ 53).
{ rewrite Ha. split.
  - apply round_half_even_ge; lia.
  - apply round_half_even_le; [lia |].
    rewrite <- Z.pow_add_r by lia.
    assert (2 ^ d <= 2 ^ (53 + (E - e))) by (apply Z.pow_le_mono_r; lia).
    lia. }
split; [exact Hrange |].
unfold binary_round_aux.
(* first pass: shift down to the target exponent *)
assert (H1 : exists mrs,
           shr_fexp prec emax (Zpos m) e loc_Exact = (mrs, E)
           /\ round_nearest_even (shr_m mrs) (loc_of_shr_record mrs) = a).
{ unfold shr_fexp, shr. cbn [Zdigits2]. rewrite fexp_fexp64. fold d.
  rewrite <- HE. cbn [shr_record_of_loc]. rewrite Ha.
  destruct (E - e) as [| k | k] eqn:Hk; [| | lia].
  - eexists. split; [f_equal; lia |]. cbn.
    symmetry.
    apply Z.le_antisymm;
      [apply round_half_even_le | apply round_half_even_ge]; lia.
  - eexists. split; [f_equal; lia |].
    apply (round_shifted (Zpos m) k). lia. }
destruct H1 as (mrs & -> & ->).
(* second pass: at most one more bit *)
unfold shr_fexp, shr. rewrite fexp_fexp64.
destruct (Z.eqb_spec a (2 ^ 53)) as [Hcarry | Hno].
- rewrite Hcarry. change (Zdigits2 (2 ^ 53)) with 54.
  replace (fexp64 (54 + E) - E) with 1 by (unfold fexp64; lia).
  reflexivity.
- assert (Hn : fexp64 (Zdigits2 a + E) - E <= 0).
  { destruct a as [| p | p]; cbn [Zdigits2]; [unfold fexp64; lia | | lia].
    pose proof (digits2_pos_bounds p) as Hdp.
    assert (Zpos (digits2_pos p) - 1 < 53).
    { apply (Z.pow_lt_mono_r_iff 2); lia. }
    unfold fexp64. lia. }
  destruct (fexp64 (Zdigits2 a + E) - E) as [| k | k] eqn:Hk; [| lia |];
    cbn [shr_record_of_loc shr_m]; reflexivity.
Qed.

(** *** Rounding is monotone *)

Lemma round_half_even_tie (a b k : Z) :
0 < b -> 2 * a = 2 * b * k + b -> Z.even (round_half_even a b) = true.
Proof.
intros Hb Ht. unfold round_half_even.
pose proof (Z.div_mod a b ltac:(lia)) as E.
pose proof (Z.mod_pos_bound a b Hb) as B.
assert (Hk : k = a / b)
  by (destruct (Z.lt_trichotomy k (a / b)) as [Hk | [Hk | Hk]]; nia).
destruct (Z.compare_spec (2 * (a mod b)) b) as [H | H | H];
  [| exfalso; nia | exfalso; nia].
destruct (Z.even (a / b)) eqn:Hev; [exact Hev |].
rewrite Z.even_add, Hev. reflexivity.
Qed.

Lemma round_half_even_mono (a b c d : Z) :
0 < b -> 0 < d -> a * d <= c * b ->
round_half_even a b <= round_half_even c d.
Proof.
intros Hb Hd Hle.
pose proof (round_half_even_near a b Hb) as Ha.
pose proof (round_half_even_near c d Hd) as Hc.
set (x := round_half_even a b) in *. set (y := round_half_even c d) in *.
destruct (Z_le_gt_dec x y) as [Hxy | Hxy]; [exact Hxy | exfalso].
assert (H1 : (2 * b * x - b) * d <= 2 * a * d)
  by (apply Z.mul_le_mono_nonneg_r; lia).
assert (H2 : 2 * c * b <= (2 * d * y + d) * b)
  by (apply Z.mul_le_mono_nonneg_r; lia).
assert (H3 : 2 * a * d <= 2 * c * b) by lia.
assert (Hbd : 0 < b * d) by nia.
assert (Hx : x = y + 1).
{ assert (b * d * (2 * x - 1) <= b * d * (2 * y + 1)) by lia.
  assert (2 * x - 1 <= 2 * y + 1)
    by (apply (Z.mul_le_mono_pos_l _ _ (b * d)); assumption).
  lia. }
subst x.
assert (Hta : 2 * a = 2 * b * y + b).
{ apply (Z.mul_cancel_r _ _ d); lia. }
assert (Htc : 2 * c = 2 * d * y + d).
{ apply (Z.mul_cancel_r _ _ b); lia. }
pose proof (round_half_even_tie a b y Hb Hta) as Hex.
pose proof (round_half_even_tie c d y Hd Htc) as Hey.
fold y in Hey. rewrite Hx, Z.even_add, Hey in Hex. discriminate.
Qed.

Lemma pow2_split (a b : Z) : 0 <= a -> 0 <= b -> 2 ^ (a + b) = 2 ^ a * 2 ^ b.
Proof. intros. apply Z.pow_add_r; assumption. Qed.

(** Two exact positive inputs of the rounding step, the first not larger
  than the second, both measured in units of [2 ^ B]: the rounded values
  are in the same order. *)
Lemma rounded_mono (m1 m2 : positive) (e1 e2 B : Z) :
B <= e1 -> B <= e2 ->
e1 <= target_exp m1 e1 -> e2 <= target_exp m2 e2 ->
Zpos m1 * 2 ^ (e1 - B) <= Zpos m2 * 2 ^ (e2 - B) ->
rounded_mant m1 e1 * 2 ^ (target_exp m1 e1 - B)
<= rounded_mant m2 e2 * 2 ^ (target_exp m2 e2 - B).
Proof.
intros base1 base2 shift1 shift2 ordered.
unfold rounded_mant, target_exp in *.
set (E1 := fexp64 (Zpos (digits2_pos m1) + e1)) in *.
set (E2 := fexp64 (Zpos (digits2_pos m2) + e2)) in *.
set (a1 := round_half_even (Zpos m1) (2 ^ (E1 - e1))).
set (a2 := round_half_even (Zpos m2) (2 ^ (E2 - e2))).

pose proof (digits2_pos_bounds m1) as Hd1.
pose proof (digits2_pos_bounds m2) as Hd2.
destruct (binary_round_aux_exact false m1 e1 shift1) as [Hr1 _].
destruct (binary_round_aux_exact false m2 e2 shift2) as [Hr2 _].
fold E1 a1 in Hr1. fold E2 a2 in Hr2.
assert (HE1 : E1 = fexp64 (Zpos (digits2_pos m1) + e1)) by reflexivity.
assert (HE2 : E2 = fexp64 (Zpos (digits2_pos m2) + e2)) by reflexivity.
assert (Ha1 : a1 = round_half_even (Zpos m1) (2 ^ (E1 - e1))) by reflexivity.
assert (Ha2 : a2 = round_half_even (Zpos m2) (2 ^ (E2 - e2))) by reflexivity.
clearbody a1 a2 E1 E2.
set (d1 := Zpos (digits2_pos m1)) in *.
set (d2 := Zpos (digits2_pos m2)) in *.
assert (Hd1pos : 1 <= d1) by (unfold d1; lia).
assert (Hd2pos : 1 <= d2) by (unfold d2; lia).
unfold fexp64 in HE1, HE2.
assert (P1 : 0 < 2 ^ (e1 - B)) by (apply Z.pow_pos_nonneg; lia).
assert (P2 : 0 < 2 ^ (e2 - B)) by (apply Z.pow_pos_nonneg; lia).
destruct (Z.lt_trichotomy E1 E2) as [Hlt | [Heq | Hgt]].
- (* a lower binade: the first result cannot pass the bottom of the
     second one *)
  assert (Hs2 : E2 - e2 = d2 - 53) by lia.
  assert (Hbig : 2 ^ 52 <= a2).
  { rewrite Ha2. apply round_half_even_ge; [apply Z.pow_pos_nonneg; lia |].
    rewrite Hs2, <- pow2_split by lia.
    replace (52 + (d2 - 53)) with (d2 - 1) by lia. lia. }
  assert (Hstep : 2 ^ 53 * 2 ^ (E1 - B) <= 2 ^ 52 * 2 ^ (E2 - B)).
  { rewrite <- !pow2_split by lia. apply Z.pow_le_mono_r; lia. }
  assert (0 < 2 ^ (E1 - B)) by (apply Z.pow_pos_nonneg; lia).
  assert (0 < 2 ^ (E2 - B)) by (apply Z.pow_pos_nonneg; lia).
  nia.
- (* the same binade: both are rounded on the same grid *)
  rewrite <- Heq in *. clear Heq.
  assert (Hmono : a1 <= a2).
  { rewrite Ha1, Ha2.
    apply round_half_even_mono; try (apply Z.pow_pos_nonneg; lia).
    assert (Q1 : 2 ^ (E1 - B) = 2 ^ (E1 - e1) * 2 ^ (e1 - B))
      by (rewrite <- pow2_split by lia; f_equal; lia).
    assert (Q2 : 2 ^ (E1 - B) = 2 ^ (E1 - e2) * 2 ^ (e2 - B))
      by (rewrite <- pow2_split by lia; f_equal; lia).
    assert (0 < 2 ^ (E1 - e1)) by (apply Z.pow_pos_nonneg; lia).
    assert (0 < 2 ^ (E1 - e2)) by (apply Z.pow_pos_nonneg; lia).
    assert (0 < 2 ^ (E1 - B)) by (apply Z.pow_pos_nonneg; lia).
    (* multiply the order of the inputs by both shifts *)
    apply (Zmult_lt_0_le_reg_r _ _ (2 ^ (e1 - B) * 2 ^ (e2 - B)));
      [nia |].
    replace (Zpos m1 * 2 ^ (E1 - e2) * (2 ^ (e1 - B) * 2 ^ (e2 - B)))
      with (Zpos m1 * 2 ^ (e1 - B) * 2 ^ (E1 - B)) by (rewrite Q2 at 1; ring).
    replace (Zpos m2 * 2 ^ (E1 - e1) * (2 ^ (e1 - B) * 2 ^ (e2 - B)))
      with (Zpos m2 * 2 ^ (e2 - B) * 2 ^ (E1 - B)) by (rewrite Q1 at 1; ring).
    apply Z.mul_le_mono_nonneg_r; lia. }
  assert (0 < 2 ^ (E1 - B)) by (apply Z.pow_pos_nonneg; lia).
  nia.
- (* a higher binade contradicts the order of the inputs *)
  exfalso.
  assert (Hmag : d2 + e2 <= d1 + e1 - 1) by lia.
  assert (L1 : 2 ^ (d1 - 1) * 2 ^ (e1 - B) <= Zpos m1 * 2 ^ (e1 - B)) by nia.
  assert (U2 : Zpos m2 * 2 ^ (e2 - B) < 2 ^ d2 * 2 ^ (e2 - B)) by nia.
  rewrite <- pow2_split in L1, U2 by lia.
  assert (2 ^ (d2 + (e2 - B)) <= 2 ^ (d1 - 1 + (e1 - B)))
    by (apply Z.pow_le_mono_r; lia).
  lia.
Qed.

(** *** Truncation *)

Lemma trunc_pack (m e v : Z) :
0 <= m -> trunc (pack false m e) = Ok v -> v = floor_dy m e.
Proof.
intros Hm. unfold pack, floor_dy.
destruct m as [| p | p]; [| | lia].
- cbn. intros H. inversion H. destruct (0 <=? e); reflexivity.
- destruct (e <=? emax - prec); cbn; intros H; [| discriminate].
  inversion H. reflexivity.
Qed.

Lemma floor_dy_scaled (m e B : Z) :
B <= 0 -> B <= e ->
floor_dy m e = (m * 2 ^ (e - B)) / 2 ^ (- B).
Proof.
intros HB He. unfold floor_dy.
assert (0 < 2 ^ (- B)) by (apply Z.pow_pos_nonneg; lia).
destruct (Z.leb_spec 0 e) as [Hpos | Hneg].
- replace (e - B) with (e + - B) by lia.
  rewrite pow2_split by lia. rewrite Z.mul_assoc.
  rewrite Z.div_mul by lia. reflexivity.
- replace (- B) with (- e + (e - B)) by lia.
  rewrite pow2_split by lia.
  assert (0 < 2 ^ (e - B)) by (apply Z.pow_pos_nonneg; lia).
  assert (0 < 2 ^ (- e)) by (apply Z.pow_pos_nonneg; lia).
  rewrite Z.div_mul_cancel_r by lia. reflexivity.
Qed.

Lemma digits2_pos_unique (m : positive) (k : Z) :
2 ^ (k - 1) <= Zpos m < 2 ^ k -> Zpos (digits2_pos m) = k.
Proof.
intros Hk. pose proof (digits2_pos_bounds m) as Hd.
set (d := Zpos (digits2_pos m)) in *.
assert (Hd1 : 1 <= d) by (unfold d; lia).
destruct (Z.lt_trichotomy d k) as [Hlt | [Heq | Hgt]]; [exfalso | exact Heq | exfalso].
- assert (2 ^ d <= 2 ^ (k - 1)) by (apply Z.pow_le_mono_r; lia). lia.
- destruct (Z_le_gt_dec 0 k) as [Hk0 | Hk0].
  + assert (2 ^ k <= 2 ^ (d - 1)) by (apply Z.pow_le_mono_r; lia). lia.
  + rewrite (Z.pow_neg_r 2 k) in Hk by lia. lia.
Qed.

(** The product of a normal number by a positive number, truncated: a
  larger first factor never gives a smaller integer. *)
Lemma mul_trunc_mono (mx my ms : positive) (ex ey es B a b : Z) :
2 ^ 52 <= Zpos mx -> 2 ^ 52 <= Zpos my ->
B <= ex -> B <= ey -> B + es <= 0 ->
Zpos mx * 2 ^ (ex - B) <= Zpos my * 2 ^ (ey - B) ->
trunc (SFmul prec emax (S754_finite false mx ex) (S754_finite false ms es))
= Ok a ->
trunc (SFmul prec emax (S754_finite false my ey) (S754_finite false ms es))
= Ok b ->
a <= b.
Proof.
intros Hmx Hmy Bx By Bs Hord. cbn [SFmul xorb].
assert (Hshift : forall m : positive, forall e,
           2 ^ 52 <= Zpos m ->
           e + es <= fexp64 (Zpos (digits2_pos (m * ms)) + (e + es))).
{ intros m e Hm. pose proof (digits2_pos_bounds (m * ms)) as Hd.
  assert (52 < Zpos (digits2_pos (m * ms))).
  { apply (Z.pow_lt_mono_r_iff 2); [lia | lia |].
    rewrite Pos2Z.inj_mul in Hd. nia. }
  unfold fexp64. lia. }
pose proof (Hshift mx ex Hmx) as S1. pose proof (Hshift my ey Hmy) as S2.
destruct (binary_round_aux_exact false (mx * ms) (ex + es) S1) as [R1 ->].
destruct (binary_round_aux_exact false (my * ms) (ey + es) S2) as [R2 ->].
assert (Hord' : Zpos (mx * ms) * 2 ^ (ex + es - (B + es))
                <= Zpos (my * ms) * 2 ^ (ey + es - (B + es))).
{ replace (ex + es - (B + es)) with (ex - B) by lia.
  replace (ey + es - (B + es)) with (ey - B) by lia.
  rewrite !Pos2Z.inj_mul. nia. }
pose proof (rounded_mono (mx * ms) (my * ms) (ex + es) (ey + es) (B + es)
              ltac:(lia) ltac:(lia) S1 S2 Hord') as Hmono.
unfold rounded_mant, target_exp in Hmono.
cbv zeta in R1, R2.
set (E1 := fexp64 (Zpos (digits2_pos (mx * ms)) + (ex + es))) in *.
set (E2 := fexp64 (Zpos (digits2_pos (my * ms)) + (ey + es))) in *.
set (a1 := round_half_even (Zpos (mx * ms)) (2 ^ (E1 - (ex + es)))) in *.
set (a2 := round_half_even (Zpos (my * ms)) (2 ^ (E2 - (ey + es)))) in *.
clearbody a1 a2 E1 E2.
assert (Hout : forall a0 E v, 0 <= a0 -> B + es <= E ->
           trunc (if a0 =? 2 ^ 53 then pack false (2 ^ 52) (E + 1)
                  else pack false a0 E) = Ok v ->
           v = (a0 * 2 ^ (E - (B + es))) / 2 ^ (- (B + es))).
{ intros a0 E v Ha0 HE Hv.
  destruct (Z.eqb_spec a0 (2 ^ 53)) as [-> | _].
  - apply trunc_pack in Hv; [| lia]. subst v.
    rewrite (floor_dy_scaled _ _ (B + es)) by lia.
    f_equal. replace (E + 1 - (B + es)) with (1 + (E - (B + es))) by lia.
    rewrite pow2_split by lia. change (2 ^ 53) with (2 ^ 52 * 2 ^ 1). ring.
  - apply trunc_pack in Hv; [| lia]. subst v.
    apply floor_dy_scaled; lia. }
intros Ha Hb.
apply Hout in Ha; [| lia | lia]. apply Hout in Hb; [| lia | lia].
subst a b. apply Z.div_le_mono; [apply Z.pow_pos_nonneg; lia | exact Hmono].
Qed.

End Rounding.

(** ** Thumbnail size *)

Section Thumbnail.

Lemma iter_xO_pow (p k : positive) :
Zpos (Pos.iter xO p k) = Zpos p * 2 ^ Zpos k.
Proof.
induction k as [| k IH] using Pos.peano_ind.
- cbn. lia.
- rewrite Pos.iter_succ, Pos2Z.inj_succ, Z.pow_succ_r by lia.
  rewrite Pos2Z.inj_xO, IH. ring.
Qed.

(** A positive integer below [2 ^ 53] converts exactly, to a normal number. *)
Lemma nearest_exact (z : Z) :
0 < z < 2 ^ 53 ->
exists m e,
  nearest z = S754_finite false m e
  /\ -52 <= e <= 0
  /\ Zpos m = z * 2 ^ (- e)
  /\ 2 ^ 52 <= Zpos m < 2 ^ 53.
Proof.
intros Hz. destruct z as [| p | p]; try lia.
pose proof (digits2_pos_bounds p) as Hd.
set (d := Zpos (digits2_pos p)) in *.
assert (Hd1 : 1 <= d <= 53).
{ split; [unfold d; lia |].
  assert (d - 1 < 53) by (apply (Z.pow_lt_mono_r_iff 2); lia). lia. }
unfold nearest, binary_normalize, binary_round.
rewrite fexp_fexp64. fold d.
assert (Hf : fexp64 (d + 0) = d - 53)
  by (unfold fexp64; lia).
rewrite Hf. unfold shl_align.
assert (Hfinal : forall m : positive, forall e,
           -52 <= e <= 0 -> 2 ^ 52 <= Zpos m < 2 ^ 53 ->
           binary_round_aux prec emax false (Zpos m) e loc_Exact
           = S754_finite false m e).
{ intros m e He Hm.
  pose proof (digits2_pos_unique m 53 Hm) as Hdm.
  assert (HE : fexp64 (Zpos (digits2_pos m) + e) = e)
    by (rewrite Hdm; unfold fexp64; lia).
  destruct (binary_round_aux_exact false m e) as [_ ->];
    [rewrite HE; lia |].
  rewrite HE, Z.sub_diag. change (2 ^ 0) with 1.
  assert (Hr : round_half_even (Zpos m) 1 = Zpos m).
  { apply Z.le_antisymm;
      [apply round_half_even_le | apply round_half_even_ge]; lia. }
  rewrite Hr. destruct (Z.eqb_spec (Zpos m) (2 ^ 53)); [lia |].
  unfold pack.
  destruct (Z.leb_spec e (emax - prec)) as [_ | Hbad]; [reflexivity |].
  unfold emax, prec in Hbad. lia. }
destruct (d - 53 - 0) as [| k | k] eqn:Hk; [| lia |].
- exists p, 0. rewrite Hfinal by (replace d with 53 in Hd by lia; lia).
  replace d with 53 in Hd by lia.
  repeat split; try lia. 
- assert (Hmz : Zpos (Pos.iter xO p k) = Zpos p * 2 ^ (53 - d))
    by (rewrite iter_xO_pow; f_equal; f_equal; lia).
  assert (Hpw : 2 ^ 52 = 2 ^ (d - 1) * 2 ^ (53 - d))
    by (rewrite <- pow2_split by lia; f_equal; lia).
  assert (Hpw' : 2 ^ 53 = 2 ^ d * 2 ^ (53 - d))
    by (rewrite <- pow2_split by lia; f_equal; lia).
  assert (0 < 2 ^ (53 - d)) by (apply Z.pow_pos_nonneg; lia).
  exists (Pos.iter xO p k), (d - 53).
  rewrite Hfinal by (try rewrite Hmz; nia).
  split; [reflexivity |]. split; [lia |].
  split; [rewrite Hmz; f_equal; f_equal; lia | rewrite Hmz; nia].
Qed.

Lemma float_of_int_exact (z : Z) :
0 < z < 2 ^ 53 ->
float_of_int z = Ok (to_float z) /\ Prim2SF (to_float z) = nearest z.
Proof.
intros Hz. destruct (nearest_exact z Hz) as (m & e & Hn & He & _ & Hm).
unfold float_of_int, to_float. rewrite Hn. split; [reflexivity |].
apply Prim2SF_SF2Prim. cbn [SpecFloat.valid_binary].
unfold bounded, canonical_mantissa. rewrite fexp_fexp64.
rewrite (digits2_pos_unique m 53 Hm).
apply andb_true_iff. split.
- apply Z.eqb_eq. unfold fexp64. lia.
- apply Z.leb_le. unfold emax, prec. lia.
Qed.

(** Scaling two integer lengths by the same float and truncating keeps
  their order, whatever the float. *)
Lemma scaled_lengths_mono (iw ih a b : Z) (scale : float) :
0 < iw -> iw <= ih -> ih < 2 ^ 53 ->
int_of_float (to_float iw * scale) = Ok a ->
int_of_float (to_float ih * scale) = Ok b ->
Z.max 1 a <= Z.max 1 b.
Proof.
intros Hiw Hle Hih. unfold int_of_float. rewrite !mul_spec.
destruct (float_of_int_exact iw ltac:(lia)) as [_ ->].
destruct (float_of_int_exact ih ltac:(lia)) as [_ ->].
destruct (nearest_exact iw ltac:(lia)) as (mx & ex & -> & Hex & Hvx & Hmx).
destruct (nearest_exact ih ltac:(lia)) as (my & ey & -> & Hey & Hvy & Hmy).
unfold SF64mul.
destruct (Prim2SF scale) as [ss | ss | | [|] ms es]; cbn [SFmul xorb].
- (* a zero scale *)
  cbn. intros Ha Hb. inversion Ha; inversion Hb. lia.
- cbn. discriminate.
- cbn. discriminate.
- (* a negative scale: nothing above zero comes out *)
  assert (Hneg : forall m e v,
             trunc (binary_round_aux prec emax true (Zpos m) e loc_Exact) = Ok v ->
             v <= 0).
  { intros m e v Hv.
    pose proof (binary_round_aux_sign true (Zpos m) e loc_Exact
                  ltac:(lia)) as Hs.
    destruct (binary_round_aux prec emax true (Zpos m) e loc_Exact)
      as [s' | s' | | s' m' e']; cbn [trunc] in Hv; try discriminate.
    - inversion Hv. lia.
    - subst s'.
      set (t := if 0 <=? e' then Zpos m' * 2 ^ e' else Zpos m' / 2 ^ (- e')) in Hv.
      assert (Ht : 0 <= t).
      { unfold t. destruct (Z.leb_spec 0 e').
        - apply Z.mul_nonneg_nonneg; [lia | apply Z.pow_nonneg; lia].
        - apply Z.div_pos; [lia | apply Z.pow_pos_nonneg; lia]. }
      clearbody t. assert (v = - t) by congruence. lia. }
  intros Ha Hb. apply Hneg in Ha, Hb. lia.
- (* a positive scale: rounding and truncation are monotone *)
  intros Ha Hb.
  assert (Hab : a <= b).
  { apply (mul_trunc_mono mx my ms ex ey es
             (Z.min (-52) (-52 - es)) a b); try lia; try assumption.
    set (B := Z.min (-52) (-52 - es)).
    assert (HB : B <= -52) by (unfold B; lia).
    assert (Qx : 2 ^ (- B) = 2 ^ (- ex) * 2 ^ (ex - B))
      by (rewrite <- pow2_split by lia; f_equal; lia).
    assert (Qy : 2 ^ (- B) = 2 ^ (- ey) * 2 ^ (ey - B))
      by (rewrite <- pow2_split by lia; f_equal; lia).
    assert (0 < 2 ^ (- B)) by (apply Z.pow_pos_nonneg; lia).
    rewrite Hvx, Hvy.
    replace (iw * 2 ^ (- ex) * 2 ^ (ex - B)) with (iw * 2 ^ (- B))
      by (rewrite Qx; ring).
    replace (ih * 2 ^ (- ey) * 2 ^ (ey - B)) with (ih * 2 ^ (- B))
      by (rewrite Qy; ring).
    nia. }
  lia.
Qed.

End Thumbnail.

(** C7. With the uniform orientation "portrait", whatever the stored pixel
    dimensions of the picture and whatever the cell size, the picture has
    [height >= width] after [unify_orientation], and the box
    [max(1, int(w * scale)) x max(1, int(h * scale))] computed from it for the
    thumbnail has [height >= width] too. *)
Theorem thumbnail_portrait (im : Image) (cell_w cell_h : float) :
  pil_image im ->
  let im' := unify_orientation im "portrait" in
  width im' <= height im'
  /\ forall new_w new_h,
       thumbnail_box cell_w cell_h im' = Ok (new_w, new_h) -> new_w <= new_h.
Proof.
  intros [Hw Hh] im'.
  assert (Him : width im' <= height im' /\ 0 < width im' /\ height im' < 2 ^ 31).
  { unfold im'. rewrite unify_orientation_portrait.
    destruct (Z.ltb_spec (height im) (width im)); cbn [rotate width height]; lia. }
  clearbody im'. destruct Him as (Hle & Hpos & Hbound).
  split; [exact Hle |].
  intros new_w new_h. unfold thumbnail_box, size.
  assert (H31 : 2 ^ 31 < 2 ^ 53) by (apply Z.pow_lt_mono_r; lia).
  destruct (float_of_int_exact (width im') ltac:(lia)) as [-> _].
  destruct (float_of_int_exact (height im') ltac:(lia)) as [-> _].
  cbn [bind].
  destruct (fdiv cell_w (to_float (width im'))) as [sw | ?]; [| discriminate].
  cbn [bind].
  destruct (fdiv cell_h (to_float (height im'))) as [sh | ?]; [| discriminate].
  cbn [bind].
  destruct (int_of_float (to_float (width im') * fmin sw sh)) as [a | ?] eqn:Ha;
    [| discriminate].
  cbn [bind].
  destruct (int_of_float (to_float (height im') * fmin sw sh)) as [b | ?] eqn:Hb;
    [| discriminate].
  cbn [bind]. intros H. inversion H; subst.
  apply (scaled_lengths_mono (width im') (height im') a b (fmin sw sh));
    try assumption; lia.
Qed.

(** A 4000 x 3000 picture in a 100 x 150 pt cell. *)
Lemma thumbnail_portrait_4000_3000 :
  let im' := unify_orientation (mkImage 4000 3000 0) "portrait" in
  thumbnail_box 100 150 im' = Ok (100, 133)
  /\ width im' <= height im'
  /\ forall new_w new_h,
       thumbnail_box 100 150 im' = Ok (new_w, new_h) -> new_w <= new_h.
Proof.
  split; [vm_compute; reflexivity |].
  apply (thumbnail_portrait (mkImage 4000 3000 0) 100 150).
  unfold pil_image. cbn [width height]. split; split; try lia; reflexivity.
Defined.

(** ** Grid selection in [main] *)

Section MainGrid.

Variable n : Z.
Variables page_w_pt page_h_pt margin_pt gap_pt : float.

Lemma truthy_int_of (o : option Z) :
ordinary o -> truthy o = true -> 1 <= int_of o < 2 ^ 1075.
Proof.
destruct o as [v |]; cbn; [| discriminate].
intros Hv Ht. apply negb_true_iff in Ht.
destruct (Z.eqb_spec v 0); [discriminate | lia].
Qed.

Lemma main_grid_both (rows cols : option Z) :
truthy rows = true -> truthy cols = true ->
main_grid n rows cols page_w_pt page_h_pt margin_pt gap_pt
= Ok (int_of rows, int_of cols).
Proof. intros Hr Hc. unfold main_grid. rewrite Hr, Hc. reflexivity. Qed.

Lemma main_grid_auto (rows cols : option Z) :
truthy rows = false -> truthy cols = false ->
main_grid n rows cols page_w_pt page_h_pt margin_pt gap_pt
= choose_grid_auto n page_w_pt page_h_pt margin_pt gap_pt.
Proof. intros Hr Hc. unfold main_grid. rewrite Hr, Hc. reflexivity. Qed.

Hypothesis n_range : 1 <= n < 2 ^ 53.

(** Within the range where the float quotient is harmless, a single given
  dimension derives the other one as the exact ceiling. *)
Lemma main_grid_rows_only (rows cols : option Z) :
ordinary rows -> truthy rows = true -> truthy cols = false ->
main_grid n rows cols page_w_pt page_h_pt margin_pt gap_pt
= Ok (int_of rows, ceil_div n (int_of rows)).
Proof.
intros Ho Hr Hc. unfold main_grid. rewrite Hr, Hc. cbn [andb negb].
destruct (truediv_ceil_exact n (int_of rows)) as (q & Hq & Hceil);
  [lia | pose proof (truthy_int_of rows Ho Hr); lia |].
rewrite Hq. cbn [bind]. rewrite Hceil. reflexivity.
Qed.

Lemma main_grid_cols_only (rows cols : option Z) :
ordinary cols -> truthy rows = false -> truthy cols = true ->
main_grid n rows cols page_w_pt page_h_pt margin_pt gap_pt
= Ok (ceil_div n (int_of cols), int_of cols).
Proof.
intros Ho Hr Hc. unfold main_grid. rewrite Hr, Hc. cbn [andb negb].
destruct (truediv_ceil_exact n (int_of cols)) as (q & Hq & Hceil);
  [lia | pose proof (truthy_int_of cols Ho Hc); lia |].
rewrite Hq. cbn [bind]. rewrite Hceil. reflexivity.
Qed.

Lemma choose_grid_auto_capacity :
exists r c,
  choose_grid_auto n page_w_pt page_h_pt margin_pt gap_pt = Ok (r, c)
  /\ 1 <= r /\ 1 <= c.
Proof.
assert (Hrange : 1 <= n < 2 ^ 1023).
{ assert (2 ^ 53 < 2 ^ 1023) by (apply Z.pow_lt_mono_r; lia). lia. }
destruct (choose_grid_auto_searched n page_w_pt page_h_pt margin_pt gap_pt
            Hrange) as (st & Hrun & Hinv).
destruct Hinv as [[-> _] | (rb & -> & _ & Hcb & _)].
- exists 1, n. split; [exact Hrun | lia].
- exists rb, (ceil_div n rb). split; [exact Hrun |].
  destruct Hcb as (Hr & _). split; [lia |].
  pose proof (ceil_div_pos n rb ltac:(lia) ltac:(lia)). lia.
Qed.

(** With grid values of ordinary size the page capacity is positive and the
  pages are produced. *)
Lemma main_pages_capacity (rows cols : option Z) :
ordinary rows -> ordinary cols ->
exists g pages,
  main_pages n rows cols page_w_pt page_h_pt margin_pt gap_pt
  = Ok (g, fst g * snd g, pages)
  /\ 1 <= fst g * snd g.
Proof.
intros Hor Hoc.
assert (Hgrid : exists r c,
          main_grid n rows cols page_w_pt page_h_pt margin_pt gap_pt
          = Ok (r, c) /\ 1 <= r /\ 1 <= c).
{ destruct (truthy rows) eqn:Hr, (truthy cols) eqn:Hc.
  - exists (int_of rows), (int_of cols).
    split; [apply main_grid_both; assumption |].
    pose proof (truthy_int_of rows Hor Hr).
    pose proof (truthy_int_of cols Hoc Hc). lia.
  - exists (int_of rows), (ceil_div n (int_of rows)).
    split; [apply main_grid_rows_only; assumption |].
    pose proof (truthy_int_of rows Hor Hr).
    pose proof (ceil_div_pos n (int_of rows) ltac:(lia) ltac:(lia)). lia.
  - exists (ceil_div n (int_of cols)), (int_of cols).
    split; [apply main_grid_cols_only; assumption |].
    pose proof (truthy_int_of cols Hoc Hc).
    pose proof (ceil_div_pos n (int_of cols) ltac:(lia) ltac:(lia)). lia.
  - rewrite main_grid_auto by assumption. apply choose_grid_auto_capacity. }
destruct Hgrid as (r & c & Hg & Hr & Hc).
destruct (paginate_partition n (r * c) ltac:(lia) ltac:(nia))
  as (pages & Hp & _).
exists (r, c), pages. unfold main_pages. rewrite Hg. cbn [bind fst snd].
rewrite Hp. cbn [bind]. split; [reflexivity | nia].
Qed.

End MainGrid.

(** C5. With one image and [--rows] set to [10 ^ 400] (and no [--cols]), the
    quotient [1 / 10 ** 400] underflows to [0.0] and [main] derives
    [cols = 0], whereas [ceil(1 / 10 ^ 400) = 1]; [--rows 3] with 10 images
    does yield [cols = 4], and two given values are used as they are. *)
Theorem main_grid_rows_underflow
    (page_w_pt page_h_pt margin_pt gap_pt : float) :
  main_grid 1 (Some (10 ^ 400)) None page_w_pt page_h_pt margin_pt gap_pt
  = Ok (10 ^ 400, 0)
  /\ ceil_div 1 (10 ^ 400) = 1
  /\ main_grid 10 (Some 3) None page_w_pt page_h_pt margin_pt gap_pt
     = Ok (3, 4)
  /\ main_grid 10 (Some 2) (Some 2) page_w_pt page_h_pt margin_pt gap_pt
     = Ok (2, 2).
Proof.
  split; [vm_compute; reflexivity |].
  split; [vm_compute; reflexivity |].
  split; vm_compute; reflexivity.
Qed.

(** C10. A value of 0 for [--rows] or [--cols] is treated as absent, but the
    page capacity can still be 0: with one image and [--rows] set to
    [10 ^ 400], [main] computes [cols = 0] and [per_page = 0], and
    [paginate] raises [ValueError]. *)
Theorem main_pages_zero_capacity
    (page_w_pt page_h_pt margin_pt gap_pt : float) :
  (forall n cols,
      main_grid n (Some 0) cols page_w_pt page_h_pt margin_pt gap_pt
      = main_grid n None cols page_w_pt page_h_pt margin_pt gap_pt)
  /\ (forall n rows,
        main_grid n rows (Some 0) page_w_pt page_h_pt margin_pt gap_pt
        = main_grid n rows None page_w_pt page_h_pt margin_pt gap_pt)
  /\ main_grid 1 (Some (10 ^ 400)) None page_w_pt page_h_pt margin_pt gap_pt
     = Ok (10 ^ 400, 0)
  /\ 10 ^ 400 * 0 = 0
  /\ main_pages 1 (Some (10 ^ 400)) None page_w_pt page_h_pt margin_pt gap_pt
     = Raise ValueError.
Proof.
  split; [reflexivity |].
  split; [intros n rows; unfold main_grid; destruct (truthy rows); reflexivity |].
  split; [vm_compute; reflexivity |].
  split; vm_compute; reflexivity.
Qed.

(** ** Instances *)

Lemma paginate_partition_10_3 :
  exists pages,
    paginate 10 3 = Ok pages
    /\ Z.of_nat (List.length pages) = ceil_div 10 3
    /\ tiles 0 pages 10
    /\ (forall i s e, nth_error pages i = Some (s, e) ->
          s = Z.of_nat i * 3
          /\ e - s = if Z.of_nat i <? ceil_div 10 3 - 1
                     then 3
                     else 10 - (ceil_div 10 3 - 1) * 3)
    /\ 1 <= 10 - (ceil_div 10 3 - 1) * 3 <= 3.
Proof. apply (paginate_partition 10 3); lia. Defined.

Lemma film_bottom_up_3_2 :
  (forall idx,
      index_to_cell idx 3 2 "film-bottom-up"
      = Ok ((3 - 1) - idx mod 3, idx / 3))
  /\ bijection_onto_grid 3 2
       (fun idx => index_to_cell idx 3 2 "film-bottom-up")
  /\ map (fun idx => index_to_cell idx 3 2 "film-bottom-up") [0; 1; 2; 3; 4; 5]
     = [Ok (2, 0); Ok (1, 0); Ok (0, 0); Ok (2, 1); Ok (1, 1); Ok (0, 1)].
Proof. apply (film_bottom_up_bijection 3 2); lia. Defined.

Lemma row_left_right_3_2 :
  (forall idx,
      index_to_cell idx 3 2 "row-left-right" = Ok (idx / 2, idx mod 2))
  /\ bijection_onto_grid 3 2
       (fun idx => index_to_cell idx 3 2 "row-left-right")
  /\ (forall i j ri ci rj cj,
        index_to_cell i 3 2 "row-left-right" = Ok (ri, ci) ->
        index_to_cell j 3 2 "row-left-right" = Ok (rj, cj) ->
        (i < j <-> ri < rj \/ (ri = rj /\ ci < cj)))
  /\ (forall order idx,
        order <> "row-left-right"%string -> order <> "film-bottom-up"%string ->
        index_to_cell idx 3 2 order
        = index_to_cell idx 3 2 "row-left-right").
Proof. apply (row_left_right_bijection 3 2); lia. Defined.

(** Seven pictures on a 595.25 x 841.75 pt page, margin 28.25 pt, gap 5.5 pt. *)
Lemma choose_grid_auto_seven :
  exists rows cols,
    choose_grid_auto 7 595.25 841.75 28.25 5.5 = Ok (rows, cols)
    /\ cols = ceil_div 7 rows
    /\ candidate 7 595.25 841.75 28.25 5.5 rows
    /\ (forall r', candidate 7 595.25 841.75 28.25 5.5 r' ->
          (area 7 595.25 841.75 28.25 5.5 rows
           <? area 7 595.25 841.75 28.25 5.5 r')%float = false)
    /\ (forall r', candidate 7 595.25 841.75 28.25 5.5 r' ->
          r' < rows ->
          (area 7 595.25 841.75 28.25 5.5 r'
           <? area 7 595.25 841.75 28.25 5.5 rows)%float = true).
Proof.
  apply (choose_grid_auto_maximal 7 595.25 841.75 28.25 5.5); [lia |].
  exists 1. unfold candidate.
  split; [vm_compute; split; discriminate |].
  split; [vm_compute; discriminate |].
  split; vm_compute; reflexivity.
Defined.

(** Seven pictures on a page narrower than its margins: nothing fits, and
    the one-row fallback comes back although its own cells have negative
    width. *)
Lemma choose_grid_auto_no_room :
  choose_grid_auto 7 10 10 10 2 = Ok (1, 7)
  /\ (cell_w 7 10 10 2 1 <? 0)%float = true.
Proof.
  split; [| vm_compute; reflexivity].
  apply (choose_grid_auto_fallback 7 10 10 10 2).
  - unfold maxsize. lia.
  - intros r (Hr & _ & Hw & _).
    assert (Hcases : r = 1 \/ r = 2 \/ r = 3 \/ r = 4 \/ r = 5 \/ r = 6 \/ r = 7)
      by lia.
    destruct Hcases as [-> | [-> | [-> | [-> | [-> | [-> | ->]]]]]];
      vm_compute in Hw; discriminate.
Defined.

(** ** Pages as slices of the image list *)

Section Slices.

Context {A : Type}.

Lemma firstn_add_skipn (n m : nat) (l : list A) :
  firstn (n + m) l = firstn n l ++ firstn m (skipn n l).
Proof.
  revert l. induction n as [| n IH]; intros l; [reflexivity |].
  destruct l as [| x l]; cbn.
  - now rewrite firstn_nil.
  - now rewrite IH.
Qed.

Lemma slice_inside (l : list A) (s e : Z) :
  0 <= s <= e -> e <= Z.of_nat (List.length l) ->
  slice l s e = firstn (Z.to_nat (e - s)) (skipn (Z.to_nat s) l).
Proof.
  intros Hs He. unfold slice, slice_bound.
  destruct (Z.ltb_spec s 0), (Z.ltb_spec e 0); try lia.
  rewrite !Z.min_l by lia. reflexivity.
Qed.

Lemma slice_length (l : list A) (s e : Z) :
  0 <= s <= e -> e <= Z.of_nat (List.length l) ->
  Z.of_nat (List.length (slice l s e)) = e - s.
Proof.
  intros Hs He. rewrite slice_inside by assumption.
  rewrite length_firstn, length_skipn. lia.
Qed.

(** Ranges that tile [[a, b)] cut out exactly the items from [a] to [b]. *)
Lemma tiles_slices (l : list A) (a b : Z) (pages : list (Z * Z)) :
  tiles a pages b -> 0 <= a -> b <= Z.of_nat (List.length l) ->
  List.concat (map (fun '(s, e) => slice l s e) pages)
  = firstn (Z.to_nat (b - a)) (skipn (Z.to_nat a) l).
Proof.
  induction 1 as [a | a e b rest Hlt Ht IH]; intros Ha Hb.
  - rewrite Z.sub_diag. reflexivity.
  - pose proof (tiles_le _ _ _ Ht) as Heb.
    cbn [map List.concat]. rewrite IH by lia.
    rewrite slice_inside by lia.
    replace (Z.to_nat (b - a)) with (Z.to_nat (e - a) + Z.to_nat (b - e))%nat
      by lia.
    rewrite firstn_add_skipn, skipn_skipn.
    replace (Z.to_nat (e - a) + Z.to_nat a)%nat with (Z.to_nat e) by lia.
    reflexivity.
Qed.

End Slices.

Lemma range_empty (n per_page : Z) :
  per_page <> 0 -> range_length 0 n per_page = 0 ->
  paginate n per_page = Ok [].
Proof.
  intros Hp Hlen. unfold paginate, range.
  destruct (Z.eqb_spec per_page 0); [contradiction |].
  rewrite Hlen. reflexivity.
Qed.

(** The pages of [paginate], for any count: they tile [[0, n)] and none is
    longer than [per_page]. *)
Lemma paginate_tiles (n per_page : Z) :
  0 <= n -> 1 <= per_page ->
  exists pages,
    paginate n per_page = Ok pages
    /\ tiles 0 pages n
    /\ Forall (fun '(s, e) => e - s <= per_page) pages.
Proof.
  intros Hn Hp. destruct (Z.eq_dec n 0) as [-> | Hn0].
  - exists []. split; [| split; constructor].
    apply range_empty; [lia |]. unfold range_length.
    destruct (0 <? per_page); reflexivity.
  - pose proof (ceil_div_spec n per_page ltac:(lia)) as Hc.
    pose proof (ceil_div_pos n per_page ltac:(lia) ltac:(lia)) as Hc0.
    set (c := ceil_div n per_page) in *.
    exists (map (page n per_page) (seq 0 (Z.to_nat c))).
    split; [apply paginate_pages; lia |]. split.
    + pose proof (tiles_pages n per_page Hp (Z.to_nat (c - 1)) 0) as Ht.
      replace (S (Z.to_nat (c - 1))) with (Z.to_nat c) in Ht by lia.
      cbn [Nat.add] in Ht. rewrite !Z2Nat.id in Ht by lia.
      rewrite Z.min_r in Ht by lia. apply Ht. lia.
    + apply Forall_forall. intros [s e] Hin.
      apply in_map_iff in Hin. destruct Hin as (i & Hi & _).
      unfold page in Hi. inversion Hi. lia.
Qed.

(** X1. Cutting the image list by the ranges of [paginate], as [main] does
    with [images[start:end]], loses nothing and repeats nothing: the slices
    put end to end are the list itself, and every slice holds between one
    and [per_page] images. *)
Theorem pages_partition_images {A : Type} (images : list A) (per_page : Z) :
  1 <= per_page ->
  exists pages,
    paginate (Z.of_nat (List.length images)) per_page = Ok pages
    /\ List.concat (map (fun '(s, e) => slice images s e) pages) = images
    /\ Forall (fun '(s, e) =>
                 1 <= Z.of_nat (List.length (slice images s e)) <= per_page)
         pages.
Proof.
  intros Hp.
  destruct (paginate_tiles (Z.of_nat (List.length images)) per_page
              ltac:(lia) Hp) as (pages & Hrun & Ht & Hlen).
  exists pages. split; [exact Hrun |]. split.
  - rewrite (tiles_slices images 0 _ pages Ht) by lia.
    rewrite Z.sub_0_r, Nat2Z.id. cbn [Z.to_nat skipn].
    apply firstn_all.
  - apply Forall_forall. intros [s e] Hin.
    pose proof (tiles_bounds _ _ _ _ _ Ht Hin) as Hb.
    rewrite Forall_forall in Hlen. specialize (Hlen _ Hin). cbn in Hlen.
    rewrite slice_length by lia. lia.
Qed.

Lemma pages_partition_images_3 :
  exists pages,
    paginate (Z.of_nat (List.length ["a"; "b"; "c"]%string)) 2 = Ok pages
    /\ List.concat (map (fun '(s, e) => slice ["a"; "b"; "c"]%string s e) pages)
       = ["a"; "b"; "c"]%string
    /\ Forall (fun '(s, e) =>
                 1 <= Z.of_nat (List.length (slice ["a"; "b"; "c"]%string s e))
                 <= 2)
         pages.
Proof. apply (pages_partition_images ["a"; "b"; "c"]%string 2). lia. Defined.

(** X2. The degenerate calls of [paginate]: a capacity of 0 raises
    [ValueError] whatever the count; a negative capacity, or a count that is
    not positive, gives no page at all and no error. *)
Theorem paginate_degenerate (n per_page : Z) :
  (per_page = 0 -> paginate n per_page = Raise ValueError)
  /\ (per_page < 0 -> 0 <= n -> paginate n per_page = Ok [])
  /\ (0 < per_page -> n <= 0 -> paginate n per_page = Ok []).
Proof.
  split; [| split].
  - intros ->. reflexivity.
  - intros Hp Hn. apply range_empty; [lia |]. unfold range_length.
    destruct (Z.ltb_spec 0 per_page); [lia |].
    destruct (Z.ltb_spec n 0); [lia | reflexivity].
  - intros Hp Hn. apply range_empty; [lia |]. unfold range_length.
    destruct (Z.ltb_spec 0 per_page); [| lia].
    destruct (Z.ltb_spec 0 n); [lia | reflexivity].
Qed.

Lemma paginate_degenerate_cases :
  paginate 5 0 = Raise ValueError
  /\ paginate 5 (-3) = Ok []
  /\ paginate 0 3 = Ok [].
Proof.
  destruct (paginate_degenerate 5 0) as (H1 & _ & _).
  destruct (paginate_degenerate 5 (-3)) as (_ & H2 & _).
  destruct (paginate_degenerate 0 3) as (_ & _ & H3).
  split; [apply H1; reflexivity | split; [apply H2; lia | apply H3; lia]].
Defined.

(** ** Neighbouring frames *)

Lemma succ_div_mod (idx d : Z) :
  1 <= d ->
  (idx mod d = d - 1 ->
     (idx + 1) / d = idx / d + 1 /\ (idx + 1) mod d = 0)
  /\ (idx mod d <> d - 1 ->
        (idx + 1) / d = idx / d /\ (idx + 1) mod d = idx mod d + 1).
Proof.
  intros Hd.
  pose proof (Z.div_mod idx d ltac:(lia)) as E.
  pose proof (Z.mod_pos_bound idx d ltac:(lia)) as B.
  split; intros Hm.
  - assert (Hq : (idx + 1) / d = idx / d + 1)
      by (symmetry; apply (Z.div_unique _ _ _ 0); lia).
    split; [exact Hq |].
    symmetry. apply (Z.mod_unique _ _ (idx / d + 1)); lia.
  - assert (Hq : (idx + 1) / d = idx / d)
      by (symmetry; apply (Z.div_unique _ _ _ (idx mod d + 1)); lia).
    split; [exact Hq |].
    symmetry. apply (Z.mod_unique _ _ (idx / d)); lia.
Qed.

(** X3. Consecutive images are neighbours on the sheet.  In the order
    "film-bottom-up" the next image sits one row higher in the same column,
    and after the top row the strip continues at the bottom of the column to
    the right; in the order "row-left-right" the next image sits one column
    to the right, and after the last column the next row starts at the
    left. *)
Theorem consecutive_frames (rows cols idx r c : Z) :
  1 <= rows -> 1 <= cols ->
  (index_to_cell idx rows cols "film-bottom-up" = Ok (r, c) ->
     index_to_cell (idx + 1) rows cols "film-bottom-up"
     = if r =? 0 then Ok (rows - 1, c + 1) else Ok (r - 1, c))
  /\ (index_to_cell idx rows cols "row-left-right" = Ok (r, c) ->
        index_to_cell (idx + 1) rows cols "row-left-right"
        = if c =? cols - 1 then Ok (r + 1, 0) else Ok (r, c + 1)).
Proof.
  intros Hr Hc. split; intros H.
  - rewrite film_order_eq in * by assumption. inversion H; subst; clear H.
    pose proof (Z.mod_pos_bound idx rows ltac:(lia)) as B.
    destruct (succ_div_mod idx rows Hr) as [Hwrap Hstep].
    destruct (Z.eqb_spec (rows - 1 - idx mod rows) 0) as [E | E].
    + destruct Hwrap as [-> ->]; [lia |]. f_equal. f_equal; lia.
    + destruct Hstep as [-> ->]; [lia |]. f_equal. f_equal; lia.
  - assert (Hne : "row-left-right"%string <> "film-bottom-up"%string)
      by discriminate.
    rewrite !(reading_order_eq rows cols Hc) in * by assumption.
    inversion H; subst; clear H.
    destruct (succ_div_mod idx cols Hc) as [Hwrap Hstep].
    destruct (Z.eqb_spec (idx mod cols) (cols - 1)) as [E | E].
    + destruct Hwrap as [-> ->]; [lia |]. reflexivity.
    + destruct Hstep as [-> ->]; [lia |]. reflexivity.
Qed.

Lemma consecutive_frames_3_2 :
  index_to_cell (2 + 1) 3 2 "film-bottom-up" = Ok (3 - 1, 0 + 1)
  /\ index_to_cell (1 + 1) 3 2 "row-left-right" = Ok (0 + 1, 0).
Proof.
  destruct (consecutive_frames 3 2 2 0 0 ltac:(lia) ltac:(lia)) as [Hf _].
  destruct (consecutive_frames 3 2 1 0 1 ltac:(lia) ltac:(lia)) as [_ Hr].
  split; [apply Hf; reflexivity | apply Hr; reflexivity].
Defined.

(** ** More on orientation *)

Lemma unify_orientation_other (img : Image) (mode : string) :
  mode <> "portrait"%string -> mode <> "landscape"%string ->
  unify_orientation img mode = img.
Proof.
  intros Hp Hl. unfold unify_orientation.
  destruct (String.eqb mode "none"); [reflexivity |].
  destruct (String.eqb_spec mode "portrait"); [contradiction |].
  destruct (String.eqb_spec mode "landscape"); [contradiction |].
  reflexivity.
Qed.

(** X4. [unify_orientation] achieves the orientation it is asked for:
    "portrait" gives [height >= width], "landscape" gives [width >= height];
    in every mode the two dimensions are kept or exchanged, never changed;
    and a mode that is neither "portrait" nor "landscape" returns the
    picture as it is. *)
Theorem unify_orientation_achieved (img : Image) (mode : string) :
  width (unify_orientation img "portrait")
  <= height (unify_orientation img "portrait")
  /\ height (unify_orientation img "landscape")
     <= width (unify_orientation img "landscape")
  /\ (size (unify_orientation img mode) = (width img, height img)
      \/ size (unify_orientation img mode) = (height img, width img))
  /\ (mode <> "portrait"%string -> mode <> "landscape"%string ->
      unify_orientation img mode = img).
Proof.
  split; [| split; [| split]].
  - rewrite unify_orientation_portrait.
    destruct (Z.ltb_spec (height img) (width img)); cbn [rotate width height];
      lia.
  - rewrite unify_orientation_landscape.
    destruct (Z.leb_spec (width img) (height img)); cbn [rotate width height];
      lia.
  - destruct (String.eqb_spec mode "portrait") as [-> | Hp].
    { rewrite unify_orientation_portrait.
      destruct (height img <? width img); [right | left]; reflexivity. }
    destruct (String.eqb_spec mode "landscape") as [-> | Hl].
    { rewrite unify_orientation_landscape.
      destruct (width img <=? height img); [right | left]; reflexivity. }
    left. rewrite unify_orientation_other by assumption. reflexivity.
  - apply unify_orientation_other.
Qed.

Lemma unify_orientation_achieved_wide :
  width (unify_orientation (mkImage 4000 3000 0) "portrait")
  <= height (unify_orientation (mkImage 4000 3000 0) "portrait")
  /\ unify_orientation (mkImage 4000 3000 0) "Portrait" = mkImage 4000 3000 0.
Proof.
  destruct (unify_orientation_achieved (mkImage 4000 3000 0) "Portrait")
    as (Hp & _ & _ & Hother).
  split; [exact Hp | apply Hother; discriminate].
Defined.

(** X5. Forcing the orientation twice is the same as forcing it once: in
    mode "portrait" for every picture, in mode "landscape" for every picture
    that is not square. *)
Theorem unify_orientation_idempotent (img : Image) :
  unify_orientation (unify_orientation img "portrait") "portrait"
  = unify_orientation img "portrait"
  /\ (width img <> height img ->
      unify_orientation (unify_orientation img "landscape") "landscape"
      = unify_orientation img "landscape").
Proof.
  split.
  - rewrite (unify_orientation_portrait img).
    destruct (Z.ltb_spec (height img) (width img)) as [Hlt | Hge];
      rewrite unify_orientation_portrait; cbn [rotate width height].
    + destruct (Z.ltb_spec (width img) (height img)); [lia | reflexivity].
    + destruct (Z.ltb_spec (height img) (width img)); [lia | reflexivity].
  - intros Hne. rewrite (unify_orientation_landscape img).
    destruct (Z.leb_spec (width img) (height img)) as [Hle | Hgt];
      rewrite unify_orientation_landscape; cbn [rotate width height].
    + destruct (Z.leb_spec (height img) (width img)); [lia | reflexivity].
    + destruct (Z.leb_spec (width img) (height img)); [lia | reflexivity].
Qed.

Lemma unify_orientation_idempotent_tall :
  unify_orientation (unify_orientation (mkImage 3000 4000 0) "landscape")
    "landscape"
  = unify_orientation (mkImage 3000 4000 0) "landscape".
Proof.
  apply (unify_orientation_idempotent (mkImage 3000 4000 0)).
  cbn [width height]. lia.
Defined.

(** ** More on the thumbnail box *)

Lemma to_float_not_zero (z : Z) :
  0 < z < 2 ^ 53 -> PrimFloat.eqb (to_float z) 0 = false.
Proof.
  intros Hz. rewrite eqb_spec.
  destruct (float_of_int_exact z Hz) as [_ ->].
  destruct (nearest_exact z Hz) as (m & e & -> & _).
  reflexivity.
Qed.

(** What a returned box is made of. *)
Lemma thumbnail_box_inv (cell_w cell_h : float) (im : Image) (nw nh : Z) :
  0 < width im < 2 ^ 53 -> 0 < height im < 2 ^ 53 ->
  thumbnail_box cell_w cell_h im = Ok (nw, nh) ->
  exists scale a b,
    int_of_float (to_float (width im) * scale) = Ok a
    /\ int_of_float (to_float (height im) * scale) = Ok b
    /\ nw = Z.max 1 a /\ nh = Z.max 1 b.
Proof.
  intros Hw Hh. unfold thumbnail_box, size.
  destruct (float_of_int_exact (width im) Hw) as [-> _].
  destruct (float_of_int_exact (height im) Hh) as [-> _].
  cbn [bind].
  destruct (fdiv cell_w (to_float (width im))) as [sw | ?]; [| discriminate].
  cbn [bind].
  destruct (fdiv cell_h (to_float (height im))) as [sh | ?]; [| discriminate].
  cbn [bind].
  destruct (int_of_float (to_float (width im) * fmin sw sh)) as [a | ?] eqn:Ha;
    [| discriminate].
  cbn [bind].
  destruct (int_of_float (to_float (height im) * fmin sw sh)) as [b | ?] eqn:Hb;
    [| discriminate].
  cbn [bind]. intros H. inversion H; subst.
  exists (fmin sw sh), a, b. repeat split; assumption.
Qed.

(** X6. The box asked of [thumbnail] is at least one pixel each way and
    never turns a picture on its side: a picture at least as tall as wide
    gets a box at least as tall as wide, and the other way round, so a
    square picture gets a square box. *)
Theorem thumbnail_box_keeps_orientation
    (cell_w cell_h : float) (im : Image) (new_w new_h : Z) :
  pil_image im ->
  thumbnail_box cell_w cell_h im = Ok (new_w, new_h) ->
  1 <= new_w /\ 1 <= new_h
  /\ (width im <= height im -> new_w <= new_h)
  /\ (height im <= width im -> new_h <= new_w).
Proof.
  intros [Hw Hh] Hbox.
  assert (H31 : 2 ^ 31 < 2 ^ 53) by (apply Z.pow_lt_mono_r; lia).
  destruct (thumbnail_box_inv cell_w cell_h im new_w new_h
              ltac:(lia) ltac:(lia) Hbox) as (scale & a & b & Ha & Hb & -> & ->).
  split; [lia |]. split; [lia |]. split; intros Hle.
  - apply (scaled_lengths_mono (width im) (height im) a b scale);
      try assumption; lia.
  - apply (scaled_lengths_mono (height im) (width im) b a scale);
      try assumption; lia.
Qed.

Lemma thumbnail_box_keeps_orientation_wide :
  1 <= 100 /\ 1 <= 75
  /\ (width (mkImage 4000 3000 0) <= height (mkImage 4000 3000 0) -> 100 <= 75)
  /\ (height (mkImage 4000 3000 0) <= width (mkImage 4000 3000 0) -> 75 <= 100).
Proof.
  apply (thumbnail_box_keeps_orientation 100 150 (mkImage 4000 3000 0) 100 75).
  - unfold pil_image. cbn [width height]. split; split; try lia; reflexivity.
  - vm_compute. reflexivity.
Defined.

(** X7. A picture with a zero dimension stops the page: the scale factor
    divides by it and [ZeroDivisionError] is raised. *)
Theorem thumbnail_box_zero_size (cell_w cell_h : float) (im : Image) :
  width im = 0 \/ (0 < width im < 2 ^ 31 /\ height im = 0) ->
  thumbnail_box cell_w cell_h im = Raise ZeroDivisionError.
Proof.
  intros [Hw | [Hw Hh]]; unfold thumbnail_box, size.
  - rewrite Hw. reflexivity.
  - assert (H31 : 2 ^ 31 < 2 ^ 53) by (apply Z.pow_lt_mono_r; lia).
    destruct (float_of_int_exact (width im) ltac:(lia)) as [-> _].
    cbn [bind]. unfold fdiv at 1.
    rewrite to_float_not_zero by lia. cbn [bind].
    rewrite Hh. reflexivity.
Qed.

Lemma thumbnail_box_zero_size_flat :
  thumbnail_box 100 150 (mkImage 640 0 0) = Raise ZeroDivisionError.
Proof.
  apply (thumbnail_box_zero_size 100 150 (mkImage 640 0 0)).
  right. cbn [width height]. split; [split; [lia | reflexivity] | reflexivity].
Defined.

(** ** More on the automatic grid *)

Lemma maxsize_range (n : Z) : 1 <= n <= maxsize -> 1 <= n < 2 ^ 1023.
Proof.
  intros Hn. assert (2 ^ 63 < 2 ^ 1023) by (apply Z.pow_lt_mono_r; lia).
  unfold maxsize in Hn. lia.
Qed.

(** X8. For every image count the automatic grid is found without an
    error, has at least one row and one column, at most 15 rows, at most 30
    columns unless it is the one-row fallback, and room for all the
    images. *)
Theorem choose_grid_auto_fits
    (n : Z) (page_w_pt page_h_pt margin_pt gap_pt : float) :
  1 <= n <= maxsize ->
  exists rows cols,
    choose_grid_auto n page_w_pt page_h_pt margin_pt gap_pt = Ok (rows, cols)
    /\ 1 <= rows <= Z.min 15 n
    /\ 1 <= cols
    /\ n <= rows * cols
    /\ (cols <= 30 \/ (rows, cols) = (1, n)).
Proof.
  intros Hn.
  destruct (choose_grid_auto_searched n page_w_pt page_h_pt margin_pt gap_pt
              (maxsize_range n Hn)) as (st & Hrun & Hinv).
  destruct Hinv as [[-> _] | (rb & -> & _ & Hcb & _)]; cbn [fst] in Hrun.
  - exists 1, n. split; [exact Hrun |]. repeat split; try lia.
    right; reflexivity.
  - destruct Hcb as (Hr & Hc & _).
    pose proof (ceil_div_spec n rb ltac:(lia)) as Hs.
    pose proof (ceil_div_pos n rb ltac:(lia) ltac:(lia)) as Hp.
    exists rb, (ceil_div n rb). split; [exact Hrun |].
    repeat split; try lia.
Qed.

Lemma choose_grid_auto_fits_seven :
  exists rows cols,
    choose_grid_auto 7 595.25 841.75 28.25 5.5 = Ok (rows, cols)
    /\ 1 <= rows <= Z.min 15 7
    /\ 1 <= cols
    /\ 7 <= rows * cols
    /\ (cols <= 30 \/ (rows, cols) = (1, 7)).
Proof.
  apply (choose_grid_auto_fits 7 595.25 841.75 28.25 5.5).
  unfold maxsize. lia.
Defined.

(** X9. With more than 450 images no grid of at most 15 rows and 30
    columns can hold them, and with no image there is nothing to try: in
    both cases [choose_grid_auto] returns the one-row layout [(1, n)]
    whatever the page. *)
Theorem choose_grid_auto_beyond_search
    (n : Z) (page_w_pt page_h_pt margin_pt gap_pt : float) :
  n <= 0 \/ 450 < n <= maxsize ->
  choose_grid_auto n page_w_pt page_h_pt margin_pt gap_pt = Ok (1, n).
Proof.
  intros [Hn | Hn].
  - unfold choose_grid_auto, range, range_length.
    change (1 =? 0) with false. change (0 <? 1) with true. cbv iota.
    destruct (Z.ltb_spec 1 (Z.min 15 n + 1)); [lia |]. reflexivity.
  - destruct (choose_grid_auto_searched n page_w_pt page_h_pt margin_pt gap_pt
                (maxsize_range n ltac:(lia))) as (st & Hrun & Hinv).
    destruct Hinv as [[-> _] | (rb & _ & _ & Hcb & _)]; [exact Hrun |].
    exfalso. destruct Hcb as (Hr & Hc & _).
    pose proof (ceil_div_spec n rb ltac:(lia)). nia.
Qed.

Lemma choose_grid_auto_beyond_search_500 :
  choose_grid_auto 500 595.25 841.75 28.25 5.5 = Ok (1, 500).
Proof.
  apply (choose_grid_auto_beyond_search 500 595.25 841.75 28.25 5.5).
  right. unfold maxsize. lia.
Defined.

(** *** Lengths that are not numbers *)

Lemma nan_sub_l (x y : float) : is_nan (Prim2SF x) -> is_nan (Prim2SF (x - y)).
Proof.
  unfold is_nan. intros H. rewrite sub_spec, H. reflexivity.
Qed.

Lemma nan_sub_r (x y : float) : is_nan (Prim2SF y) -> is_nan (Prim2SF (x - y)).
Proof.
  unfold is_nan. intros H. rewrite sub_spec, H.
  destruct (Prim2SF x); reflexivity.
Qed.

Lemma nan_mul_l (x y : float) : is_nan (Prim2SF x) -> is_nan (Prim2SF (x * y)).
Proof.
  unfold is_nan. intros H. rewrite mul_spec, H. reflexivity.
Qed.

Lemma nan_mul_r (x y : float) : is_nan (Prim2SF y) -> is_nan (Prim2SF (x * y)).
Proof.
  unfold is_nan. intros H. rewrite mul_spec, H.
  destruct (Prim2SF x); reflexivity.
Qed.

Lemma nan_div_l (x y : float) : is_nan (Prim2SF x) -> is_nan (Prim2SF (x / y)).
Proof.
  unfold is_nan. intros H. rewrite div_spec, H. reflexivity.
Qed.

Lemma nan_not_positive (x : float) :
  is_nan (Prim2SF x) -> (0 <? x)%float = false.
Proof.
  unfold is_nan. intros H. rewrite ltb_spec, H.
  destruct (Prim2SF 0); reflexivity.
Qed.

Lemma nan_cell_extent (page_pt margin_pt gap_pt : float) (k : Z) :
  is_nan (Prim2SF page_pt) \/ is_nan (Prim2SF margin_pt)
  \/ is_nan (Prim2SF gap_pt) ->
  (0 <? cell_extent (usable page_pt margin_pt) gap_pt k)%float = false.
Proof.
  intros H. apply nan_not_positive. unfold cell_extent, usable.
  apply nan_div_l.
  destruct H as [H | [H | H]].
  - apply nan_sub_l, nan_sub_l, H.
  - apply nan_sub_l, nan_sub_r, nan_mul_r, H.
  - apply nan_sub_r, nan_mul_l, H.
Qed.

(** X10. When the page width, the page height, the margin or the gap is
    NaN (as [--margin-mm nan] makes it), the automatic search accepts no
    grid and the one-row layout [(1, n)] comes back, without an error. *)
Theorem choose_grid_auto_nan
    (n : Z) (page_w_pt page_h_pt margin_pt gap_pt : float) :
  1 <= n <= maxsize ->
  is_nan (Prim2SF page_w_pt) \/ is_nan (Prim2SF page_h_pt)
  \/ is_nan (Prim2SF margin_pt) \/ is_nan (Prim2SF gap_pt) ->
  choose_grid_auto n page_w_pt page_h_pt margin_pt gap_pt = Ok (1, n).
Proof.
  intros Hn Hnan.
  destruct (choose_grid_auto_searched n page_w_pt page_h_pt margin_pt gap_pt
              (maxsize_range n Hn)) as (st & Hrun & Hinv).
  destruct Hinv as [[-> _] | (rb & _ & _ & Hcb & _)]; [exact Hrun |].
  exfalso. destruct Hcb as (_ & _ & Hw & Hh).
  unfold cell_w in Hw. unfold cell_h in Hh.
  destruct Hnan as [H | [H | [H | H]]].
  - rewrite nan_cell_extent in Hw by (left; exact H). discriminate.
  - rewrite nan_cell_extent in Hh by (left; exact H). discriminate.
  - rewrite nan_cell_extent in Hw by (right; left; exact H). discriminate.
  - rewrite nan_cell_extent in Hw by (right; right; exact H). discriminate.
Qed.

Lemma choose_grid_auto_nan_margin :
  choose_grid_auto 7 595.25 841.75 nan 5.5 = Ok (1, 7).
Proof.
  apply (choose_grid_auto_nan 7 595.25 841.75 nan 5.5).
  - unfold maxsize. lia.
  - right; right; left. reflexivity.
Defined.

(** ** More on the grid selection of [main] *)

Lemma paginate_one_page (n per_page : Z) :
  1 <= n -> n <= per_page -> paginate n per_page = Ok [(0, n)].
Proof.
  intros Hn Hp. rewrite paginate_pages by lia.
  assert (Hc : ceil_div n per_page = 1) by (apply ceil_div_unique; lia).
  rewrite Hc. change (Z.to_nat 1) with 1%nat. cbn [seq map].
  unfold page. change (Z.of_nat 0) with 0.
  replace (Z.min (0 * per_page + per_page) n) with n by lia.
  replace (0 * per_page) with 0 by lia. reflexivity.
Qed.

(** Unless both [--rows] and [--cols] are given, the grid has room for
    all the images and [paginate] returns the single range [(0, n)]. *)
Lemma main_pages_single
    (n : Z) (rows cols : option Z)
    (page_w_pt page_h_pt margin_pt gap_pt : float) :
  1 <= n < 2 ^ 53 -> ordinary rows -> ordinary cols ->
  truthy rows && truthy cols = false ->
  exists grid,
    main_pages n rows cols page_w_pt page_h_pt margin_pt gap_pt
    = Ok (grid, fst grid * snd grid, [(0, n)])
    /\ n <= fst grid * snd grid.
Proof.
  intros Hn Hor Hoc Hnot.
  assert (Hgrid : exists r c,
            main_grid n rows cols page_w_pt page_h_pt margin_pt gap_pt
            = Ok (r, c) /\ n <= r * c).
  { destruct (truthy rows) eqn:Hr, (truthy cols) eqn:Hc; try discriminate.
    - exists (int_of rows), (ceil_div n (int_of rows)).
      split; [apply main_grid_rows_only; assumption |].
      pose proof (truthy_int_of rows Hor Hr).
      pose proof (ceil_div_spec n (int_of rows) ltac:(lia)). nia.
    - exists (ceil_div n (int_of cols)), (int_of cols).
      split; [apply main_grid_cols_only; assumption |].
      pose proof (truthy_int_of cols Hoc Hc).
      pose proof (ceil_div_spec n (int_of cols) ltac:(lia)). nia.
    - rewrite main_grid_auto by assumption.
      assert (Hmax : 1 <= n <= maxsize) by (unfold maxsize; lia).
      assert (Hrange : 1 <= n < 2 ^ 1023) by (apply maxsize_range, Hmax).
      destruct (choose_grid_auto_searched n page_w_pt page_h_pt margin_pt
                  gap_pt Hrange) as (st & Hrun & Hinv).
      destruct Hinv as [[-> _] | (rb & -> & _ & Hcb & _)]; cbn [fst] in Hrun.
      + exists 1, n. split; [exact Hrun | lia].
      + destruct Hcb as (Hrb & _).
        pose proof (ceil_div_spec n rb ltac:(lia)).
        exists rb, (ceil_div n rb). split; [exact Hrun | nia]. }
  destruct Hgrid as (r & c & Hg & Hroom).
  exists (r, c). unfold main_pages. rewrite Hg. cbn [bind fst snd].
  rewrite paginate_one_page by lia. cbn [bind]. split; [reflexivity | exact Hroom].
Qed.

(** ** More on the image locator *)

Section Found.

Variable input_dir : Directory.

Lemma insert_In (p q : Path.t) (l : list Path.t) :
  In p (Path.insert q l) <-> p = q \/ In p l.
Proof.
  induction l as [| r l IH]; cbn [Path.insert].
  - cbn. intuition congruence.
  - destruct (String.leb q r); cbn [In]; [intuition congruence |].
    rewrite IH. intuition congruence.
Qed.

Lemma sorted_In (p : Path.t) (l : list Path.t) :
  In p (Path.sorted l) <-> In p l.
Proof.
  unfold Path.sorted. induction l as [| q l IH]; cbn [fold_right In].
  - tauto.
  - rewrite insert_In, IH. intuition congruence.
Qed.

Lemma collected_In (iter_order : list string) (acc : list Path.t)
    (p : Path.t) :
  In p (fold_left
          (fun files ext =>
             (files ++ Path.sorted (glob input_dir ("*" ++ ext)))
               ++ Path.sorted (glob input_dir ("*" ++ Path.upper ext)))
          iter_order acc)
  <-> In p acc \/ exists ext, In ext iter_order /\ globbed input_dir ext p.
Proof.
  revert acc. induction iter_order as [| e l IH]; intros acc; cbn [fold_left].
  - split; [tauto | intros [H | (ext & [] & _)]; exact H].
  - rewrite IH, !in_app_iff, !sorted_In. unfold globbed. split.
    + intros [[[H | H] | H] | (ext & Hin & Hg)].
      * left; exact H.
      * right. exists e. split; [left; reflexivity | left; exact H].
      * right. exists e. split; [left; reflexivity | right; exact H].
      * right. exists ext. split; [right; exact Hin | exact Hg].
    + intros [H | (ext & [<- | Hin] & Hg)].
      * left; left; left; exact H.
      * destruct Hg as [H | H]; left; [left; right | right]; exact H.
      * right. exists ext. split; assumption.
Qed.

Lemma dedup_In (files out seen : list Path.t) (p : Path.t) :
  (forall q, In q seen <-> In q out) ->
  In p (fst (fold_left (dedup_step input_dir) files (out, seen)))
  <-> In p out \/ (In p files /\ accepted input_dir p = true).
Proof.
  revert out seen. induction files as [| f files IH]; intros out seen Hs.
  - cbn. tauto.
  - cbn [fold_left].
    replace (dedup_step input_dir (out, seen) f)
      with (if accepted input_dir f && negb (Path.mem f seen)
            then (out ++ [f], f :: seen) else (out, seen))
      by reflexivity.
    destruct (accepted input_dir f) eqn:Ef; cbn [andb].
    + destruct (Path.mem f seen) eqn:Em; cbn [negb].
      * rewrite (IH out seen Hs). apply mem_In in Em. apply Hs in Em.
        cbn [In]. split.
        -- intros [H | [H1 H2]]; [left; exact H | right; tauto].
        -- intros [H | [[<- | H1] H2]]; [tauto | tauto | right; tauto].
      * rewrite (IH (out ++ [f]) (f :: seen)).
        -- rewrite in_app_iff. cbn [In]. split.
           ++ intros [[H | [<- | []]] | [H1 H2]]; tauto.
           ++ intros [H | [[<- | H1] H2]]; tauto.
        -- intros q. rewrite in_app_iff. cbn [In]. rewrite Hs. tauto.
    + rewrite (IH out seen Hs). cbn [In]. split.
      * intros [H | [H1 H2]]; tauto.
      * intros [H | [[<- | H1] H2]]; [tauto | congruence | tauto].
Qed.

Lemma find_images_In (iter_order : list string) (p : Path.t) :
  In p (find_images iter_order input_dir)
  <-> (exists ext, In ext iter_order /\ globbed input_dir ext p)
      /\ accepted input_dir p = true.
Proof.
  unfold find_images.
  match goal with
  | |- In p (let '(o, _) := fold_left _ ?l _ in o) <-> _ =>
      change (In p (fst (fold_left (dedup_step input_dir) l ([], [])))
              <-> (exists ext, In ext iter_order /\ globbed input_dir ext p)
                  /\ accepted input_dir p = true)
  end.
  rewrite dedup_In by tauto. rewrite collected_In. cbn [In]. tauto.
Qed.

End Found.

(** X12. What [find_images] returns, as a set: a path is in the result
    exactly when one of the two glob patterns of some extension of the
    iteration (the extension as written, or in upper case) lists it, it
    exists, and its lower-cased suffix is a supported extension. *)
Theorem find_images_membership
    (iter_order : list string) (input_dir : Directory) (p : Path.t) :
  In p (find_images iter_order input_dir)
  <-> (exists ext,
         In ext iter_order
         /\ (In p (glob input_dir ("*" ++ ext))
             \/ In p (glob input_dir ("*" ++ Path.upper ext))))
      /\ exists_ input_dir p = true
      /\ Path.mem (Path.lower (Path.suffix p)) IMG_EXTS = true.
Proof.
  rewrite find_images_In. unfold globbed, accepted.
  rewrite andb_true_iff. tauto.
Qed.

(** X13. The iteration order of the extension set changes the order of
    the result only: two runs that visit the same extensions in two orders
    return permutations of each other. *)
Theorem find_images_permutation
    (order1 order2 : list string) (input_dir : Directory) :
  Permutation order1 order2 ->
  Permutation (find_images order1 input_dir) (find_images order2 input_dir).
Proof.
  intros Hperm. apply NoDup_Permutation; try apply find_images_NoDup.
  intros p. rewrite !find_images_In. split.
  - intros [(ext & Hin & Hg) Hacc]. split; [| exact Hacc].
    exists ext. split; [| exact Hg].
    apply (Permutation_in _ Hperm), Hin.
  - intros [(ext & Hin & Hg) Hacc]. split; [| exact Hacc].
    exists ext. split; [| exact Hg].
    apply (Permutation_in _ (Permutation_sym Hperm)), Hin.
Qed.

Lemma find_images_permutation_rev :
  Permutation (find_images IMG_EXTS two_files)
              (find_images (rev IMG_EXTS) two_files).
Proof.
  apply (find_images_permutation IMG_EXTS (rev IMG_EXTS) two_files).
  apply Permutation_rev.
Defined.

(** ** File names: suffix and stem *)

Section Names.

Local Open Scope string_scope.
Local Open Scope nat_scope.

Lemma substring_full (s : string) : substring 0 (String.length s) s = s.
Proof. induction s as [| c s IH]; cbn; [reflexivity | now rewrite IH]. Qed.

Lemma split_at (s : string) (i : nat) :
  i <= String.length s ->
  substring 0 i s ++ substring i (String.length s - i) s = s.
Proof.
  revert i. induction s as [| c s IH]; intros i Hi.
  - cbn in Hi. assert (i = 0) by lia. subst. reflexivity.
  - destruct i as [| i].
    + cbn [substring append]. cbn [String.length Nat.sub].
      now rewrite substring_full.
    + cbn [substring append String.length Nat.sub].
      rewrite IH by (cbn in Hi; lia). reflexivity.
Qed.

Lemma length_app (a b : string) :
  String.length (a ++ b) = String.length a + String.length b.
Proof. induction a as [| c a IH]; cbn; [reflexivity | now rewrite IH]. Qed.


Lemma rfind_dot_bound (s : string) (i : nat) :
  Path.rfind_dot s = Some i -> i < String.length s.
Proof.
  revert i. induction s as [| c s IH]; intros i; cbn [Path.rfind_dot].
  - discriminate.
  - destruct (Path.rfind_dot s) as [j |].
    + intros [= <-]. specialize (IH j eq_refl). cbn. lia.
    + destruct (Ascii.eqb c "."); [| discriminate].
      intros [= <-]. cbn. lia.
Qed.





Lemma stem_suffix (name : string) : stem name ++ Path.suffix name = name.
Proof.
  unfold stem, Path.suffix.
  destruct (Path.rfind_dot name) as [i |] eqn:Hdot.
  - destruct ((0 <? i) && (i <? String.length name - 1)).
    + apply split_at. apply rfind_dot_bound in Hdot. lia.
    + clear. induction name; cbn; congruence.
  - clear. induction name; cbn; congruence.
Qed.

Lemma stem_nonempty (name : string) : name <> "" -> stem name <> "".
Proof.
  intros Hne. unfold stem.
  destruct (Path.rfind_dot name) as [i |] eqn:Hdot; [| exact Hne].
  destruct (Nat.ltb_spec 0 i) as [Hi | _]; cbn [andb]; [| exact Hne].
  destruct (i <? String.length name - 1); [| exact Hne].
  destruct name as [| c name]; [contradiction |].
  destruct i as [| i]; [lia |]. cbn [substring]. discriminate.
Qed.

End Names.

(** X14. [stem] and [suffix] cut a file name in two: the name is the stem
    followed by the suffix, the stem of a non-empty name is not empty, and
    the suffix is empty or starts at the last dot of the name. *)
Theorem stem_suffix_split (name : Path.t) :
  (stem name ++ Path.suffix name)%string = name
  /\ (name <> EmptyString -> stem name <> EmptyString)
  /\ (Path.suffix name = EmptyString
      \/ Path.rfind_dot (Path.suffix name) = Some 0%nat).
Proof.
  split; [apply stem_suffix | split; [apply stem_nonempty |]].
  unfold Path.suffix.
  destruct (Path.rfind_dot name) as [i |] eqn:Hdot; [| left; reflexivity].
  destruct ((0 <? i)%nat && (i <? String.length name - 1)%nat);
    [| left; reflexivity].
  right. revert i Hdot. induction name as [| c name IH]; intros i.
  - discriminate.
  - cbn [Path.rfind_dot]. destruct (Path.rfind_dot name) as [j |] eqn:Hj.
    + intros [= <-]. cbn [String.length Nat.sub substring].
      apply IH. reflexivity.
    + destruct (Ascii.eqb c ".") eqn:Hc; [| discriminate].
      intros [= <-]. cbn [String.length Nat.sub substring].
      rewrite substring_full. cbn [Path.rfind_dot]. rewrite Hj, Hc.
      reflexivity.
Qed.

Lemma stem_suffix_split_photo :
  stem "photo.jpg"%string <> EmptyString.
Proof.
  apply (stem_suffix_split "photo.jpg"%string). discriminate.
Defined.

(** ** The locator on a case-sensitive file system *)






(** ** The page renderer *)

Section Renderer.

Variable decode : Path.t -> result Image.
Variable exif_transpose : Image -> result Image.
Variables rows cols : Z.
Variables gap_pt cell_w cell_h x0 y0 : float.
Variables uniform_orient labels order : string.

Local Abbreviation body :=
  (draw_image decode exif_transpose rows cols gap_pt cell_w cell_h x0 y0
     uniform_orient labels order).

Local Abbreviation drawn :=
  (drawn_as decode exif_transpose rows cols gap_pt cell_w cell_h x0 y0
     uniform_orient labels order).

(** What one turn of the loop appends. *)
Lemma draw_image_inv (done done' : list placement) (idx : Z) (p : Path.t) :
  body done (idx, p) = Ok done' ->
  exists pl, done' = done ++ [pl] /\ drawn (idx, p) pl.
Proof.
  unfold draw_image.
  destruct (index_to_cell idx rows cols order) as [[r c] | ?] eqn:Hrc;
    [| discriminate].
  cbn [bind].
  destruct (float_of_int c) as [cf | ?] eqn:Hcf; [| discriminate].
  cbn [bind].
  destruct (float_of_int r) as [rf | ?] eqn:Hrf; [| discriminate].
  cbn [bind].
  destruct (decode p) as [im | ?] eqn:Him; [| discriminate]. cbn [bind].
  destruct (thumbnail_box cell_w cell_h
              (unify_orientation (normalize_exif exif_transpose im)
                 uniform_orient)) as [bx | ?] eqn:Hbox; [| discriminate].
  cbn [bind]. intros [= <-].
  eexists. split; [reflexivity |].
  unfold drawn_as. cbn [shown cell label box corner fst snd].
  split; [reflexivity |]. split; [exact Hrc |]. split; [reflexivity |].
  split.
  - exists im. split; [exact Him | exact Hbox].
  - exists cf, rf. split; [exact Hcf |]. split; [exact Hrf | reflexivity].
Qed.

(** The loop over [enumerate(images)], started at index [k]. *)
Lemma draw_loop_inv (images : list Path.t) (k : nat)
    (done done' : list placement) :
  for_each body
    (combine (map Z.of_nat (seq k (List.length images))) images) done
  = Ok done' ->
  exists new,
    done' = done ++ new
    /\ Forall2 drawn
         (combine (map Z.of_nat (seq k (List.length images))) images) new.
Proof.
  revert k done. induction images as [| p images IH]; intros k done.
  - cbn. intros [= <-]. exists []. rewrite app_nil_r. split; constructor.
  - cbn [List.length seq map combine for_each].
    destruct (body done (Z.of_nat k, p)) as [d1 |] eqn:Hstep;
      [| discriminate].
    cbn [bind]. intros Hrest.
    destruct (draw_image_inv _ _ _ _ Hstep) as (pl & -> & Hpl).
    destruct (IH _ _ Hrest) as (new & -> & Hall).
    exists (pl :: new). rewrite <- app_assoc. split; [reflexivity |].
    constructor; assumption.
Qed.

End Renderer.

Lemma index_to_cell_inj (rows cols : Z) (order : string) (i j : Z)
    (rc : Z * Z) :
  1 <= rows -> 1 <= cols ->
  index_to_cell i rows cols order = Ok rc ->
  index_to_cell j rows cols order = Ok rc ->
  i = j.
Proof.
  intros Hr Hc.
  destruct (String.eqb_spec order "film-bottom-up") as [-> | Hne].
  - rewrite !film_order_eq by assumption. intros [= <-] [= Hm Hd].
    apply (divmod_inj rows); [assumption | congruence | lia].
  - rewrite !reading_order_eq by assumption. intros [= <-] [= Hd Hm].
    apply (divmod_inj cols); [assumption | congruence | congruence].
Qed.

Lemma index_to_cell_in_grid (rows cols : Z) (order : string) (idx : Z)
    (rc : Z * Z) :
  1 <= rows -> 1 <= cols -> 0 <= idx < rows * cols ->
  index_to_cell idx rows cols order = Ok rc ->
  in_grid rows cols rc.
Proof.
  intros Hr Hc Hidx. unfold in_grid.
  destruct (String.eqb_spec order "film-bottom-up") as [-> | Hne].
  - rewrite film_order_eq by assumption. intros [= <-]. cbn [fst snd].
    destruct (divmod_in_range rows cols idx Hr ltac:(lia)). lia.
  - rewrite reading_order_eq by assumption. intros [= <-]. cbn [fst snd].
    destruct (divmod_in_range cols rows idx Hc ltac:(lia)). lia.
Qed.

(** From the loop invariant to positions in the two lists. *)
Lemma enumerated_nth {A B : Type} (P : Z * A -> B -> Prop) (l : list A)
    (k : nat) (ps : list B) :
  Forall2 P (combine (map Z.of_nat (seq k (List.length l))) l) ps ->
  List.length ps = List.length l
  /\ forall i b, nth_error ps i = Some b ->
       exists a, nth_error l i = Some a /\ P (Z.of_nat (k + i), a) b.
Proof.
  revert k ps. induction l as [| a l IH]; intros k ps H.
  - cbn in H. inversion H. split; [reflexivity |].
    intros [| i] b; discriminate.
  - cbn [List.length seq map combine] in H.
    inversion H as [| ? b0 ? ps' Hb Hrest]; subst.
    destruct (IH _ _ Hrest) as [Hlen Hnth].
    split; [cbn; now rewrite Hlen |].
    intros [| i] b; cbn [nth_error].
    + intros [= <-]. exists a. rewrite Nat.add_0_r.
      split; [reflexivity | exact Hb].
    + intros Hi. destruct (Hnth i b Hi) as (a' & Ha' & HP).
      exists a'. split; [exact Ha' |].
      replace (k + S i)%nat with (S k + i)%nat by lia. exact HP.
Qed.

Section Page.

Variable decode : Path.t -> result Image.
Variable exif_transpose : Image -> result Image.
Variable images : list Path.t.
Variables rows cols : Z.
Variables margin_pt gap_pt page_w_pt page_h_pt : float.
Variables uniform_orient labels order : string.

Local Abbreviation the_page :=
  (draw_page decode exif_transpose images rows cols margin_pt gap_pt
     page_w_pt page_h_pt uniform_orient labels order).

(** A drawn page, position by position. *)
Lemma draw_page_positions (ps : list placement) :
  the_page = Ok ps ->
  exists cell_w cell_h x0 y0,
    List.length ps = List.length images
    /\ forall i pl, nth_error ps i = Some pl ->
         exists p,
           nth_error images i = Some p
           /\ drawn_as decode exif_transpose rows cols gap_pt cell_w cell_h
                x0 y0 uniform_orient labels order (Z.of_nat i, p) pl.
Proof.
  unfold draw_page.
  destruct (float_of_int (cols - 1)) as [c1 | ?]; [| discriminate].
  cbn [bind].
  destruct (float_of_int cols) as [cf | ?]; [| discriminate]. cbn [bind].
  destruct (fdiv _ cf) as [cw | ?]; [| discriminate]. cbn [bind].
  destruct (float_of_int (rows - 1)) as [r1 | ?]; [| discriminate].
  cbn [bind].
  destruct (float_of_int rows) as [rf | ?]; [| discriminate]. cbn [bind].
  destruct (fdiv _ rf) as [ch | ?]; [| discriminate]. cbn [bind].
  intros Hloop. unfold enumerate in Hloop.
  destruct (draw_loop_inv _ _ _ _ _ _ _ _ _ _ _ _ _ _ _ _ Hloop)
    as (new & -> & Hall).
  cbn [app]. apply enumerated_nth in Hall. destruct Hall as [Hlen Hnth].
  eexists cw, ch, _, _. split; [exact Hlen |]. exact Hnth.
Qed.

End Page.

Lemma draw_page_shown (decode : Path.t -> result Image)
    (exif_transpose : Image -> result Image)
    (images : list Path.t) (rows cols : Z)
    (margin_pt gap_pt page_w_pt page_h_pt : float)
    (uniform_orient labels order : string) (ps : list placement) :
  draw_page decode exif_transpose images rows cols margin_pt gap_pt
    page_w_pt page_h_pt uniform_orient labels order = Ok ps ->
  map shown ps = images.
Proof.
  intros Hpage.
  destruct (draw_page_positions _ _ _ _ _ _ _ _ _ _ _ _ _ Hpage)
    as (cw & ch & x0 & y0 & Hlen & Hnth).
  apply nth_error_ext. intros i. rewrite nth_error_map.
  destruct (nth_error ps i) as [pl |] eqn:Hi; cbn [option_map].
  - destruct (Hnth i pl Hi) as (p & Hp & Hs & _). cbn [snd] in Hs.
    congruence.
  - symmetry. apply nth_error_None. apply nth_error_None in Hi. lia.
Qed.

(** X16. A page that is drawn shows every picture it was given, once and
    in the given order: the picture at position [i] goes to the cell
    [index_to_cell i], carries the caption of its own file name, and was
    decoded; so one picture that cannot be decoded leaves no page at all. *)
Theorem draw_page_layout (decode : Path.t -> result Image)
    (exif_transpose : Image -> result Image)
    (images : list Path.t) (rows cols : Z)
    (margin_pt gap_pt page_w_pt page_h_pt : float)
    (uniform_orient labels order : string) (ps : list placement) :
  draw_page decode exif_transpose images rows cols margin_pt gap_pt
    page_w_pt page_h_pt uniform_orient labels order = Ok ps ->
  map shown ps = images
  /\ (forall i pl, nth_error ps i = Some pl ->
        index_to_cell (Z.of_nat i) rows cols order = Ok (cell pl)
        /\ label pl = caption labels (shown pl))
  /\ Forall (fun p => exists im, decode p = Ok im) images.
Proof.
  intros Hpage.
  destruct (draw_page_positions _ _ _ _ _ _ _ _ _ _ _ _ _ Hpage)
    as (cw & ch & x0 & y0 & Hlen & Hnth).
  split; [| split].
  - exact (draw_page_shown _ _ _ _ _ _ _ _ _ _ _ _ _ Hpage).
  - intros i pl Hi. destruct (Hnth i pl Hi) as (p & _ & Hs & Hc & Hl & _).
    cbn [fst snd] in *. rewrite Hs. split; assumption.
  - apply Forall_forall. intros p Hin.
    apply In_nth_error in Hin. destruct Hin as (i & Hi).
    destruct (nth_error ps i) as [pl |] eqn:Hpl.
    + destruct (Hnth i pl Hpl) as (p' & Hp' & _ & _ & _ & (im & Hd & _) & _).
      cbn [snd] in Hd. exists im. congruence.
    + apply nth_error_None in Hpl.
      assert (Hsome : nth_error images i <> None) by congruence.
      apply nth_error_Some in Hsome. lia.
Qed.

Lemma draw_page_layout_strip :
  map shown
    [ {| shown := "a.jpg"%string; cell := (1, 0); corner := (10, 10)%float;
         box := (200, 150);
         label := Some "a"%string |};
      {| shown := "b.jpg"%string; cell := (0, 0); corner := (10, 321.5)%float;
         box := (200, 150);
         label := Some "b"%string |} ]
  = ["a.jpg"; "b.jpg"]%string.
Proof.
  apply (draw_page_layout (fun _ => Ok (mkImage 4000 3000 0)) Ok
           ["a.jpg"; "b.jpg"]%string 2 1 10 11 220 632 "none" "index"
           "film-bottom-up").
  vm_compute. reflexivity.
Defined.

(** X17. On a grid with at least one row and one column no two pictures
    of a page share a cell, and when the pictures are no more than the
    cells, every picture lies inside the grid. *)
Theorem draw_page_cells (decode : Path.t -> result Image)
    (exif_transpose : Image -> result Image)
    (images : list Path.t) (rows cols : Z)
    (margin_pt gap_pt page_w_pt page_h_pt : float)
    (uniform_orient labels order : string) (ps : list placement) :
  1 <= rows -> 1 <= cols ->
  draw_page decode exif_transpose images rows cols margin_pt gap_pt
    page_w_pt page_h_pt uniform_orient labels order = Ok ps ->
  NoDup (map cell ps)
  /\ (Z.of_nat (List.length images) <= rows * cols ->
      Forall (fun pl => in_grid rows cols (cell pl)) ps).
Proof.
  intros Hr Hc Hpage.
  destruct (draw_page_positions _ _ _ _ _ _ _ _ _ _ _ _ _ Hpage)
    as (cw & ch & x0 & y0 & Hlen & Hnth).
  split.
  - apply NoDup_nth_error. intros i j Hi. rewrite !nth_error_map.
    rewrite length_map in Hi.
    destruct (nth_error ps i) as [pi |] eqn:Hpi;
      [| apply nth_error_None in Hpi; lia].
    destruct (nth_error ps j) as [pj |] eqn:Hpj; [| discriminate].
    cbn [option_map]. intros [= Hcell].
    destruct (Hnth i pi Hpi) as (qi & _ & _ & Hci & _).
    destruct (Hnth j pj Hpj) as (qj & _ & _ & Hcj & _).
    cbn [fst] in Hci, Hcj. rewrite <- Hcell in Hcj.
    pose proof (index_to_cell_inj rows cols order _ _ _ Hr Hc Hci Hcj).
    lia.
  - intros Hroom. apply Forall_forall. intros pl Hin.
    apply In_nth_error in Hin. destruct Hin as (i & Hi).
    destruct (Hnth i pl Hi) as (q & _ & _ & Hci & _). cbn [fst] in Hci.
    assert (Hlt : (i < List.length ps)%nat)
      by (apply nth_error_Some; congruence).
    apply (index_to_cell_in_grid rows cols order (Z.of_nat i));
      [assumption | assumption | lia | exact Hci].
Qed.

Lemma draw_page_cells_strip :
  NoDup (map cell
    [ {| shown := "a.jpg"%string; cell := (1, 0); corner := (10, 10)%float;
         box := (200, 150);
         label := Some "a"%string |};
      {| shown := "b.jpg"%string; cell := (0, 0); corner := (10, 321.5)%float;
         box := (200, 150);
         label := Some "b"%string |} ]).
Proof.
  apply (draw_page_cells (fun _ => Ok (mkImage 4000 3000 0)) Ok
           ["a.jpg"; "b.jpg"]%string 2 1 10 11 220 632 "none" "index"
           "film-bottom-up"); [lia | lia |].
  vm_compute. reflexivity.
Defined.

(** X18. A grid without columns, or without rows, cannot be drawn: the
    cell size divides by the count and [ZeroDivisionError] is raised before
    any picture is opened, even when the page has no picture to show. *)
Theorem draw_page_zero_grid (decode : Path.t -> result Image)
    (exif_transpose : Image -> result Image)
    (images : list Path.t) (rows cols : Z)
    (margin_pt gap_pt page_w_pt page_h_pt : float)
    (uniform_orient labels order : string) :
  cols = 0 \/ (rows = 0 /\ 1 <= cols < 2 ^ 53) ->
  draw_page decode exif_transpose images rows cols margin_pt gap_pt
    page_w_pt page_h_pt uniform_orient labels order
  = Raise ZeroDivisionError.
Proof.
  intros [-> | [-> Hc]]; unfold draw_page.
  - reflexivity.
  - assert (Hc1 : exists f, float_of_int (cols - 1) = Ok f).
    { destruct (Z.eq_dec cols 1) as [-> | Hne].
      - eexists. reflexivity.
      - exists (to_float (cols - 1)). apply float_of_int_exact. lia. }
    destruct Hc1 as (c1 & ->). cbn [bind].
    destruct (float_of_int_exact cols ltac:(lia)) as [-> _]. cbn [bind].
    unfold fdiv at 1. rewrite to_float_not_zero by lia. cbn [bind].
    reflexivity.
Qed.

Lemma draw_page_zero_grid_empty :
  draw_page (fun _ => Ok (mkImage 4000 3000 0)) Ok [] 0 4 10 11 220 632
    "none" "index" "film-bottom-up"
  = Raise ZeroDivisionError.
Proof.
  apply (draw_page_zero_grid (fun _ => Ok (mkImage 4000 3000 0)) Ok [] 0 4
           10 11 220 632 "none" "index" "film-bottom-up").
  right. split; [reflexivity | split; [lia | reflexivity]].
Defined.

(** *** Orientation of the boxes *)

Lemma thumbnail_box_orient (cell_w cell_h : float) (im : Image) (bx : Z * Z) :
  pil_image im ->
  thumbnail_box cell_w cell_h im = Ok bx ->
  (width im <= height im -> fst bx <= snd bx)
  /\ (height im <= width im -> snd bx <= fst bx).
Proof.
  intros [Hw Hh] Hbox. destruct bx as [nw nh].
  assert (H31 : 2 ^ 31 < 2 ^ 53) by (apply Z.pow_lt_mono_r; lia).
  destruct (thumbnail_box_inv cell_w cell_h im nw nh
              ltac:(lia) ltac:(lia) Hbox) as (scale & a & b & Ha & Hb & -> & ->).
  cbn [fst snd]. split; intros Hle.
  - apply (scaled_lengths_mono (width im) (height im) a b scale);
      try assumption; lia.
  - apply (scaled_lengths_mono (height im) (width im) b a scale);
      try assumption; lia.
Qed.

Lemma unify_orientation_pil (im : Image) (mode : string) :
  pil_image im -> pil_image (unify_orientation im mode).
Proof.
  intros [Hw Hh]. unfold unify_orientation, size.
  destruct (String.eqb mode "none"); [split; assumption |].
  destruct (String.eqb mode "portrait" && negb (height im >=? width im));
    [split; assumption |].
  destruct (String.eqb mode "landscape" && (height im >=? width im));
    split; assumption.
Qed.

(** X19. With [--uniform-orient portrait] every box of a drawn page is at
    least as tall as wide, and with [landscape] at least as wide as tall,
    whatever the pictures and the cell size. *)
Theorem draw_page_uniform (decode : Path.t -> result Image)
    (exif_transpose : Image -> result Image)
    (images : list Path.t) (rows cols : Z)
    (margin_pt gap_pt page_w_pt page_h_pt : float)
    (uniform_orient labels order : string) (ps : list placement) :
  (forall p im, decode p = Ok im ->
     pil_image (normalize_exif exif_transpose im)) ->
  draw_page decode exif_transpose images rows cols margin_pt gap_pt
    page_w_pt page_h_pt uniform_orient labels order = Ok ps ->
  (uniform_orient = "portrait"%string ->
   Forall (fun pl => fst (box pl) <= snd (box pl)) ps)
  /\ (uniform_orient = "landscape"%string ->
      Forall (fun pl => snd (box pl) <= fst (box pl)) ps).
Proof.
  intros Hpil Hpage.
  destruct (draw_page_positions _ _ _ _ _ _ _ _ _ _ _ _ _ Hpage)
    as (cw & ch & x0 & y0 & Hlen & Hnth).
  assert (Hbox : forall pl, In pl ps ->
            exists im,
              pil_image im
              /\ thumbnail_box cw ch (unify_orientation im uniform_orient)
                 = Ok (box pl)).
  { intros pl Hin. apply In_nth_error in Hin. destruct Hin as (i & Hi).
    destruct (Hnth i pl Hi) as (p & _ & _ & _ & _ & (im & Hd & Hb) & _).
    cbn [snd] in Hd. exists (normalize_exif exif_transpose im).
    split; [apply (Hpil p), Hd | exact Hb]. }
  split; intros Hmode; apply Forall_forall; intros pl Hin;
    destruct (Hbox pl Hin) as (im & Him & Hb);
    pose proof (unify_orientation_pil im uniform_orient Him) as Hpil';
    destruct (thumbnail_box_orient _ _ _ _ Hpil' Hb) as [Htall Hwide];
    rewrite Hmode in *.
  - apply Htall. rewrite unify_orientation_portrait.
    destruct (Z.ltb_spec (height im) (width im)); cbn [rotate width height];
      lia.
  - apply Hwide. rewrite unify_orientation_landscape.
    destruct (Z.leb_spec (width im) (height im)); cbn [rotate width height];
      lia.
Qed.

Lemma draw_page_uniform_strip :
  Forall (fun pl => fst (box pl) <= snd (box pl))
    [ {| shown := "a.jpg"%string; cell := (1, 0); corner := (10, 10)%float;
         box := (200, 266);
         label := Some "a"%string |};
      {| shown := "b.jpg"%string; cell := (0, 0); corner := (10, 321.5)%float;
         box := (200, 266);
         label := Some "b"%string |} ].
Proof.
  apply (draw_page_uniform (fun _ => Ok (mkImage 4000 3000 0)) Ok
           ["a.jpg"; "b.jpg"]%string 2 1 10 11 220 632 "portrait" "index"
           "film-bottom-up").
  - intros p im [= <-]. vm_compute. repeat split; reflexivity.
  - vm_compute. reflexivity.
  - reflexivity.
Defined.

(** X20. The corner of a cell depends on the cell alone: two pictures of
    one column start at the same abscissa, two pictures of one row at the
    same ordinate. *)
Theorem draw_page_aligned (decode : Path.t -> result Image)
    (exif_transpose : Image -> result Image)
    (images : list Path.t) (rows cols : Z)
    (margin_pt gap_pt page_w_pt page_h_pt : float)
    (uniform_orient labels order : string) (ps : list placement)
    (pl1 pl2 : placement) :
  draw_page decode exif_transpose images rows cols margin_pt gap_pt
    page_w_pt page_h_pt uniform_orient labels order = Ok ps ->
  In pl1 ps -> In pl2 ps ->
  (snd (cell pl1) = snd (cell pl2) -> fst (corner pl1) = fst (corner pl2))
  /\ (fst (cell pl1) = fst (cell pl2) -> snd (corner pl1) = snd (corner pl2)).
Proof.
  intros Hpage Hin1 Hin2.
  destruct (draw_page_positions _ _ _ _ _ _ _ _ _ _ _ _ _ Hpage)
    as (cw & ch & x0 & y0 & Hlen & Hnth).
  apply In_nth_error in Hin1, Hin2.
  destruct Hin1 as (i & Hi), Hin2 as (j & Hj).
  destruct (Hnth i pl1 Hi)
    as (p1 & _ & _ & _ & _ & _ & (c1 & r1 & Hc1 & Hr1 & ->)).
  destruct (Hnth j pl2 Hj)
    as (p2 & _ & _ & _ & _ & _ & (c2 & r2 & Hc2 & Hr2 & ->)).
  cbn [fst snd]. split; intros Heq.
  - rewrite Heq in Hc1. congruence.
  - rewrite Heq in Hr1. congruence.
Qed.

Lemma draw_page_aligned_strip :
  fst (corner {| shown := "a.jpg"%string; cell := (1, 0);
                 corner := (10, 10)%float; box := (200, 150);
                 label := Some "a"%string |})
  = fst (corner {| shown := "b.jpg"%string; cell := (0, 0);
                   corner := (10, 321.5)%float; box := (200, 150);
                   label := Some "b"%string |}).
Proof.
  apply (draw_page_aligned (fun _ => Ok (mkImage 4000 3000 0)) Ok
           ["a.jpg"; "b.jpg"]%string 2 1 10 11 220 632 "none" "index"
           "film-bottom-up"
           [ {| shown := "a.jpg"%string; cell := (1, 0);
                corner := (10, 10)%float; box := (200, 150);
                label := Some "a"%string |};
             {| shown := "b.jpg"%string; cell := (0, 0);
                corner := (10, 321.5)%float; box := (200, 150);
                label := Some "b"%string |} ]).
  - vm_compute. reflexivity.
  - left. reflexivity.
  - right. left. reflexivity.
  - reflexivity.
Defined.

(** *** Captions *)

Lemma caption_other (labels : string) (p : Path.t) :
  labels <> "index"%string -> labels <> "name"%string ->
  caption labels p = None.
Proof.
  intros Hi Hn. unfold caption.
  destruct (String.eqb labels "none"); [reflexivity |]. cbn [negb].
  destruct (String.eqb_spec labels "index"); [contradiction |].
  destruct (String.eqb_spec labels "name"); [contradiction |].
  reflexivity.
Qed.

Lemma found_suffix (iter_order : list string) (input_dir : Directory)
    (p : Path.t) :
  In p (find_images iter_order input_dir) ->
  Path.suffix p <> EmptyString.
Proof.
  intros Hin. apply find_images_In in Hin. destruct Hin as [_ Hacc].
  unfold accepted in Hacc. apply andb_true_iff in Hacc.
  destruct Hacc as [_ Hsupp]. intros E. rewrite E in Hsupp. discriminate.
Qed.

(** X21. Every picture the locator returns gets a caption when captions
    are asked for: its stem with [--labels index], its whole name with
    [--labels name], and the two differ, because a found name has a suffix.
    Any other value of [labels] draws no caption. *)
Theorem caption_of_found (iter_order : list string) (input_dir : Directory)
    (p : Path.t) (labels : string) :
  In p (find_images iter_order input_dir) ->
  caption "index" p = Some (stem p)
  /\ caption "name" p = Some p
  /\ stem p <> p
  /\ (labels <> "index"%string -> labels <> "name"%string ->
      caption labels p = None).
Proof.
  intros Hin. pose proof (found_suffix _ _ _ Hin) as Hsuf.
  assert (Hp : p <> EmptyString).
  { intros ->. apply Hsuf. reflexivity. }
  pose proof (stem_nonempty p Hp) as Hstem.
  split; [| split; [| split]].
  - unfold caption. cbn [String.eqb Ascii.eqb Bool.eqb negb].
    destruct (stem p); [contradiction | reflexivity].
  - unfold caption. cbn [String.eqb Ascii.eqb Bool.eqb negb].
    destruct p; [contradiction | reflexivity].
  - intros E. pose proof (stem_suffix p) as Hsplit. rewrite E in Hsplit.
    apply Hsuf. apply (f_equal String.length) in Hsplit.
    rewrite length_app in Hsplit.
    destruct (Path.suffix p); [reflexivity | cbn in Hsplit; lia].
  - apply caption_other.
Qed.

Lemma caption_of_found_b :
  caption "index" "b.jpg"%string = Some (stem "b.jpg"%string)
  /\ caption "name" "b.jpg"%string = Some "b.jpg"%string
  /\ stem "b.jpg"%string <> "b.jpg"%string
  /\ ("Index"%string <> "index"%string -> "Index"%string <> "name"%string ->
      caption "Index" "b.jpg"%string = None).
Proof.
  apply (caption_of_found IMG_EXTS two_files "b.jpg"%string "Index").
  vm_compute. left. reflexivity.
Defined.

(** *** EXIF transposition *)

Lemma for_each_ext {S A : Type} (f g : S -> A -> result S) (l : list A)
    (s : S) :
  (forall s x, f s x = g s x) -> for_each f l s = for_each g l s.
Proof.
  intros Hfg. revert s. induction l as [| x l IH]; intros s; cbn.
  - reflexivity.
  - rewrite Hfg. destruct (g s x); cbn [bind]; [apply IH | reflexivity].
Qed.

(** X22. A failing EXIF step never stops a page: when
    [ImageOps.exif_transpose] raises, or finds nothing to transpose, the
    page is drawn exactly as if the step were not there. *)
Theorem exif_failure_harmless (decode : Path.t -> result Image)
    (exif_transpose : Image -> result Image)
    (images : list Path.t) (rows cols : Z)
    (margin_pt gap_pt page_w_pt page_h_pt : float)
    (uniform_orient labels order : string) :
  (forall im, exif_transpose im = Ok im
              \/ exists e, exif_transpose im = Raise e) ->
  draw_page decode exif_transpose images rows cols margin_pt gap_pt
    page_w_pt page_h_pt uniform_orient labels order
  = draw_page decode Ok images rows cols margin_pt gap_pt
      page_w_pt page_h_pt uniform_orient labels order.
Proof.
  intros Hexif.
  assert (Hnorm : forall im, normalize_exif exif_transpose im
                             = normalize_exif Ok im).
  { intros im. unfold normalize_exif.
    destruct (Hexif im) as [-> | (e & ->)]; reflexivity. }
  unfold draw_page.
  destruct (float_of_int (cols - 1)); [| reflexivity]. cbn [bind].
  destruct (float_of_int cols); [| reflexivity]. cbn [bind].
  destruct (fdiv _ _); [| reflexivity]. cbn [bind].
  destruct (float_of_int (rows - 1)); [| reflexivity]. cbn [bind].
  destruct (float_of_int rows); [| reflexivity]. cbn [bind].
  destruct (fdiv _ _); [| reflexivity]. cbn [bind].
  apply for_each_ext. intros s [idx p]. unfold draw_image.
  destruct (index_to_cell idx rows cols order) as [[r c] |]; [| reflexivity].
  cbn [bind].
  destruct (float_of_int c); [| reflexivity]. cbn [bind].
  destruct (float_of_int r); [| reflexivity]. cbn [bind].
  destruct (decode p) as [im |]; [| reflexivity]. cbn [bind].
  rewrite Hnorm. reflexivity.
Qed.

Lemma exif_failure_harmless_strip :
  draw_page (fun _ => Ok (mkImage 4000 3000 0)) (fun _ => Raise ValueError)
    ["a.jpg"; "b.jpg"]%string 2 1 10 11 220 632 "none" "index"
    "film-bottom-up"
  = draw_page (fun _ => Ok (mkImage 4000 3000 0)) Ok
      ["a.jpg"; "b.jpg"]%string 2 1 10 11 220 632 "none" "index"
      "film-bottom-up".
Proof.
  apply (exif_failure_harmless (fun _ => Ok (mkImage 4000 3000 0))
           (fun _ => Raise ValueError)).
  intros im. right. exists ValueError. reflexivity.
Defined.

(** ** The whole run *)

Lemma draw_pages_inv (draw : list Path.t -> result (list placement))
    (images : list Path.t) (pages : list (Z * Z))
    (sheets : list (list placement)) :
  draw_pages draw images pages = Ok sheets ->
  Forall2 (fun '(s, e) sheet => draw (slice images s e) = Ok sheet)
    pages sheets.
Proof.
  revert sheets. induction pages as [| [s e] pages IH]; intros sheets.
  - cbn. intros [= <-]. constructor.
  - cbn [draw_pages].
    destruct (draw (slice images s e)) as [sheet |] eqn:Hd; [| discriminate].
    cbn [bind].
    destruct (draw_pages draw images pages) as [rest |]; [| discriminate].
    cbn [bind]. intros [= <-]. constructor; [exact Hd | apply IH; reflexivity].
Qed.

Lemma main_pages_inv (n : Z) (rows cols : option Z)
    (page_w_pt page_h_pt margin_pt gap_pt : float)
    (grid : Z * Z) (per_page : Z) (pages : list (Z * Z)) :
  main_pages n rows cols page_w_pt page_h_pt margin_pt gap_pt
  = Ok (grid, per_page, pages) ->
  main_grid n rows cols page_w_pt page_h_pt margin_pt gap_pt = Ok grid
  /\ per_page = fst grid * snd grid
  /\ paginate n per_page = Ok pages.
Proof.
  unfold main_pages.
  destruct (main_grid n rows cols page_w_pt page_h_pt margin_pt gap_pt)
    as [g |]; [| discriminate].
  cbn [bind].
  destruct (paginate n (fst g * snd g)) as [ps |] eqn:Hp; [| discriminate].
  cbn [bind]. intros [= <- <- <-]. repeat split. exact Hp.
Qed.

Section Run.

Variable iter_order : list string.
Variable folder_ok : bool.
Variable input_dir : Directory.
Variable decode : Path.t -> result Image.
Variable exif_transpose : Image -> result Image.
Variables rows cols : option Z.
Variables page_w_pt page_h_pt margin_pt gap_pt : float.
Variables uniform_orient labels order : string.

Local Abbreviation run :=
  (main iter_order folder_ok input_dir decode exif_transpose rows cols
     page_w_pt page_h_pt margin_pt gap_pt uniform_orient labels order).

Local Abbreviation images := (find_images iter_order input_dir).

Local Abbreviation n := (Z.of_nat (List.length images)).

(** A run that ends normally went through every step. *)
Lemma main_done_inv (grid : Z * Z) (sheets : list (list placement)) :
  run = Done (grid, sheets) ->
  folder_ok = true
  /\ images <> []
  /\ exists pages,
       main_pages n rows cols page_w_pt page_h_pt margin_pt gap_pt
       = Ok (grid, fst grid * snd grid, pages)
       /\ draw_pages
            (fun page_imgs =>
               draw_page decode exif_transpose page_imgs
                 (fst grid) (snd grid) margin_pt gap_pt
                 page_w_pt page_h_pt uniform_orient labels order)
            images pages
          = Ok sheets.
Proof.
  unfold main. destruct folder_ok; cbn [negb]; [| discriminate].
  destruct images as [| p l] eqn:Himg; [discriminate |].
  destruct (main_pages (Z.of_nat (List.length (p :: l))) rows cols page_w_pt
              page_h_pt margin_pt gap_pt) as [[[g pp] pages] |] eqn:Hplan;
    [| discriminate].
  cbn [bind].
  destruct (draw_pages _ (p :: l) pages) as [sh |] eqn:Hdraw; [| discriminate].
  cbn [bind]. intros [= <- <-].
  split; [reflexivity |]. split; [discriminate |].
  exists pages. pose proof (main_pages_inv _ _ _ _ _ _ _ _ _ _ Hplan)
    as (_ & -> & _).
  split; [reflexivity | exact Hdraw].
Qed.

End Run.

Lemma paginate_zero (n : Z) : paginate n 0 = Raise ValueError.
Proof. reflexivity. Qed.

Lemma paginate_negative (n per_page : Z) :
  0 <= n -> per_page < 0 -> paginate n per_page = Ok [].
Proof.
  intros Hn Hp. apply range_empty; [lia |]. unfold range_length.
  destruct (Z.ltb_spec 0 per_page); [lia |].
  destruct (Z.ltb_spec n 0); [lia | reflexivity].
Qed.

Lemma Forall2_In_r {A B : Type} (R : A -> B -> Prop) (la : list A)
    (lb : list B) (b : B) :
  Forall2 R la lb -> In b lb -> exists a, In a la /\ R a b.
Proof.
  induction 1 as [| a b' la lb HR _ IH]; intros Hin.
  - destruct Hin.
  - destruct Hin as [<- | Hin].
    + exists a. split; [left; reflexivity | exact HR].
    + destruct (IH Hin) as (a' & Ha' & HR').
      exists a'. split; [right; exact Ha' | exact HR'].
Qed.

(** The sheets drawn for ranges that tile the list show the list. *)
Lemma sheets_show_slices (draw : list Path.t -> result (list placement))
    (images : list Path.t) (pages : list (Z * Z))
    (sheets : list (list placement)) :
  (forall imgs ps, draw imgs = Ok ps -> map shown ps = imgs) ->
  Forall2 (fun '(s, e) sheet => draw (slice images s e) = Ok sheet)
    pages sheets ->
  map (map shown) sheets = map (fun '(s, e) => slice images s e) pages.
Proof.
  intros Hdraw Hall. induction Hall as [| [s e] sheet pages sheets H _ IH].
  - reflexivity.
  - cbn [map]. rewrite IH, (Hdraw _ _ H). reflexivity.
Qed.

(** X23. A run that ends normally on a grid of positive capacity shows
    every image the locator found exactly once, in the order found, and
    every page holds between one picture and [rows * cols] pictures.  The
    only other normal end is a grid of negative capacity, which gives a
    document without pages. *)
Theorem main_shows_every_image
    (iter_order : list string) (folder_ok : bool) (input_dir : Directory)
    (decode : Path.t -> result Image)
    (exif_transpose : Image -> result Image)
    (rows cols : option Z)
    (page_w_pt page_h_pt margin_pt gap_pt : float)
    (uniform_orient labels order : string)
    (grid : Z * Z) (sheets : list (list placement)) :
  main iter_order folder_ok input_dir decode exif_transpose rows cols
    page_w_pt page_h_pt margin_pt gap_pt uniform_orient labels order
  = Done (grid, sheets) ->
  (0 < fst grid * snd grid
   /\ List.concat (map (map shown) sheets) = find_images iter_order input_dir
   /\ NoDup (List.concat (map (map shown) sheets))
   /\ Forall (fun sheet =>
                1 <= Z.of_nat (List.length sheet) <= fst grid * snd grid)
        sheets)
  \/ (fst grid * snd grid < 0 /\ sheets = []).
Proof.
  intros Hrun.
  destruct (main_done_inv _ _ _ _ _ _ _ _ _ _ _ _ _ _ _ _ Hrun)
    as (_ & _ & pages & Hplan & Hdraw).
  apply main_pages_inv in Hplan. destruct Hplan as (_ & _ & Hpag).
  set (images := find_images iter_order input_dir) in *.
  set (pp := fst grid * snd grid) in *.
  destruct (Z.lt_trichotomy pp 0) as [Hneg | [Hzero | Hpos]].
  - right. split; [exact Hneg |].
    rewrite paginate_negative in Hpag by lia.
    injection Hpag as <-. cbn in Hdraw. congruence.
  - rewrite Hzero, paginate_zero in Hpag. discriminate.
  - left. split; [exact Hpos |].
    destruct (paginate_tiles (Z.of_nat (List.length images)) pp
                ltac:(lia) ltac:(lia)) as (pages' & Hrun' & Ht & Hlen).
    assert (pages' = pages) by congruence. subst pages'.
    apply draw_pages_inv in Hdraw.
    assert (Hshown : List.concat (map (map shown) sheets) = images).
    { rewrite (sheets_show_slices
                 (fun imgs =>
                    draw_page decode exif_transpose imgs (fst grid)
                      (snd grid) margin_pt gap_pt page_w_pt page_h_pt
                      uniform_orient labels order)
                 images pages sheets);
        [| intros imgs ps; apply draw_page_shown | exact Hdraw].
      rewrite (tiles_slices images 0 _ pages Ht) by lia.
      rewrite Z.sub_0_r, Nat2Z.id. cbn [Z.to_nat skipn].
      apply firstn_all. }
    split; [exact Hshown |]. split.
    + rewrite Hshown. apply find_images_NoDup.
    + apply Forall_forall. intros sheet Hin.
      destruct (Forall2_In_r _ _ _ _ Hdraw Hin) as ([s e] & Hpg & Hsheet).
      pose proof (tiles_bounds _ _ _ s e Ht Hpg) as Hb.
      rewrite Forall_forall in Hlen. specialize (Hlen _ Hpg). cbn in Hlen.
      apply draw_page_shown in Hsheet.
      apply (f_equal (@List.length _)) in Hsheet.
      rewrite length_map in Hsheet.
      rewrite Hsheet, slice_length by lia. lia.
Qed.

Lemma main_shows_every_image_two :
  (0 < fst (1, 1) * snd (1, 1)
   /\ List.concat
        (map (map shown)
           [[ {| shown := "b.jpg"%string; cell := (0, 0);
                 corner := (10, 10)%float; box := (200, 266);
                 label := Some "b.jpg"%string |} ];
            [ {| shown := "a.png"%string; cell := (0, 0);
                 corner := (10, 10)%float; box := (200, 266);
                 label := Some "a.png"%string |} ]])
      = find_images IMG_EXTS two_files
   /\ NoDup
        (List.concat
           (map (map shown)
              [[ {| shown := "b.jpg"%string; cell := (0, 0);
                    corner := (10, 10)%float; box := (200, 266);
                    label := Some "b.jpg"%string |} ];
               [ {| shown := "a.png"%string; cell := (0, 0);
                    corner := (10, 10)%float; box := (200, 266);
                    label := Some "a.png"%string |} ]]))
   /\ Forall (fun sheet =>
                1 <= Z.of_nat (List.length sheet) <= fst (1, 1) * snd (1, 1))
        [[ {| shown := "b.jpg"%string; cell := (0, 0);
              corner := (10, 10)%float; box := (200, 266);
              label := Some "b.jpg"%string |} ];
         [ {| shown := "a.png"%string; cell := (0, 0);
              corner := (10, 10)%float; box := (200, 266);
              label := Some "a.png"%string |} ]])
  \/ (fst (1, 1) * snd (1, 1) < 0
      /\ [[ {| shown := "b.jpg"%string; cell := (0, 0);
               corner := (10, 10)%float; box := (200, 266);
               label := Some "b.jpg"%string |} ];
          [ {| shown := "a.png"%string; cell := (0, 0);
               corner := (10, 10)%float; box := (200, 266);
               label := Some "a.png"%string |} ]] = []).
Proof.
  apply (main_shows_every_image IMG_EXTS true two_files
           (fun _ => Ok (mkImage 4000 3000 0)) Ok (Some 1) (Some 1)
           220 632 10 11 "portrait" "name" "film-bottom-up").
  vm_compute. reflexivity.
Defined.

(** X24. With [--rows] and [--cols] of opposite signs the capacity
    [rows * cols] is negative: [paginate] returns no range, no picture is
    opened, and the run ends normally with a document that has no page. *)
Theorem main_negative_capacity
    (iter_order : list string) (input_dir : Directory)
    (decode : Path.t -> result Image)
    (exif_transpose : Image -> result Image)
    (r c : Z)
    (page_w_pt page_h_pt margin_pt gap_pt : float)
    (uniform_orient labels order : string) :
  r * c < 0 ->
  find_images iter_order input_dir <> [] ->
  main iter_order true input_dir decode exif_transpose (Some r) (Some c)
    page_w_pt page_h_pt margin_pt gap_pt uniform_orient labels order
  = Done ((r, c), []).
Proof.
  intros Hneg Himg. unfold main. cbn [negb].
  destruct (find_images iter_order input_dir) as [| p l]; [contradiction |].
  unfold main_pages.
  rewrite main_grid_both
    by (cbn [truthy]; apply negb_true_iff, Z.eqb_neq; lia).
  cbn [bind int_of fst snd].
  rewrite paginate_negative by lia. reflexivity.
Qed.

Lemma main_negative_capacity_two :
  main IMG_EXTS true two_files (fun _ => Raise ValueError) Ok
    (Some (-1)) (Some 2) 220 632 10 11 "portrait" "name" "film-bottom-up"
  = Done ((-1, 2), []).
Proof.
  apply (main_negative_capacity IMG_EXTS two_files
           (fun _ => Raise ValueError) Ok (-1) 2).
  - lia.
  - vm_compute. discriminate.
Defined.



Lemma slice_all {A : Type} (l : list A) :
  slice l 0 (Z.of_nat (List.length l)) = l.
Proof.
  rewrite slice_inside by lia.
  rewrite Z.sub_0_r, Nat2Z.id. cbn [Z.to_nat skipn]. apply firstn_all.
Qed.

(** X11. Unless both [--rows] and [--cols] are given, a run that ends
    normally has drawn exactly one page: the grid derived from the one given
    value, or chosen automatically, has room for all the images, and that
    page shows them all. *)
Theorem main_single_sheet
    (iter_order : list string) (folder_ok : bool) (input_dir : Directory)
    (decode : Path.t -> result Image)
    (exif_transpose : Image -> result Image)
    (rows cols : option Z)
    (page_w_pt page_h_pt margin_pt gap_pt : float)
    (uniform_orient labels order : string)
    (grid : Z * Z) (sheets : list (list placement)) :
  Z.of_nat (List.length (find_images iter_order input_dir)) < 2 ^ 53 ->
  ordinary rows -> ordinary cols ->
  truthy rows && truthy cols = false ->
  main iter_order folder_ok input_dir decode exif_transpose rows cols
    page_w_pt page_h_pt margin_pt gap_pt uniform_orient labels order
  = Done (grid, sheets) ->
  Z.of_nat (List.length (find_images iter_order input_dir))
  <= fst grid * snd grid
  /\ exists sheet,
       sheets = [sheet]
       /\ map shown sheet = find_images iter_order input_dir.
Proof.
  intros Hn Hor Hoc Hnot Hrun.
  destruct (main_done_inv _ _ _ _ _ _ _ _ _ _ _ _ _ _ _ _ Hrun)
    as (_ & Himg & pages & Hplan & Hdraw).
  set (images := find_images iter_order input_dir) in *.
  assert (Hn1 : 1 <= Z.of_nat (List.length images)).
  { destruct images; [contradiction | cbn [List.length]; lia]. }
  destruct (main_pages_single (Z.of_nat (List.length images)) rows cols
              page_w_pt page_h_pt margin_pt gap_pt ltac:(lia) Hor Hoc Hnot)
    as (g & Hsingle & Hroom).
  rewrite Hsingle in Hplan. injection Hplan as -> _ <-.
  split; [exact Hroom |].
  cbn [draw_pages] in Hdraw. rewrite slice_all in Hdraw.
  destruct (draw_page decode exif_transpose images (fst grid) (snd grid)
              margin_pt gap_pt page_w_pt page_h_pt uniform_orient labels
              order) as [sheet |] eqn:Hsheet; [| discriminate].
  cbn [bind] in Hdraw. injection Hdraw as <-.
  exists sheet. split; [reflexivity |].
  exact (draw_page_shown _ _ _ _ _ _ _ _ _ _ _ _ _ Hsheet).
Qed.

Lemma main_single_sheet_auto :
  Z.of_nat (List.length (find_images IMG_EXTS two_files))
  <= fst (2, 1) * snd (2, 1)
  /\ exists sheet,
       [[ {| shown := "b.jpg"%string; cell := (1, 0);
             corner := (10, 10)%float; box := (200, 266);
             label := Some "b.jpg"%string |};
          {| shown := "a.png"%string; cell := (0, 0);
             corner := (10, 321.5)%float; box := (200, 266);
             label := Some "a.png"%string |} ]] = [sheet]
       /\ map shown sheet = find_images IMG_EXTS two_files.
Proof.
  apply (main_single_sheet IMG_EXTS true two_files
           (fun _ => Ok (mkImage 4000 3000 0)) Ok None None
           220 632 10 11 "portrait" "name" "film-bottom-up").
  - vm_compute. reflexivity.
  - exact I.
  - exact I.
  - reflexivity.
  - vm_compute. reflexivity.
Defined.

(** ** Integers as floats: a non-zero integer is never rounded to zero *)

Lemma valid_normal (s : bool) (m : positive) (e : Z) :
  2 ^ 52 <= Zpos m < 2 ^ 53 -> -1074 <= e <= 971 ->
  valid_binary (S754_finite s m e) = true.
Proof.
  intros Hm He. cbn [valid_binary SpecFloat.valid_binary].
  unfold bounded, canonical_mantissa. rewrite fexp_fexp64.
  rewrite (digits2_pos_unique m 53 Hm).
  apply andb_true_iff. split.
  - apply Z.eqb_eq. unfold fexp64. lia.
  - apply Z.leb_le. unfold emax, prec. lia.
Qed.

Lemma pack_normal (s : bool) (a e : Z) :
  2 ^ 52 <= a < 2 ^ 53 -> -1074 <= e ->
  pack s a e = S754_infinity s
  \/ exists m, pack s a e = S754_finite s m e
               /\ valid_binary (S754_finite s m e) = true.
Proof.
  intros Ha He. destruct a as [| m | m]; try lia. cbn [pack].
  destruct (Z.leb_spec e (emax - prec)) as [Hle | Hgt]; [right | left; reflexivity].
  exists m. split; [reflexivity |].
  apply valid_normal; [exact Ha |]. unfold emax, prec in Hle. lia.
Qed.

Lemma binary_round_int (s : bool) (p : positive) :
  binary_round prec emax s p 0 = S754_infinity s
  \/ exists m e,
       binary_round prec emax s p 0 = S754_finite s m e
       /\ valid_binary (S754_finite s m e) = true.
Proof.
  pose proof (digits2_pos_bounds p) as Hd.
  set (d := Zpos (digits2_pos p)) in *.
  assert (Hd1 : 1 <= d) by (unfold d; lia).
  unfold binary_round.
  rewrite fexp_fexp64. fold d.
  assert (Hf : fexp64 (d + 0) = d - 53) by (unfold fexp64; lia).
  rewrite Hf. unfold shl_align.
  assert (H52 : 0 < 2 ^ 52) by reflexivity.
  destruct (d - 53 - 0) as [| k | k] eqn:Hk.
  - (* exactly 53 bits *)
    assert (Hd53 : d = 53) by lia. rewrite Hd53 in Hd.
    destruct (binary_round_aux_exact s p 0) as [_ ->].
    { fold d. rewrite Hd53. unfold fexp64. lia. }
    fold d. rewrite Hd53. change (fexp64 (53 + 0)) with 0.
    change (2 ^ (0 - 0)) with 1.
    assert (Hr : round_half_even (Zpos p) 1 = Zpos p).
    { apply Z.le_antisymm;
        [apply round_half_even_le | apply round_half_even_ge]; lia. }
    rewrite Hr. destruct (Z.eqb_spec (Zpos p) (2 ^ 53)); [lia |].
    destruct (pack_normal s (Zpos p) 0 ltac:(lia) ltac:(lia))
      as [H | (m & H & Hv)]; [left; exact H | right].
    exists m, 0. split; assumption.
  - (* more than 53 bits: rounded at exponent d - 53 *)
    assert (HE : fexp64 (Zpos (digits2_pos p) + 0) = d - 53)
      by (fold d; exact Hf).
    destruct (binary_round_aux_exact s p 0) as [Hrange ->].
    { rewrite HE. lia. }
    rewrite HE in *. rewrite Z.sub_0_r in *.
    set (a := round_half_even (Zpos p) (2 ^ (d - 53))) in *.
    assert (Hpow : 0 < 2 ^ (d - 53)) by (apply Z.pow_pos_nonneg; lia).
    assert (Hlow : 2 ^ 52 <= a).
    { apply round_half_even_ge; [exact Hpow |].
      rewrite <- Z.pow_add_r by lia.
      replace (52 + (d - 53)) with (d - 1) by lia. lia. }
    destruct (Z.eqb_spec a (2 ^ 53)) as [Heq | Hne].
    + destruct (pack_normal s (2 ^ 52) (d - 53 + 1)
                  ltac:(split; [lia | reflexivity]) ltac:(lia))
        as [H | (m & H & Hv)]; [left; exact H | right].
      exists m, (d - 53 + 1). split; assumption.
    + destruct (pack_normal s a (d - 53) ltac:(lia) ltac:(lia))
        as [H | (m & H & Hv)]; [left; exact H | right].
      exists m, (d - 53). split; assumption.
  - (* fewer than 53 bits: shifted up, exact *)
    assert (Hd53 : d < 53) by lia.
    assert (Hmz : Zpos (Pos.iter xO p k) = Zpos p * 2 ^ (53 - d))
      by (rewrite iter_xO_pow; f_equal; f_equal; lia).
    assert (Hpw : 2 ^ 52 = 2 ^ (d - 1) * 2 ^ (53 - d))
      by (rewrite <- pow2_split by lia; f_equal; lia).
    assert (Hpw' : 2 ^ 53 = 2 ^ d * 2 ^ (53 - d))
      by (rewrite <- pow2_split by lia; f_equal; lia).
    assert (Hp2 : 0 < 2 ^ (53 - d)) by (apply Z.pow_pos_nonneg; lia).
    set (mz := Pos.iter xO p k) in *.
    assert (Hm : 2 ^ 52 <= Zpos mz < 2 ^ 53) by (rewrite Hmz; nia).
    pose proof (digits2_pos_unique mz 53 Hm) as Hdm.
    assert (HE : fexp64 (Zpos (digits2_pos mz) + (d - 53)) = d - 53)
      by (rewrite Hdm; unfold fexp64; lia).
    destruct (binary_round_aux_exact s mz (d - 53)) as [_ ->];
      [rewrite HE; lia |].
    rewrite HE, Z.sub_diag. change (2 ^ 0) with 1.
    assert (Hr : round_half_even (Zpos mz) 1 = Zpos mz).
    { apply Z.le_antisymm;
        [apply round_half_even_le | apply round_half_even_ge]; lia. }
    rewrite Hr. destruct (Z.eqb_spec (Zpos mz) (2 ^ 53)); [lia |].
    destruct (pack_normal s (Zpos mz) (d - 53) ltac:(lia) ltac:(lia))
      as [H | (m & H & Hv)]; [left; exact H | right].
    exists m, (d - 53). split; assumption.
Qed.

(** A non-zero integer converts to a non-zero float, if it converts. *)
Lemma float_of_int_nonzero (z : Z) (f : float) :
  z <> 0 -> float_of_int z = Ok f -> PrimFloat.eqb f 0 = false.
Proof.
  intros Hz. unfold float_of_int, nearest, binary_normalize.
  destruct z as [| p | p]; [contradiction | |].
  - destruct (binary_round_int false p) as [-> | (m & e & -> & Hv)];
      [discriminate |].
    intros H.
    assert (Hf : f = SF2Prim (S754_finite false m e))
      by (injection H as <-; reflexivity).
    rewrite Hf, eqb_spec, (Prim2SF_SF2Prim _ Hv). reflexivity.
  - destruct (binary_round_int true p) as [-> | (m & e & -> & Hv)];
      [discriminate |].
    intros H.
    assert (Hf : f = SF2Prim (S754_finite true m e))
      by (injection H as <-; reflexivity).
    rewrite Hf, eqb_spec, (Prim2SF_SF2Prim _ Hv). reflexivity.
Qed.

(** ** No division by zero in a run *)

Section Safe.

Local Abbreviation ZDE := ZeroDivisionError.

Lemma bind_safe {A B : Type} (r : result A) (k : A -> result B) :
  r <> Raise ZDE -> (forall a, r = Ok a -> k a <> Raise ZDE) ->
  bind r k <> Raise ZDE.
Proof.
  intros Hr Hk. destruct r as [a | e]; cbn [bind].
  - apply Hk. reflexivity.
  - intros [= ->]. apply Hr. reflexivity.
Qed.

Lemma float_of_int_safe (z : Z) : float_of_int z <> Raise ZDE.
Proof. unfold float_of_int. destruct (nearest z); discriminate. Qed.

Lemma fdiv_safe (x y : float) :
  PrimFloat.eqb y 0 = false -> fdiv x y <> Raise ZDE.
Proof. intros Hy. unfold fdiv. rewrite Hy. discriminate. Qed.

Lemma fdiv_int_safe (x : float) (z : Z) (f : float) :
  z <> 0 -> float_of_int z = Ok f -> fdiv x f <> Raise ZDE.
Proof.
  intros Hz Hf. apply fdiv_safe. exact (float_of_int_nonzero z f Hz Hf).
Qed.

Lemma int_of_float_safe (x : float) : int_of_float x <> Raise ZDE.
Proof.
  unfold int_of_float, trunc. destruct (Prim2SF x); discriminate.
Qed.

Lemma truediv_safe (n d : Z) : d <> 0 -> truediv n d <> Raise ZDE.
Proof.
  intros Hd. unfold truediv.
  destruct (Z.eqb_spec d 0); [contradiction |].
  destruct (n =? 0); [discriminate |].
  match goal with |- (if ?b then _ else _) <> _ => destruct b end;
    discriminate.
Qed.

Lemma index_to_cell_safe (idx rows cols : Z) (order : string) :
  rows <> 0 -> cols <> 0 -> index_to_cell idx rows cols order <> Raise ZDE.
Proof.
  intros Hr Hc. unfold index_to_cell, floordiv, mod_.
  destruct (Z.eqb_spec cols 0); [contradiction |].
  destruct (Z.eqb_spec rows 0); [contradiction |].
  destruct (String.eqb order "row-left-right"); [discriminate |].
  destruct (String.eqb order "film-bottom-up"); discriminate.
Qed.

Lemma thumbnail_box_safe (cell_w cell_h : float) (im : Image) :
  width im <> 0 -> height im <> 0 ->
  thumbnail_box cell_w cell_h im <> Raise ZDE.
Proof.
  intros Hw Hh. unfold thumbnail_box, size.
  apply bind_safe; [apply float_of_int_safe | intros iw_f Hiw].
  apply bind_safe; [exact (fdiv_int_safe _ _ _ Hw Hiw) | intros sw _].
  apply bind_safe; [apply float_of_int_safe | intros ih_f Hih].
  apply bind_safe; [exact (fdiv_int_safe _ _ _ Hh Hih) | intros sh _].
  apply bind_safe; [apply int_of_float_safe | intros a _].
  apply bind_safe; [apply int_of_float_safe | intros b _].
  discriminate.
Qed.

Lemma unify_orientation_nonzero (im : Image) (mode : string) :
  width im <> 0 /\ height im <> 0 ->
  width (unify_orientation im mode) <> 0
  /\ height (unify_orientation im mode) <> 0.
Proof.
  intros [Hw Hh]. unfold unify_orientation, size.
  destruct (String.eqb mode "none"); [split; assumption |].
  destruct (String.eqb mode "portrait" && negb (height im >=? width im));
    [split; assumption |].
  destruct (String.eqb mode "landscape" && (height im >=? width im));
    split; assumption.
Qed.

Lemma for_each_safe {S A : Type} (body : S -> A -> result S) (l : list A)
    (s : S) :
  (forall s x, body s x <> Raise ZDE) -> for_each body l s <> Raise ZDE.
Proof.
  intros Hbody. revert s. induction l as [| x l IH]; intros s; cbn.
  - discriminate.
  - apply bind_safe; [apply Hbody | intros s' _; apply IH].
Qed.

Variable decode : Path.t -> result Image.
Variable exif_transpose : Image -> result Image.

Hypothesis decode_safe : forall p, decode p <> Raise ZDE.

Hypothesis decoded_size :
  forall p im, decode p = Ok im ->
    width (normalize_exif exif_transpose im) <> 0
    /\ height (normalize_exif exif_transpose im) <> 0.

Lemma draw_page_safe (images : list Path.t) (rows cols : Z)
    (margin_pt gap_pt page_w_pt page_h_pt : float)
    (uniform_orient labels order : string) :
  rows <> 0 -> cols <> 0 ->
  draw_page decode exif_transpose images rows cols margin_pt gap_pt
    page_w_pt page_h_pt uniform_orient labels order <> Raise ZDE.
Proof.
  intros Hr Hc. unfold draw_page.
  apply bind_safe; [apply float_of_int_safe | intros c1 _].
  apply bind_safe; [apply float_of_int_safe | intros cf Hcf].
  apply bind_safe; [exact (fdiv_int_safe _ _ _ Hc Hcf) | intros cw _].
  apply bind_safe; [apply float_of_int_safe | intros r1 _].
  apply bind_safe; [apply float_of_int_safe | intros rf Hrf].
  apply bind_safe; [exact (fdiv_int_safe _ _ _ Hr Hrf) | intros ch _].
  apply for_each_safe. intros done [idx p]. unfold draw_image.
  apply bind_safe; [apply index_to_cell_safe; assumption | intros [r c] _].
  apply bind_safe; [apply float_of_int_safe | intros c_f _].
  apply bind_safe; [apply float_of_int_safe | intros r_f _].
  apply bind_safe; [apply decode_safe | intros im Him].
  apply bind_safe; [| intros bx _; discriminate].
  destruct (unify_orientation_nonzero (normalize_exif exif_transpose im)
              uniform_orient (decoded_size p im Him)) as [Hw Hh].
  apply thumbnail_box_safe; assumption.
Qed.

Lemma draw_pages_safe (draw : list Path.t -> result (list placement))
    (images : list Path.t) (pages : list (Z * Z)) :
  (forall imgs, draw imgs <> Raise ZDE) ->
  draw_pages draw images pages <> Raise ZDE.
Proof.
  intros Hdraw. induction pages as [| [s e] pages IH]; cbn [draw_pages].
  - discriminate.
  - apply bind_safe; [apply Hdraw | intros sheet _].
    apply bind_safe; [exact IH | intros sheets _; discriminate].
Qed.

Lemma paginate_safe (n per_page : Z) : paginate n per_page <> Raise ZDE.
Proof.
  unfold paginate, range. destruct (per_page =? 0); discriminate.
Qed.

Lemma main_grid_safe (n : Z) (rows cols : option Z)
    (page_w_pt page_h_pt margin_pt gap_pt : float) :
  1 <= n <= maxsize ->
  main_grid n rows cols page_w_pt page_h_pt margin_pt gap_pt <> Raise ZDE.
Proof.
  intros Hn. unfold main_grid.
  assert (Hnz : forall o, truthy o = true -> int_of o <> 0).
  { intros [v |]; cbn; [| discriminate].
    intros Ht. apply negb_true_iff in Ht. now apply Z.eqb_neq. }
  destruct (truthy rows) eqn:Hr, (truthy cols) eqn:Hc; cbn [andb negb].
  - discriminate.
  - apply bind_safe; [apply truediv_safe, Hnz, Hr | discriminate].
  - apply bind_safe; [apply truediv_safe, Hnz, Hc | discriminate].
  - destruct (choose_grid_auto_searched n page_w_pt page_h_pt margin_pt
                gap_pt (maxsize_range n Hn)) as (st & -> & _).
    discriminate.
Qed.

End Safe.

(** X26. No [ZeroDivisionError] escapes a run: as long as opening a
    picture does not raise it and no picture has a zero dimension, every
    division of [main] and [draw_page] has a divisor that is not zero; a
    grid with zero rows or columns is stopped by [paginate], with
    [ValueError], before [draw_page] can divide by it. *)
Theorem main_no_zero_division
    (iter_order : list string) (folder_ok : bool) (input_dir : Directory)
    (decode : Path.t -> result Image)
    (exif_transpose : Image -> result Image)
    (rows cols : option Z)
    (page_w_pt page_h_pt margin_pt gap_pt : float)
    (uniform_orient labels order : string) :
  Z.of_nat (List.length (find_images iter_order input_dir)) <= maxsize ->
  (forall p, decode p <> Raise ZeroDivisionError) ->
  (forall p im, decode p = Ok im ->
     width (normalize_exif exif_transpose im) <> 0
     /\ height (normalize_exif exif_transpose im) <> 0) ->
  main iter_order folder_ok input_dir decode exif_transpose rows cols
    page_w_pt page_h_pt margin_pt gap_pt uniform_orient labels order
  <> Uncaught ZeroDivisionError.
Proof.
  intros Hn Hdec Hsize. unfold main.
  destruct folder_ok; cbn [negb]; [| discriminate].
  destruct (find_images iter_order input_dir) as [| p l] eqn:Himg;
    [discriminate |].
  set (images := p :: l) in *.
  assert (Hn1 : 1 <= Z.of_nat (List.length images) <= maxsize)
    by (split; [cbn [images List.length]; lia | exact Hn]).
  match goal with
  | |- match ?r with Ok _ => _ | Raise _ => _ end <> _ =>
      assert (Hsafe : r <> Raise ZeroDivisionError);
      [| destruct r as [? | e]; [discriminate | congruence]]
  end.
  apply bind_safe.
  - unfold main_pages.
    apply bind_safe; [apply main_grid_safe; exact Hn1 | intros g _].
    apply bind_safe; [apply paginate_safe | discriminate].
  - intros [[grid pp] pages] Hplan.
    apply main_pages_inv in Hplan. destruct Hplan as (_ & -> & Hpag).
    apply bind_safe; [| discriminate].
    destruct (Z.eq_dec (fst grid * snd grid) 0) as [Hz | Hnz].
    + rewrite Hz, paginate_zero in Hpag. discriminate.
    + apply draw_pages_safe. intros imgs.
      apply draw_page_safe; try assumption; lia.
Qed.

Lemma main_no_zero_division_two :
  main IMG_EXTS true two_files (fun _ => Ok (mkImage 4000 3000 0)) Ok
    (Some (-3)) None 220 632 10 11 "portrait" "name" "film-bottom-up"
  <> Uncaught ZeroDivisionError.
Proof.
  apply (main_no_zero_division IMG_EXTS true two_files
           (fun _ => Ok (mkImage 4000 3000 0)) Ok (Some (-3)) None).
  - vm_compute. discriminate.
  - discriminate.
  - intros p im [= <-]. cbn. lia.
Defined.
